(** * eva-mcp: framed JSON-RPC transport, registries, sandbox and server loop

    A shallow embedding of the TypeScript sources
      - [src/util/jsonrpc.ts]   (FramedJSONRPC, readLine, readHeaders, readBytes, drainBody)
      - [src/runtime/registry.ts] (ToolRegistry, ResourceRegistry, PromptRegistry, renderTemplate)
      - [src/util/sandbox.ts]   (createSandbox: safeResolve, read)
      - [src/server.ts]         (MCPServer.run, handle, send, sendError)
    together with the part of the Node.js platform these functions are written
    against (paused-mode [Readable] streams, [path.resolve], string helpers). *)

From Stdlib Require Import ZArith Ascii String List Lia Bool.
From stdpp Require Import gmap strings list.
Import ListNotations.

Set Warnings "-register-all".

Open Scope Z_scope.
Open Scope nat_scope.
Open Scope list_scope.

(* ===================================================================== *)
(** ** Strings and buffers *)
(* ===================================================================== *)

(** A Node [Buffer] is a byte sequence.  JavaScript strings are embedded as
    sequences of one-byte code units, so [buf.toString("utf8")] is the
    identity (exact on ASCII input, which is what the wire headers are). *)
Abbreviation Buffer := (list ascii).
Abbreviation Str := (list ascii).

Definition lit (s : string) : Str := list_ascii_of_string s.

Definition LF : ascii := "010"%char.
Definition CR : ascii := "013"%char.
Definition CRLF : Str := [CR; LF].

Definition toString (b : Buffer) : Str := b.

(** [s.indexOf(c)] for a single character: [None] stands for [-1]. *)
Fixpoint indexOf (c : ascii) (s : Str) : option nat :=
  match s with
  | [] => None
  | x :: s' => if decide (x = c) then Some 0 else S <$> indexOf c s'
  end.

(** [s.slice(i, j)] and [s.slice(i)] / [buf.subarray(i, j)] and [buf.subarray(i)]
    for in-range, non-negative indices. *)
Definition slice (i j : nat) (s : Str) : Str := take (j - i) (drop i s).
Definition slice_from (i : nat) (s : Str) : Str := drop i s.

(** White space removed by [trim] and skipped by [parseInt]: the ASCII part
    of ECMAScript's WhiteSpace and LineTerminator.  The rest of it (U+00A0,
    U+FEFF, U+2028 and the like) lies outside ASCII, so [trim], [parseInt]
    and [toLowerCase] below are the JavaScript functions on ASCII text
    only; header lines are taken to be ASCII wherever a result depends on
    them. *)
Definition is_space (c : ascii) : bool :=
  let n := nat_of_ascii c in
  (n =? 9) || (n =? 10) || (n =? 11) || (n =? 12) || (n =? 13) || (n =? 32).

Fixpoint trimStart (s : Str) : Str :=
  match s with
  | c :: s' => if is_space c then trimStart s' else s
  | [] => []
  end.

Definition trimEnd (s : Str) : Str := rev (trimStart (rev s)).
Definition trim (s : Str) : Str := trimEnd (trimStart s).

Definition lower (c : ascii) : ascii :=
  let n := nat_of_ascii c in
  if (65 <=? n) && (n <=? 90) then ascii_of_nat (n + 32) else c.

(** [s.toLowerCase()] on ASCII text. *)
Definition toLowerCase (s : Str) : Str := map lower s.

Definition is_digit (c : ascii) : bool :=
  let n := nat_of_ascii c in (48 <=? n) && (n <=? 57).

Definition digit_val (c : ascii) : Z := Z.of_nat (nat_of_ascii c - 48).

(** The longest prefix of decimal digits, read as a number. *)
Fixpoint digits_prefix (acc : option Z) (s : Str) : option Z :=
  match s with
  | c :: s' =>
      if is_digit c
      then digits_prefix (Some (10 * default 0%Z acc + digit_val c)%Z) s'
      else acc
  | [] => acc
  end.

(** [parseInt(s, 10)]: leading white space, an optional sign, then the
    longest run of digits; [None] is [NaN].  JavaScript numbers are doubles:
    the value is the integer written as long as that is at most
    [Number.MAX_SAFE_INTEGER] (2^53 - 1), which covers every length a Buffer
    can have; a longer run of digits is rounded, and from some 309 digits on
    it gives [Infinity].  The embedding keeps the integer written, so it is
    the code's value up to that bound only. *)
Definition parseInt (s : Str) : option Z :=
  match trimStart s with
  | c :: s' =>
      if decide (c = "-"%char) then Z.opp <$> digits_prefix None s'
      else if decide (c = "+"%char) then digits_prefix None s'
      else digits_prefix None (c :: s')
  | [] => None
  end.

(** Decimal rendering of a length, as the template literal
    [`Content-Length: ${n}`] produces it. *)
Fixpoint decimal_go (fuel : nat) (n : nat) (acc : Str) : Str :=
  match fuel with
  | O => acc
  | S fuel' =>
      let acc' := ascii_of_nat (48 + n mod 10) :: acc in
      if n <? 10 then acc' else decimal_go fuel' (n / 10) acc'
  end.

Definition decimal (n : nat) : Str := decimal_go (S n) n [].

(** [Buffer.concat(list, totalLength)]: the concatenation, cut or zero-filled
    to [totalLength] bytes. *)
Definition Buffer_concat (l : list Buffer) (totalLength : nat) : Buffer :=
  take totalLength (concat l ++ replicate (totalLength - length (concat l)) zero).

(* ===================================================================== *)
(** ** JSON values *)
(* ===================================================================== *)

(** Values produced by [JSON.parse].  Numbers are restricted to integers;
    [undefined] is [None] in [option Json]. *)
Inductive Json : Type :=
  | JNull
  | JBool (b : bool)
  | JNum (n : Z)
  | JStr (s : Str)
  | JArr (xs : list Json)
  | JObj (fields : list (Str * Json)).

Fixpoint assoc {A} (k : Str) (l : list (Str * A)) : option A :=
  match l with
  | [] => None
  | (k', v) :: l' => if decide (k' = k) then Some v else assoc k l'
  end.

(** Property read [j.k] / [j?.k] on a parsed value, for the property names
    this program reads ([id], [method], [params], [name], [arguments], [uri],
    [variables]): an own property of an object, otherwise [undefined]. *)
Definition prop (k : string) (j : Json) : option Json :=
  match j with
  | JObj fields => assoc (lit k) fields
  | _ => None
  end.

(** JavaScript truthiness of a parsed value ([!msg], [!uri], [data ? ..]). *)
Definition truthy (j : Json) : bool :=
  match j with
  | JNull => false
  | JBool b => b
  | JNum n => negb (n =? 0)%Z
  | JStr s => match s with [] => false | _ => true end
  | JArr _ | JObj _ => true
  end.

Definition truthy_opt (j : option Json) : bool :=
  match j with Some v => truthy v | None => false end.

(** [x ?? d] on a possibly undefined value. *)
Definition nullish (j : option Json) (d : Json) : Json :=
  match j with
  | None | Some JNull => d
  | Some v => v
  end.

(* ===================================================================== *)
(** ** The Node.js platform: a paused-mode Readable and its event loop *)
(* ===================================================================== *)

(** The internal state of a [Readable] that the transport depends on:
    [buffer] is [_readableState.buffer] (the chunks pushed and not yet read),
    [ended] is [_readableState.ended] (end-of-input has been pushed),
    [endScheduled] records a queued [endReadableNT] callback, and
    [readableEnded] is the public getter (the 'end' event has been emitted).
    In byte mode [read()] hands out the whole buffer at once; in object mode
    (a stream made by [Readable.from]) one chunk at a time. *)
Record Readable : Type := mkReadable {
  objectMode : bool;
  buffer : list Buffer;
  ended : bool;
  endScheduled : bool;
  readableEnded : bool
}.

Definition set_buffer (b : list Buffer) (s : Readable) : Readable :=
  mkReadable (objectMode s) b (ended s) (endScheduled s) (readableEnded s).

Definition set_ended (s : Readable) : Readable :=
  mkReadable (objectMode s) (buffer s) true (endScheduled s) (readableEnded s).

(** [endReadable]: queue the emission of 'end' unless it has been emitted. *)
Definition endReadable (s : Readable) : Readable :=
  if readableEnded s then s
  else mkReadable (objectMode s) (buffer s) (ended s) true (readableEnded s).

Definition is_nil {A} (l : list A) : bool :=
  match l with [] => true | _ => false end.

(** [stream.read()] without a size argument. *)
Definition stream_read (s : Readable) : option Buffer * Readable :=
  match buffer s with
  | [] => (None, if ended s then endReadable s else s)
  | c :: cs =>
      let '(ret, rest) :=
        if objectMode s then (c, cs) else (concat (c :: cs), []) in
      let s' := set_buffer rest s in
      (Some ret, if ended s && is_nil rest then endReadable s' else s')
  end.

(** A chunk is stored unless it is an empty chunk of a byte-mode stream. *)
Definition storable (s : Readable) (chunk : Buffer) : bool :=
  objectMode s || negb (is_nil chunk).

(** [stream.unshift(chunk)]: put bytes back in front of the buffer.  After
    'end' has been emitted Node reports ERR_STREAM_UNSHIFT_AFTER_END_EVENT
    and the chunk is lost. *)
Definition unshift (chunk : Buffer) (s : Readable) : Readable :=
  if readableEnded s then s
  else if storable s chunk then set_buffer (chunk :: buffer s) s else s.

(** What the producer does to the stream: a chunk is written, or the stream
    is closed. *)
Inductive arrival : Type :=
  | Data (chunk : Buffer)
  | End.

(** [push(chunk)] / [push(null)].  Data written after the close is dropped. *)
Definition deliver (a : arrival) (s : Readable) : Readable :=
  match a with
  | Data chunk =>
      if ended s then s
      else if storable s chunk then set_buffer (buffer s ++ [chunk]) s else s
  | End => set_ended s
  end.

(** [endReadableNT], run from the next-tick queue: 'end' is emitted (result
    [true]) if the buffer is still empty. *)
Definition nextTick (s : Readable) : bool * Readable :=
  if endScheduled s then
    if negb (readableEnded s) && is_nil (buffer s)
    then (true, mkReadable (objectMode s) (buffer s) (ended s) false true)
    else (false, mkReadable (objectMode s) (buffer s) (ended s) false (readableEnded s))
  else (false, s).

(** A response record as passed to [FramedJSONRPC.write]; the protocol tag
    [jsonrpc: "2.0"] is constant and left implicit. *)
Inductive Payload : Type :=
  | Result (result : Json)
  | Error (code : Z) (message : Str) (data : option Json).

Record JSONRPCResponse : Type := mkResponse {
  id : Json;
  payload : Payload
}.

(** The environment of one connection: the input stream, the arrivals that
    have not happened yet, a schedule saying how many of them happen before
    each resumption of the program, and the frames written to the output
    stream so far. *)
Record World : Type := mkWorld {
  stream : Readable;
  pending : list arrival;
  timing : list nat;
  written : list JSONRPCResponse
}.

Definition set_stream (s : Readable) (w : World) : World :=
  mkWorld s (pending w) (timing w) (written w).

Fixpoint deliver_n (n : nat) (p : list arrival) (s : Readable)
  : list arrival * Readable :=
  match n, p with
  | S n', a :: p' => deliver_n n' p' (deliver a s)
  | _, _ => (p, s)
  end.

(** Between two resumptions the producer may have made any number of the
    pending arrivals happen; the schedule says how many. *)
Definition interleave (w : World) : World :=
  let '(p, s) := deliver_n (hd 0 (timing w)) (pending w) (stream w) in
  mkWorld s p (tl (timing w)) (written w).

(** While the program waits for an event at least one more arrival happens,
    if any is left.  The boolean tells whether 'readable' is emitted: the
    buffer grew or the stream was closed. *)
Definition arrive (w : World) : option (bool * World) :=
  match pending w with
  | [] => None
  | _ =>
      let '(p, s) := deliver_n (S (hd 0 (timing w))) (pending w) (stream w) in
      let changed :=
        negb (length (buffer s) =? length (buffer (stream w)))
        || (ended s && negb (ended (stream w))) in
      Some (changed, mkWorld s p (tl (timing w)) (written w))
  end.

(** The state of a promise when the event loop has nothing left to do. *)
Inductive Promise (A : Type) : Type :=
  | Fulfilled (a : A)
  | Rejected (e : Str)
  | Forever.   (* never settled *)
Arguments Fulfilled {A} a.
Arguments Rejected {A} e.
Arguments Forever {A}.

(** An asynchronous computation: it runs against the world and leaves its
    promise settled, or pending for ever. *)
Definition Async (A : Type) : Type := World -> Promise A * World.

Definition ret {A} (a : A) : Async A := fun w => (Fulfilled a, w).

Definition throw {A} (e : Str) : Async A := fun w => (Rejected e, w).

Definition bind {A B} (m : Async A) (k : A -> Async B) : Async B :=
  fun w =>
    match m w with
    | (Fulfilled a, w') => k a w'
    | (Rejected e, w') => (Rejected e, w')
    | (Forever, w') => (Forever, w')
    end.

Notation "x <- 'await' m ;; k" := (bind m (fun x => k))
  (at level 100, m at next level, right associativity).
Notation "'await' m ;; k" := (bind m (fun _ => k))
  (at level 100, m at next level, right associativity).

(** What a listener did: it settled the promise ([resolve]/[reject] followed
    by [cleanup]) or it keeps waiting with its updated local variables. *)
Inductive Step (A St : Type) : Type :=
  | Settle (r : Promise A) (s : Readable)
  | Wait (st : St) (s : Readable).
Arguments Settle {A St} r s.
Arguments Wait {A St} st s.

Record Listeners (A St : Type) : Type := mkListeners {
  on_readable : St -> Readable -> Step A St;
  on_end : St -> Readable -> Step A St
}.
Arguments on_readable {A St} _ _ _.
Arguments on_end {A St} _ _ _.

(** Settling resumes the awaiting caller in a microtask.  The listeners run
    from the next-tick queue ('readable' and 'end' are emitted by callbacks
    scheduled with [process.nextTick]), and Node runs what is left of that
    queue before the microtask: the queue is run here first. *)
Definition settled {A} (r : Promise A) (s : Readable) (w : World)
  : Promise A * World :=
  (r, set_stream (snd (nextTick s)) w).

(** The event loop while a promise with listeners on 'readable' and 'end' is
    pending: the next-tick queue runs (and may emit 'end'), otherwise the
    next arrivals happen and 'readable' is emitted. *)
Fixpoint await_events {A St} (L : Listeners A St) (fuel : nat) (st : St)
    (w : World) : Promise A * World :=
  match fuel with
  | O => (Forever, w)
  | S fuel' =>
      match nextTick (stream w) with
      | (true, s1) =>
          match on_end L st s1 with
          | Settle r s2 => settled r s2 w
          | Wait _ s2 => (Forever, set_stream s2 w)
          end
      | (false, s1) =>
          match arrive (set_stream s1 w) with
          | None => (Forever, set_stream s1 w)
          | Some (false, w1) => await_events L fuel' st w1
          | Some (true, w1) =>
              match on_readable L st (stream w1) with
              | Settle r s2 => settled r s2 w1
              | Wait st' s2 => await_events L fuel' st' (set_stream s2 w1)
              end
          end
      end
  end.

(** The executor that [readLine] and [readBytes] share:
    [stream.on("readable", onReadable); stream.on("end", onEnd);
     onReadable(); if (!done && stream.readableEnded) onEnd();]
    after which the promise is left to the event loop.  The arrivals that
    happened since the previous resumption are taken in first. *)
Definition listen {A St} (L : Listeners A St) (st0 : St) : Async A := fun w0 =>
  let w := interleave w0 in
  match on_readable L st0 (stream w) with
  | Settle r s' => settled r s' w
  | Wait st s' =>
      if readableEnded s'
      then match on_end L st s' with
           | Settle r s'' => settled r s'' w
           | Wait _ s'' => (Forever, set_stream s'' w)
           end
      else await_events L (S (length (pending w))) st (set_stream s' w)
  end.

(* ===================================================================== *)
(** ** src/util/jsonrpc.ts *)
(* ===================================================================== *)

(** The local variables [chunks] and [total] of [readLine] and [readBytes];
    [done] is the difference between [Settle] and [Wait]. *)
Record Acc : Type := mkAcc {
  chunks : list Buffer;
  total : nat
}.

Definition acc_push (chunk : Buffer) (st : Acc) : Acc :=
  mkAcc (chunks st ++ [chunk]) (total st + length chunk).

(** The scan of [tryResolve]: the length of the line that ends at the first
    0x0a found in a chunk. *)
Fixpoint scan_newline (cs : list Buffer) (offset : nat) : option nat :=
  match cs with
  | [] => None
  | chunk :: cs' =>
      match indexOf LF chunk with
      | Some idx => Some (offset + idx + 1)
      | None => scan_newline cs' (offset + length chunk)
      end
  end.

(** [if (rest.length) stream.unshift(rest)] *)
Definition unshift_rest (rest : Buffer) (s : Readable) : Readable :=
  if is_nil rest then s else unshift rest s.

Section readLine.

  (** [tryResolve]: on success the line is resolved and the rest pushed back. *)
Definition readLine_tryResolve (st : Acc) (s : Readable)
    : option (Buffer * Readable) :=
    match scan_newline (chunks st) 0 with
    | Some lineLen =>
        let buffer := Buffer_concat (chunks st) (total st) in
        let line := slice 0 lineLen buffer in
        let rest := slice_from lineLen buffer in
        Some (line, unshift_rest rest s)
    | None => None
    end.

  (** The [while ((chunk = stream.read()) !== null)] loop of [onReadable].
      Every turn takes a chunk out of the stream's buffer, so the length of
      that buffer bounds the number of turns. *)
Fixpoint readLine_drain (fuel : nat) (st : Acc) (s : Readable)
    : Step (option Buffer) Acc :=
    match stream_read s with
    | (None, s') => Wait st s'
    | (Some chunk, s') =>
        let st' := acc_push chunk st in
        match readLine_tryResolve st' s' with
        | Some (line, s'') => Settle (Fulfilled (Some line)) s''
        | None =>
            match fuel with
            | O => Wait st' s'
            | S fuel' => readLine_drain fuel' st' s'
            end
        end
    end.

Definition readLine_onReadable (st : Acc) (s : Readable)
    : Step (option Buffer) Acc :=
    match readLine_drain (length (buffer s)) st s with
    | Settle r s' => Settle r s'
    | Wait st' s' =>
        if readableEnded s' && is_nil (chunks st')
        then Settle (Fulfilled None) s'
        else Wait st' s'
    end.

Definition readLine_onEnd (st : Acc) (s : Readable)
    : Step (option Buffer) Acc :=
    match readLine_tryResolve st s with
    | Some (line, s') => Settle (Fulfilled (Some line)) s'
    | None => Settle (Fulfilled None) s
    end.

Definition readLine_listeners : Listeners (option Buffer) Acc :=
    mkListeners _ _ readLine_onReadable readLine_onEnd.

  (** [readLine(stream)] *)
Definition readLine : Async (option Buffer) :=
    listen readLine_listeners (mkAcc [] 0).

End readLine.

(** The bytes the world can still supply: used to bound the header loop. *)
Definition arrival_size (a : arrival) : nat :=
  match a with Data chunk => length chunk | End => 0 end.

Definition world_size (w : World) : nat :=
  length (concat (buffer (stream w)))
  + sum_list (map arrival_size (pending w)).

(** [readHeaders]: the object [headers] is a finite map from lower-cased
    header names to values. *)
Fixpoint readHeaders_loop (fuel : nat) (headers : gmap Str Str)
  : Async (option (gmap Str Str)) :=
  line <- await readLine ;;
  match line with
  | None => ret None
  | Some line =>
      let s := toString line in
      if decide (s = CRLF) then ret (Some headers)
      else
        let headers' :=
          match indexOf ":"%char s with
          | Some idx =>
              let key := toLowerCase (trim (slice 0 idx s)) in
              let value := trim (slice_from (idx + 1) s) in
              <[key := value]> headers
          | None => headers
          end in
        match fuel with
        | O => fun w => (Forever, w)
        | S fuel' => readHeaders_loop fuel' headers'
        end
  end.

Definition readHeaders : Async (option (gmap Str Str)) := fun w =>
  readHeaders_loop (world_size w) ∅ w.

Section readBytes.
Variable len : Z.

Fixpoint readBytes_drain (fuel : nat) (st : Acc) (s : Readable)
    : Step Buffer Acc :=
    match stream_read s with
    | (None, s') => Wait st s'
    | (Some chunk, s') =>
        let st' := acc_push chunk st in
        if (len <=? Z.of_nat (total st'))%Z then
          let buffer := Buffer_concat (chunks st') (total st') in
          let exact := slice 0 (Z.to_nat len) buffer in
          let rest := slice_from (Z.to_nat len) buffer in
          Settle (Fulfilled exact) (unshift_rest rest s')
        else
          match fuel with
          | O => Wait st' s'
          | S fuel' => readBytes_drain fuel' st' s'
          end
    end.

Definition readBytes_onReadable (st : Acc) (s : Readable) : Step Buffer Acc :=
    readBytes_drain (length (buffer s)) st s.

Definition readBytes_onEnd (st : Acc) (s : Readable) : Step Buffer Acc :=
    Settle (Rejected (lit "Stream ended")) s.

Definition readBytes_listeners : Listeners Buffer Acc :=
    mkListeners _ _ readBytes_onReadable readBytes_onEnd.

  (** [readBytes(stream, len)].  The listener [onError], which rejects with
      the error of the stream, is not represented: a stream of this
      embedding emits 'readable' and 'end' and never 'error', and what is
      proved of [readBytes], [read] and [run] is about such streams. *)
Definition readBytes : Async Buffer :=
    listen readBytes_listeners (mkAcc [] 0).
End readBytes.

(** [drainBody]: wait for one 'readable' event, reading nothing.  Adding the
    listener makes Node emit 'readable' when the buffer holds data.  Once
    the input has ended and the buffer is empty the embedding lets only
    'end' follow, which resolves nothing; in Node a 'readable' emission
    scheduled before the buffer was emptied may still arrive and resolve
    the promise, and the embedding does not keep track of such an emission.
    The outcome of [drainBody] is used below only while bytes are still to
    come. *)
Definition drainBody_listeners : Listeners unit unit :=
  mkListeners _ _
    (fun _ s => Settle (Fulfilled tt) s)
    (fun _ s => Wait tt s).

Definition drainBody : Async unit := fun w0 =>
  let w := interleave w0 in
  let s := stream w in
  if readableEnded s then (Forever, w)
  else if negb (is_nil (buffer s)) then settled (Fulfilled tt) s w
  else if ended s then (Forever, set_stream (snd (nextTick (endReadable s))) w)
  else await_events drainBody_listeners (S (length (pending w))) tt w.

Definition parse_error_sentinel (message : Str) : Json :=
  JObj [ (lit "jsonrpc", JStr (lit "2.0"));
         (lit "id", JNull);
         (lit "method", JStr (lit "__internal_parse_error__"));
         (lit "params",
           JObj [ (lit "message",
                    JStr (if is_nil message then lit "Parse error" else message)) ]) ].

(** [!Number.isFinite(len) || len <= 0], with [None] for [NaN].  [Infinity],
    which [parseInt] gives for a run of some 309 digits or more and which
    the code takes for an invalid length too, is no value of the embedding:
    a length beyond [Number.MAX_SAFE_INTEGER] is outside its scope. *)
Definition invalid_length (len : option Z) : bool :=
  match len with
  | Some n => (n <=? 0)%Z
  | None => true
  end.

Section FramedJSONRPC.
  (** [JSON.parse] on the decoded body: a value, or the message of the
      [SyntaxError] it throws. *)
Variable JSON_parse : Str -> Json + Str.

  (** [FramedJSONRPC.read].  The lines written with [logErr] go to the
      process's standard error and are not represented. *)
Definition FramedJSONRPC_read : Async (option Json) :=
    headers <- await readHeaders ;;
    match headers with
    | None => ret None
    | Some headers =>
        let lenStr := headers !! lit "content-length" in
        let len :=
          match lenStr with
          | Some (c :: s) => parseInt (c :: s)
          | _ => None
          end in
        if invalid_length len then
          await drainBody ;;
          ret None
        else
          buf <- await readBytes (default 0%Z len) ;;
          match JSON_parse (toString buf) with
          | inl req => ret (Some req)
          | inr message => ret (Some (parse_error_sentinel message))
          end
    end.

  (** [FramedJSONRPC.write]: one frame, [Content-Length] header and the
      serialized object, is appended to the output stream. *)
Definition FramedJSONRPC_write (obj : JSONRPCResponse) : Async unit :=
    fun w => (Fulfilled tt,
              mkWorld (stream w) (pending w) (timing w) (written w ++ [obj])).
End FramedJSONRPC.

(* ===================================================================== *)
(** ** Synchronous exceptions, [String(..)], and JavaScript [Map] *)
(* ===================================================================== *)

(** The outcome of code that may [throw new Error(message)]. *)
Inductive Except (A : Type) : Type :=
  | Ok (a : A)
  | Throw (message : Str).
Arguments Ok {A} a.
Arguments Throw {A} message.

Definition ebind {A B} (m : Except A) (k : A -> Except B) : Except B :=
  match m with
  | Ok a => k a
  | Throw e => Throw e
  end.

(** Awaiting a value or a promise that a synchronous call produced. *)
Definition lift {A} (m : Except A) : Async A :=
  match m with
  | Ok a => ret a
  | Throw e => throw e
  end.

(** [try { body } catch (e) { handler(e.message) }] *)
Definition try_catch {A} (body : Async A) (handler : Str -> Async A) : Async A :=
  fun w =>
    match body w with
    | (Rejected e, w') => handler e w'
    | r => r
    end.

(** A [Map<string, V>]: entries in insertion order; [set] on an existing key
    replaces the value in place. *)
Fixpoint Map_set {V} (k : Str) (v : V) (m : list (Str * V)) : list (Str * V) :=
  match m with
  | [] => [(k, v)]
  | (k', v') :: m' =>
      if decide (k' = k) then (k, v) :: m' else (k', v') :: Map_set k v m'
  end.

Definition Map_get {V} (k : Str) (m : list (Str * V)) : option V := assoc k m.

Definition Map_values {V} (m : list (Str * V)) : list V := map snd m.

Fixpoint join (sep : Str) (l : list Str) : Str :=
  match l with
  | [] => []
  | [x] => x
  | x :: l' => x ++ sep ++ join sep l'
  end.

Definition has_key {A} (k : Str) (l : list (Str * A)) : bool :=
  match assoc k l with Some _ => true | None => false end.

Section Coercion.
  (** [Number.prototype.toString] on an integer-valued number. *)
Variable Number_toString : Z -> Str.

  (** [String(v)] on a parsed value.  An array is joined with commas, where
      [null] elements give the empty string; an object gives
      "[object Object]" unless an own, necessarily non-callable, [toString]
      property hides [Object.prototype.toString], in which case the
      conversion throws a TypeError. *)
Fixpoint JS_String (v : Json) : Except Str :=
    match v with
    | JNull => Ok (lit "null")
    | JBool true => Ok (lit "true")
    | JBool false => Ok (lit "false")
    | JNum n => Ok (Number_toString n)
    | JStr s => Ok s
    | JArr xs =>
        ebind
          ((fix elements (xs : list Json) : Except (list Str) :=
              match xs with
              | [] => Ok []
              | x :: xs' =>
                  ebind (match x with JNull => Ok [] | _ => JS_String x end)
                    (fun s => ebind (elements xs') (fun l => Ok (s :: l)))
              end) xs)
          (fun l => Ok (join (lit ",") l))
    | JObj fields =>
        if has_key (lit "toString") fields
        then Throw (lit "Cannot convert object to primitive value")
        else Ok (lit "[object Object]")
    end.

  (** [String(v)] where [v] may be [undefined]. *)
Definition JS_String_opt (v : option Json) : Except Str :=
    match v with
    | Some v => JS_String v
    | None => Ok (lit "undefined")
    end.
End Coercion.

(* ===================================================================== *)
(** ** src/protocol/types.ts and src/runtime/registry.ts *)
(* ===================================================================== *)

Record ToolDef : Type := mkToolDef {
  tool_name : Str;
  tool_description : option Str;
  tool_inputSchema : option Json
}.

Record ToolResult : Type := mkToolResult {
  content : list Str;          (* the [text] of each [{ type: "text", text }] part *)
  isError : option bool
}.

Record ResourceDef : Type := mkResourceDef {
  res_uri : Str;
  res_name : option Str;
  res_description : option Str;
  res_mimeType : option Str
}.

Record ResourceContent : Type := mkResourceContent {
  rc_uri : Str;
  rc_mimeType : option Str;
  rc_text : option Str
}.

Record PromptVar : Type := mkPromptVar {
  var_name : Str;
  var_description : option Str;
  var_required : option bool
}.

Record PromptDef : Type := mkPromptDef {
  prompt_name : Str;
  prompt_description : option Str;
  prompt_variables : option (list PromptVar)
}.

(** A tool handler receives the arguments and the reading of the clock that
    [ctx.now()] returns; it answers or throws. *)
Definition ToolHandler : Type := option Json -> Str -> Except ToolResult.

Definition ResourceReader : Type := Str -> Except ResourceContent.

Module ToolRegistry.
Abbreviation t := (list (Str * (ToolDef * ToolHandler))).

Definition empty : t := [].

Definition register (def : ToolDef) (handler : ToolHandler) (tools : t) : t :=
    Map_set (tool_name def) (def, handler) tools.

Definition list (tools : t) : list ToolDef :=
    map fst (Map_values tools).

Definition call (now : Str) (tools : t) (name : Str) (args : option Json)
    : Except ToolResult :=
    match Map_get name tools with
    | None => Ok (mkToolResult [lit "Tool not found: " ++ name] (Some true))
    | Some (_, handler) => handler args now
    end.
End ToolRegistry.

Definition startsWith (s p : Str) : bool := bool_decide (take (length p) s = p).

Module ResourceRegistry.
Record t : Type := mk {
    resources : list ResourceDef;
    readers : list (Str * ResourceReader)
  }.

Definition empty : t := mk [] [].

Definition register (def : ResourceDef) (reader : ResourceReader) (reg : t) : t :=
    mk (resources reg ++ [def]) (Map_set (res_uri def) reader (readers reg)).

Definition list (reg : t) : list ResourceDef := resources reg.

Definition find_match (reg : t) (uri : Str) : option ResourceDef :=
    match find (fun r => bool_decide (res_uri r = uri)) (resources reg) with
    | Some r => Some r
    | None => find (fun r => startsWith uri (res_uri r)) (resources reg)
    end.

Definition read (reg : t) (uri : Str) : Except ResourceContent :=
    match find_match reg uri with
    | None => Throw (lit "Resource not found")
    | Some m =>
        match Map_get (res_uri m) (readers reg) with
        | None => Throw (lit "Reader missing")
        | Some reader => reader uri
        end
    end.
End ResourceRegistry.

(** The regular expression [/\{\{(\w+)\}\}/]. *)
Definition is_word (c : ascii) : bool :=
  let n := nat_of_ascii c in
  ((48 <=? n) && (n <=? 57)) || ((65 <=? n) && (n <=? 90))
  || ((97 <=? n) && (n <=? 122)) || (n =? 95).

Fixpoint span_word (s : Str) : Str * Str :=
  match s with
  | c :: s' =>
      if is_word c then let '(k, r) := span_word s' in (c :: k, r) else ([], s)
  | [] => ([], [])
  end.

(** A match anchored at the start of [s]: the captured name and the text
    after the match.  [\w+] is greedy and the closing braces are not word
    characters, so the longest run of word characters is the only candidate. *)
Definition match_placeholder (s : Str) : option (Str * Str) :=
  match s with
  | c1 :: c2 :: s1 =>
      if bool_decide (c1 = "{"%char) && bool_decide (c2 = "{"%char) then
        match span_word s1 with
        | (k1 :: k, c3 :: c4 :: s2) =>
            if bool_decide (c3 = "}"%char) && bool_decide (c4 = "}"%char)
            then Some (k1 :: k, s2) else None
        | _ => None
        end
      else None
  | _ => None
  end.

(** Properties that every object inherits from [Object.prototype] and whose
    names match [\w+], with the text [String(..)] gives for their values. *)
Definition native_function (name : Str) : Str :=
  lit "function " ++ name ++ lit "() { [native code] }".

Definition Object_prototype (k : Str) : option Str :=
  if decide (k = lit "constructor") then Some (native_function (lit "Object"))
  else if decide (k = lit "__proto__") then Some (lit "[object Object]")
  else if bool_decide (k ∈ map lit
            [ "toString"; "toLocaleString"; "valueOf"; "hasOwnProperty";
              "isPrototypeOf"; "propertyIsEnumerable"; "__defineGetter__";
              "__defineSetter__"; "__lookupGetter__"; "__lookupSetter__" ]%string)
       then Some (native_function k)
  else None.

Section Prompts.
Variable Number_toString : Z -> Str.
  (** [String(vars[k] ?? '')] when [vars] is not an object (an array, a
      string, a number or a boolean sent as [variables]). *)
Variable primitive_member : Json -> Str -> Except Str.

  (** The replacement callback [(_, k) => String(vars[k] ?? '')]. *)
Definition replacement (vars : Json) (k : Str) : Except Str :=
    match vars with
    | JObj fields =>
        match assoc k fields with
        | Some JNull => Ok []
        | Some v => JS_String Number_toString v
        | None => Ok (default [] (Object_prototype k))
        end
    | _ => primitive_member vars k
    end.

  (** [tpl.replace(/\{\{(\w+)\}\}/g, callback)]: matches are found left to
      right and do not overlap; [skip] counts the characters of the current
      match that are still to be passed over. *)
Fixpoint replace_all (vars : Json) (skip : nat) (tpl : Str) : Except Str :=
    match tpl with
    | [] => Ok []
    | c :: tpl' =>
        match skip with
        | S n => replace_all vars n tpl'
        | O =>
            match match_placeholder tpl with
            | Some (k, _) =>
                ebind (replacement vars k) (fun v =>
                ebind (replace_all vars (length k + 3) tpl') (fun r =>
                Ok (v ++ r)))
            | None =>
                ebind (replace_all vars 0 tpl') (fun r => Ok (c :: r))
            end
        end
    end.

Definition renderTemplate (tpl : Str) (vars : Json) : Except Str :=
    replace_all vars 0 tpl.

End Prompts.

Module PromptRegistry.
Abbreviation t := (list (Str * (PromptDef * Str))).

Definition empty : t := [].

Definition register (def : PromptDef) (template : Str) (prompts : t) : t :=
    Map_set (prompt_name def) (def, template) prompts.

Definition list (prompts : t) : list PromptDef :=
    map fst (Map_values prompts).

Section get.
Variable Number_toString : Z -> Str.
Variable primitive_member : Json -> Str -> Except Str.

    (** The result is the record [{ name, content }]. *)
Definition get (prompts : t) (name : Str) (variables : Json)
      : Except (Str * Str) :=
      match Map_get name prompts with
      | None => Throw (lit "Prompt not found")
      | Some (_, template) =>
          ebind (renderTemplate Number_toString primitive_member template variables)
            (fun content => Ok (name, content))
      end.
End get.
End PromptRegistry.

(* ===================================================================== *)
(** ** node:path (POSIX) and src/util/sandbox.ts *)
(* ===================================================================== *)

(** [s.split(sep)] for a one-character separator. *)
Fixpoint split (sep : ascii) (s : Str) : list Str :=
  match s with
  | [] => [[]]
  | c :: s' =>
      if decide (c = sep) then [] :: split sep s'
      else match split sep s' with
           | x :: l => (c :: x) :: l
           | [] => [[c]]
           end
  end.

Definition dot : Str := lit ".".
Definition dotdot : Str := lit "..".

(** One segment of [normalizeString(path, allowAboveRoot, "/")]: empty and
    "." segments vanish, ".." removes the segment before it, and stays only
    above the start of a relative path. *)
Definition normalize_step (allowAboveRoot : bool) (stack : list Str) (seg : Str)
  : list Str :=
  if bool_decide (seg = []) || bool_decide (seg = dot) then stack
  else if bool_decide (seg = dotdot) then
    match last stack with
    | Some l =>
        if bool_decide (l = dotdot) then stack ++ [dotdot] else removelast stack
    | None => if allowAboveRoot then [dotdot] else []
    end
  else stack ++ [seg].

Definition normalize (allowAboveRoot : bool) (segs : list Str) : list Str :=
  fold_left (normalize_step allowAboveRoot) segs [].

Definition isAbsolute (p : Str) : bool :=
  match p with
  | c :: _ => bool_decide (c = "/"%char)
  | [] => false
  end.

(** The loop of [path.resolve]: arguments are taken from the last one
    backwards until an absolute one is met, then the working directory. *)
Fixpoint resolve_collect (rev_args : list Str) (cwd : Str) (resolvedPath : Str)
  : Str * bool :=
  match rev_args with
  | [] =>
      if is_nil cwd then (resolvedPath, false)
      else (cwd ++ lit "/" ++ resolvedPath, isAbsolute cwd)
  | path :: rest =>
      if is_nil path then resolve_collect rest cwd resolvedPath
      else
        let resolvedPath' := path ++ lit "/" ++ resolvedPath in
        if isAbsolute path then (resolvedPath', true)
        else resolve_collect rest cwd resolvedPath'
  end.

Definition resolve_segments (cwd : Str) (args : list Str) : list Str * bool :=
  let '(resolvedPath, resolvedAbsolute) := resolve_collect (rev args) cwd [] in
  (normalize (negb resolvedAbsolute) (split "/"%char resolvedPath), resolvedAbsolute).

Definition resolve (cwd : Str) (args : list Str) : Str :=
  let '(segs, resolvedAbsolute) := resolve_segments cwd args in
  if resolvedAbsolute then lit "/" ++ join (lit "/") segs
  else if is_nil (join (lit "/") segs) then dot else join (lit "/") segs.

(** [path.sep] on POSIX. *)
Definition sep : Str := lit "/".

Section Sandbox.
  (** [process.cwd()] and [process.env.EVA_MCP_WORKSPACE]. *)
Variable cwd : Str.
Variable EVA_MCP_WORKSPACE : option Str.
  (** [stat(abs)] answering [isFile()], and [readFile(abs, "utf8")]. *)
Variable stat_isFile : Str -> Except bool.
Variable readFile : Str -> Except Str.

  (** [const base = resolve(root ?? process.env.EVA_MCP_WORKSPACE ?? process.cwd())] *)
Definition createSandbox_base (root : option Str) : Str :=
    resolve cwd [default (default cwd EVA_MCP_WORKSPACE) root].

Definition safeResolve (base : Str) (p : Str) : Except Str :=
    let abs := resolve cwd [base; p] in
    if negb (startsWith abs (base ++ sep)) && negb (bool_decide (abs = base))
    then Throw (lit "Path outside workspace")
    else Ok abs.

  (** The sandbox's [read]: the record [{ path, content }].  [stat_isFile]
      and [readFile] give what the file system answers for a path text,
      symbolic links followed as [stat] and [readFile] follow them; which
      file that is does not appear in the embedding, where only the path
      text is checked. *)
Definition sandbox_read (base : Str) (p : Str) : Except (Str * Str) :=
    ebind (safeResolve base p) (fun abs =>
    ebind (stat_isFile abs) (fun isFile =>
    if negb isFile then Throw (lit "Not a file")
    else ebind (readFile abs) (fun content => Ok (p, content)))).
End Sandbox.

(* ===================================================================== *)
(** ** src/server.ts *)
(* ===================================================================== *)

Definition opt_field (k : string) (v : option Json) : list (Str * Json) :=
  match v with
  | Some j => [(lit k, j)]
  | None => []
  end.

(** The objects handed to [JSON.stringify]; absent optional fields are left out. *)
Definition ToolDef_json (d : ToolDef) : Json :=
  JObj ([(lit "name", JStr (tool_name d))]
        ++ opt_field "description" (JStr <$> tool_description d)
        ++ opt_field "inputSchema" (tool_inputSchema d)).

Definition ToolResult_json (r : ToolResult) : Json :=
  JObj ([(lit "content",
           JArr (map (fun text => JObj [(lit "type", JStr (lit "text"));
                                        (lit "text", JStr text)]) (content r)))]
        ++ opt_field "isError" (JBool <$> isError r)).

Definition ResourceDef_json (d : ResourceDef) : Json :=
  JObj ([(lit "uri", JStr (res_uri d))]
        ++ opt_field "name" (JStr <$> res_name d)
        ++ opt_field "description" (JStr <$> res_description d)
        ++ opt_field "mimeType" (JStr <$> res_mimeType d)).

Definition ResourceContent_json (c : ResourceContent) : Json :=
  JObj ([(lit "uri", JStr (rc_uri c))]
        ++ opt_field "mimeType" (JStr <$> rc_mimeType c)
        ++ opt_field "text" (JStr <$> rc_text c)).

Definition PromptVar_json (v : PromptVar) : Json :=
  JObj ([(lit "name", JStr (var_name v))]
        ++ opt_field "description" (JStr <$> var_description v)
        ++ opt_field "required" (JBool <$> var_required v)).

Definition PromptDef_json (d : PromptDef) : Json :=
  JObj ([(lit "name", JStr (prompt_name d))]
        ++ opt_field "description" (JStr <$> prompt_description d)
        ++ opt_field "variables"
             ((fun vs => JArr (map PromptVar_json vs)) <$> prompt_variables d)).

(** The fields of [MCPServer] other than the transport and the shutdown
    flag: the registries as the constructor left them, and the options. *)
Record MCPServer : Type := mkServer {
  tools : ToolRegistry.t;
  resources : ResourceRegistry.t;
  prompts : PromptRegistry.t;
  serverName : option Str;
  serverVersion : option Str
}.

(** [req.method === name] *)
Definition is_method (req : Json) (name : string) : bool :=
  match prop "method" req with
  | Some (JStr m) => bool_decide (m = lit name)
  | _ => false
  end.

Section Server.
Variable JSON_parse : Str -> Json + Str.
Variable Number_toString : Z -> Str.
Variable primitive_member : Json -> Str -> Except Str.
  (** [new Date().toISOString()] *)
Variable now : Str.

Variable srv : MCPServer.

Definition send (resp : JSONRPCResponse) : Async unit :=
    FramedJSONRPC_write resp.

  (** [sendError]: [data] is attached only when it is truthy. *)
Definition sendError (id : Json) (code : Z) (message : Str) (data : option Json)
    : Async unit :=
    FramedJSONRPC_write
      (mkResponse id
         (Error code message (if truthy_opt data then data else None))).

Definition initialize_result : Json :=
    JObj [ (lit "protocolVersion", JStr (lit "2024-11-01"));
           (lit "serverInfo",
             JObj [ (lit "name", JStr (default (lit "eva-mcp") (serverName srv)));
                    (lit "version", JStr (default (lit "0.1.0") (serverVersion srv))) ]);
           (lit "capabilities",
             JObj [ (lit "tools",
                      JObj [ (lit "list", JBool true); (lit "call", JBool true) ]);
                    (lit "resources",
                      JObj [ (lit "list", JBool true); (lit "read", JBool true);
                             (lit "supportedSchemes", JArr [JStr (lit "file")]) ]);
                    (lit "prompts",
                      JObj [ (lit "list", JBool true); (lit "get", JBool true) ]) ]) ].

  (** [(req.params as any) ?? {}] *)
Definition params_of (req : Json) : Json :=
    nullish (prop "params" req) (JObj []).

  (** The [switch] of [handle].  The result is the value of [shuttingDown]
      after the case has run. *)
Definition handle_switch (shuttingDown : bool) (id : Json) (req : Json)
    : Async bool :=
    if is_method req "initialize" then
      await send (mkResponse id (Result initialize_result)) ;;
      ret shuttingDown
    else if is_method req "shutdown" then
      await send (mkResponse id (Result JNull)) ;;
      ret true
    else if is_method req "tools/list" then
      let tools := ToolRegistry.list (tools srv) in
      await send (mkResponse id
                    (Result (JObj [(lit "tools", JArr (map ToolDef_json tools))]))) ;;
      ret shuttingDown
    else if is_method req "tools/call" then
      let name := prop "name" (params_of req) in
      let args := prop "arguments" (params_of req) in
      name' <- await lift (JS_String_opt Number_toString name) ;;
      toolRes <- await lift (ToolRegistry.call now (tools srv) name' args) ;;
      await send (mkResponse id (Result (ToolResult_json toolRes))) ;;
      ret shuttingDown
    else if is_method req "resources/list" then
      let resources := ResourceRegistry.list (resources srv) in
      await send (mkResponse id
                    (Result (JObj [(lit "resources",
                                    JArr (map ResourceDef_json resources))]))) ;;
      ret shuttingDown
    else if is_method req "resources/read" then
      let uri := prop "uri" (params_of req) in
      if negb (truthy_opt uri) then throw (lit "uri required")
      else
        uri' <- await lift (JS_String_opt Number_toString uri) ;;
        res <- await lift (ResourceRegistry.read (resources srv) uri') ;;
        await send (mkResponse id (Result (ResourceContent_json res))) ;;
        ret shuttingDown
    else if is_method req "prompts/list" then
      let prompts := PromptRegistry.list (prompts srv) in
      await send (mkResponse id
                    (Result (JObj [(lit "prompts",
                                    JArr (map PromptDef_json prompts))]))) ;;
      ret shuttingDown
    else if is_method req "prompts/get" then
      let name := prop "name" (params_of req) in
      let variables := prop "variables" (params_of req) in
      if negb (truthy_opt name) then throw (lit "name required")
      else
        name' <- await lift (JS_String_opt Number_toString name) ;;
        p <- await lift (PromptRegistry.get Number_toString primitive_member
                           (prompts srv) name' (nullish variables (JObj []))) ;;
        await send (mkResponse id
          (Result (JObj [(lit "prompt",
             JObj [ (lit "name", JStr (fst p));
                    (lit "messages",
                      JArr [JObj [ (lit "role", JStr (lit "system"));
                                   (lit "content", JStr (snd p)) ]]) ])]))) ;;
        ret shuttingDown
    else
      await sendError id (-32601) (lit "Method not found")
              (Some (JObj (opt_field "method" (prop "method" req)))) ;;
      ret shuttingDown.

  (** [handle]: [const id = req.id ?? null], the switch, and the [catch]
      that turns a failure into a -32000 error response.  An assignment to
      [shuttingDown] made before a failure would stay; no case fails after
      assigning. *)
Definition handle (shuttingDown : bool) (req : Json) : Async bool :=
    let id := nullish (prop "id" req) JNull in
    try_catch (handle_switch shuttingDown id req)
      (fun message =>
         await sendError id (-32000)
                 (if is_nil message then lit "Server error" else message) None ;;
         ret shuttingDown).

  (** [run]: the loop reads a frame, answers it, and stops on an empty read
      or once [shuttingDown] is set.  Each turn that goes on took at least
      one byte from the world, which bounds the number of turns. *)
Fixpoint run_loop (fuel : nat) (shuttingDown : bool) : Async bool :=
    msg <- await FramedJSONRPC_read JSON_parse ;;
    if negb (truthy_opt msg) then ret shuttingDown
    else
      let msg := default JNull msg in
      if is_method msg "__internal_parse_error__" then
        await sendError JNull (-32700) (lit "Parse error") (prop "params" msg) ;;
        match fuel with
        | O => fun w => (Forever, w)
        | S fuel' => run_loop fuel' shuttingDown
        end
      else
        shuttingDown' <- await handle shuttingDown msg ;;
        if shuttingDown' then ret shuttingDown'
        else
          match fuel with
          | O => fun w => (Forever, w)
          | S fuel' => run_loop fuel' shuttingDown'
          end.

  (** [MCPServer.run], started with [shuttingDown = false]. *)
Definition run : Async bool := fun w => run_loop (world_size w) false w.
End Server.

(* ===================================================================== *)
(** ** src/runtime/tools.ts, prompts.ts, resources.ts and the constructor *)
(* ===================================================================== *)

Definition text_result (text : Str) : ToolResult := mkToolResult [text] None.

Section BuiltIns.
Variable Number_toString : Z -> Str.

  (** [(args as any)?.k] *)
Definition arg (k : string) (args : option Json) : option Json :=
    match args with
    | Some a => prop k a
    | None => None
    end.

Definition ping : ToolHandler := fun args _ =>
    let m := nullish (arg "message" args) (JStr (lit "pong")) in
    ebind (JS_String Number_toString m) (fun text => Ok (text_result text)).

Definition echo : ToolHandler := fun args _ =>
    let t := arg "text" args in
    ebind (JS_String Number_toString (nullish t (JStr []))) (fun text =>
    Ok (text_result text)).

Definition time : ToolHandler := fun _ now => Ok (text_result now).

Definition string_schema (k : string) (required : bool) : Json :=
    JObj ([ (lit "type", JStr (lit "object"));
            (lit "properties",
              JObj [(lit k, JObj [(lit "type", JStr (lit "string"))])]) ]
          ++ (if required then [(lit "required", JArr [JStr (lit k)])] else [])).

Definition registerBuiltInTools (reg : ToolRegistry.t) : ToolRegistry.t :=
    ToolRegistry.register
      (mkToolDef (lit "time") (Some (lit "Get server time"))
         (Some (JObj [ (lit "type", JStr (lit "object"));
                       (lit "properties", JObj []) ])))
      time
      (ToolRegistry.register
         (mkToolDef (lit "echo") (Some (lit "Echo text"))
            (Some (string_schema "text" true)))
         echo
         (ToolRegistry.register
            (mkToolDef (lit "ping") (Some (lit "Ping the server"))
               (Some (string_schema "message" false)))
            ping reg)).
End BuiltIns.

Definition registerPrompts (reg : PromptRegistry.t) : PromptRegistry.t :=
  PromptRegistry.register
    (mkPromptDef (lit "system-instructions")
       (Some (lit "System instructions with persona"))
       (Some [mkPromptVar (lit "persona") (Some (lit "assistant persona"))
                (Some false)]))
    (lit "You are a helpful assistant. Persona: {{persona}}")
    (PromptRegistry.register
       (mkPromptDef (lit "summarize") (Some (lit "Summarize a given text"))
          (Some [mkPromptVar (lit "text") (Some (lit "Input text")) (Some true)]))
       (lit "Summarize the following text:" ++ [LF; LF] ++ lit "{{text}}"
        ++ [LF; LF] ++ lit "Return a concise summary.")
       reg).

(** [s.replace(pattern, '')] for a string pattern: the first occurrence is
    removed. *)
Fixpoint remove_first (pattern : Str) (s : Str) : Str :=
  if startsWith s pattern then drop (length pattern) s
  else match s with
       | [] => []
       | c :: s' => c :: remove_first pattern s'
       end.

Section FileResources.
Variable cwd : Str.
Variable EVA_MCP_WORKSPACE : option Str.
Variable stat_isFile : Str -> Except bool.
Variable readFile : Str -> Except Str.
  (** The sandbox's [list(max)], with [max] as [registerFileResources]
      computes it; the directory walk is not represented. *)
Variable sandbox_list : Except (list Str).

Definition file_reader (root : option Str) : ResourceReader := fun uri =>
    let base := createSandbox_base cwd EVA_MCP_WORKSPACE root in
    if bool_decide (uri = lit "file:///") then
      ebind sandbox_list (fun items =>
      Ok (mkResourceContent uri (Some (lit "text/plain")) (Some (join [LF] items))))
    else
      let rel := remove_first (lit "file:///") uri in
      ebind (sandbox_read cwd stat_isFile readFile base rel) (fun r =>
      Ok (mkResourceContent uri (Some (lit "text/plain")) (Some (snd r)))).

Definition registerFileResources (root : option Str) (reg : ResourceRegistry.t)
    : ResourceRegistry.t :=
    ResourceRegistry.register
      (mkResourceDef (lit "file:///") (Some (lit "Workspace files"))
         (Some (lit "Files under workspace root")) (Some (lit "text/plain")))
      (file_reader root) reg.

  (** The registries as the constructor of [MCPServer] builds them: the
      built-ins first, then the registrations of the options. *)
Definition MCPServer_new (Number_toString : Z -> Str)
      (opt_tools : ToolRegistry.t -> ToolRegistry.t)
      (opt_resources : ResourceRegistry.t -> ResourceRegistry.t)
      (opt_prompts : PromptRegistry.t -> PromptRegistry.t)
      (serverName serverVersion : option Str) : MCPServer :=
    mkServer
      (opt_tools (registerBuiltInTools Number_toString ToolRegistry.empty))
      (opt_resources (registerFileResources None ResourceRegistry.empty))
      (opt_prompts (registerPrompts PromptRegistry.empty))
      serverName serverVersion.
End FileResources.

(* ===================================================================== *)
(** ** Instances of the platform parameters, used for concrete runs *)
(* ===================================================================== *)

Module Fragment.
  (** A reader for the fragment of JSON without fractions, exponents and
      \u escapes, with numbers that a JavaScript number holds exactly.  On
      this fragment it returns the value [JSON.parse] returns; for a text
      that [JSON.parse] refuses, its message stands for the one of the
      [SyntaxError], whose wording is the engine's. *)
Definition is_json_ws (c : ascii) : bool :=
    let n := nat_of_ascii c in
    (n =? 9) || (n =? 10) || (n =? 13) || (n =? 32).

Fixpoint skip_ws (s : Str) : Str :=
    match s with
    | c :: s' => if is_json_ws c then skip_ws s' else s
    | [] => []
    end.

Definition DQUOTE : ascii := "034"%char.

Definition unescape (c : ascii) : option ascii :=
    if bool_decide (c = DQUOTE) then Some DQUOTE
    else if bool_decide (c = "\"%char) then Some "\"%char
    else if bool_decide (c = "/"%char) then Some "/"%char
    else if bool_decide (c = "n"%char) then Some LF
    else if bool_decide (c = "r"%char) then Some CR
    else if bool_decide (c = "t"%char) then Some "009"%char
    else if bool_decide (c = "b"%char) then Some "008"%char
    else if bool_decide (c = "f"%char) then Some "012"%char
    else None.

  (** The characters of a string literal after its opening quote. *)
Fixpoint string_body (s : Str) : option (Str * Str) :=
    match s with
    | [] => None
    | c :: s' =>
        if bool_decide (c = DQUOTE) then Some ([], s')
        else if bool_decide (c = "\"%char) then
          match s' with
          | e :: s'' =>
              match unescape e, string_body s'' with
              | Some x, Some (body, r) => Some (x :: body, r)
              | _, _ => None
              end
          | [] => None
          end
        else if nat_of_ascii c <? 32 then None
        else match string_body s' with
             | Some (body, r) => Some (c :: body, r)
             | None => None
             end
    end.

Fixpoint span_digits (s : Str) : Str * Str :=
    match s with
    | c :: s' =>
        if is_digit c then let '(d, r) := span_digits s' in (c :: d, r)
        else ([], s)
    | [] => ([], [])
    end.

Definition number (s : Str) : option (Json * Str) :=
    let '(neg, s1) :=
      match s with
      | c :: s' => if bool_decide (c = "-"%char) then (true, s') else (false, s)
      | [] => (false, s)
      end in
    match span_digits s1 with
    | ([], _) => None
    | (d :: ds, r) =>
        if bool_decide (d = "0"%char) && negb (is_nil ds) then None
        else
          match r with
          | c :: _ =>
              if bool_decide (c = "."%char) || bool_decide (c = "e"%char)
                 || bool_decide (c = "E"%char)
              then None
              else
                let n := default 0%Z (digits_prefix None (d :: ds)) in
                Some (JNum (if neg then (- n)%Z else n), r)
          | [] =>
              let n := default 0%Z (digits_prefix None (d :: ds)) in
              Some (JNum (if neg then (- n)%Z else n), r)
          end
    end.

Fixpoint value (fuel : nat) (s : Str) : option (Json * Str) :=
    match fuel with
    | O => None
    | S fuel' =>
        let elements :=
          fix elements (n : nat) (acc : list Json) (s : Str) : option (Json * Str) :=
            match n with
            | O => None
            | S n' =>
                match value fuel' s with
                | Some (v, r) =>
                    match skip_ws r with
                    | c :: r' =>
                        if bool_decide (c = ","%char) then elements n' (acc ++ [v]) r'
                        else if bool_decide (c = "]"%char) then Some (JArr (acc ++ [v]), r')
                        else None
                    | [] => None
                    end
                | None => None
                end
            end in
        let members :=
          fix members (n : nat) (acc : list (Str * Json)) (s : Str)
            : option (Json * Str) :=
            match n with
            | O => None
            | S n' =>
                match skip_ws s with
                | q :: s1 =>
                    if bool_decide (q = DQUOTE) then
                      match string_body s1 with
                      | Some (k, s2) =>
                          match skip_ws s2 with
                          | c :: s3 =>
                              if bool_decide (c = ":"%char) then
                                match value fuel' s3 with
                                | Some (v, r) =>
                                    match skip_ws r with
                                    | d :: r' =>
                                        if bool_decide (d = ","%char)
                                        then members n' (Map_set k v acc) r'
                                        else if bool_decide (d = "}"%char)
                                        then Some (JObj (Map_set k v acc), r')
                                        else None
                                    | [] => None
                                    end
                                | None => None
                                end
                              else None
                          | [] => None
                          end
                      | None => None
                      end
                    else None
                | [] => None
                end
            end in
        match skip_ws s with
        | [] => None
        | c :: r =>
            if bool_decide (c = DQUOTE) then
              match string_body r with
              | Some (body, r') => Some (JStr body, r')
              | None => None
              end
            else if bool_decide (c = "["%char) then
              match skip_ws r with
              | c' :: r' =>
                  if bool_decide (c' = "]"%char) then Some (JArr [], r')
                  else elements (length r) [] r
              | [] => None
              end
            else if bool_decide (c = "{"%char) then
              match skip_ws r with
              | c' :: r' =>
                  if bool_decide (c' = "}"%char) then Some (JObj [], r')
                  else members (length r) [] r
              | [] => None
              end
            else if startsWith (c :: r) (lit "null") then Some (JNull, drop 4 (c :: r))
            else if startsWith (c :: r) (lit "true") then Some (JBool true, drop 4 (c :: r))
            else if startsWith (c :: r) (lit "false") then Some (JBool false, drop 5 (c :: r))
            else number (c :: r)
        end
    end.

Definition JSON_parse (s : Str) : Json + Str :=
    match value (S (length s)) s with
    | Some (v, r) =>
        if is_nil (skip_ws r) then inl v
        else inr (lit "Unexpected non-whitespace character after JSON")
    | None => inr (lit "Unexpected token in JSON")
    end.

  (** [JSON.stringify] on the same fragment, as the test helper [frame]
      uses it to build a message. *)
Definition escape (c : ascii) : Str :=
    if bool_decide (c = DQUOTE) then ["\"%char; DQUOTE]
    else if bool_decide (c = "\"%char) then ["\"%char; "\"%char]
    else if bool_decide (c = LF) then ["\"%char; "n"%char]
    else if bool_decide (c = CR) then ["\"%char; "r"%char]
    else if bool_decide (c = "009"%char) then ["\"%char; "t"%char]
    else [c].

Definition quote (s : Str) : Str := DQUOTE :: concat (map escape s) ++ [DQUOTE].

Definition integer (n : Z) : Str :=
    if (n <? 0)%Z then lit "-" ++ decimal (Z.to_nat (- n)) else decimal (Z.to_nat n).

Fixpoint JSON_stringify (v : Json) : Str :=
    match v with
    | JNull => lit "null"
    | JBool true => lit "true"
    | JBool false => lit "false"
    | JNum n => integer n
    | JStr s => quote s
    | JArr xs =>
        lit "[" ++ join (lit ",") (map JSON_stringify xs) ++ lit "]"
    | JObj fields =>
        lit "{"
        ++ join (lit ",")
             ((fix members (fields : list (Str * Json)) : list Str :=
                 match fields with
                 | [] => []
                 | (k, x) :: fields' =>
                     (quote k ++ lit ":" ++ JSON_stringify x) :: members fields'
                 end) fields)
        ++ lit "}"
    end.

  (** Decimal text of an integer, as [String(n)] gives it below 1e21. *)
Definition Number_toString (n : Z) : Str := integer n.

  (** [String(vars[k] ?? '')] for the variables named by the templates of
      [server] below, text and persona: an array, a string, a number or a
      boolean has no property of either name, and the replacement is the
      empty text.  (Other names, such as length, are not covered.) *)
Definition primitive_member (vars : Json) (k : Str) : Except Str := Ok [].

Definition now : Str := lit "2025-01-01T00:00:00.000Z".

  (** An empty workspace at the root of the file system. *)
Definition cwd : Str := lit "/workspace".
Definition stat_isFile (abs : Str) : Except bool :=
    Throw (lit "ENOENT: no such file or directory").
Definition readFile (abs : Str) : Except Str :=
    Throw (lit "ENOENT: no such file or directory").

  (** [new MCPServer({ inStream, outStream })] *)
Definition server : MCPServer :=
    MCPServer_new cwd None stat_isFile readFile (Ok []) Number_toString
      (fun reg => reg) (fun reg => reg) (fun reg => reg) None None.

Definition run : Async bool :=
    run JSON_parse Number_toString primitive_member now server.
End Fragment.

(** The helper [frame] of the test suite: one message on the wire. *)
Definition frame (body : Buffer) : Buffer :=
  lit "Content-Length: " ++ decimal (length body) ++ CRLF ++ CRLF ++ body.

(** A fresh stream on which nothing has happened yet. *)
Definition fresh_stream (objectMode : bool) : Readable :=
  mkReadable objectMode [] false false false.

Definition connect (objectMode : bool) (arrivals : list arrival) (timing : list nat)
  : World :=
  mkWorld (fresh_stream objectMode) arrivals timing [].

(* ===================================================================== *)
(** ** Vocabulary of the statements *)
(* ===================================================================== *)

(** The bytes that will still reach the stream: data pending after the close
    never does. *)
Fixpoint incoming (p : list arrival) : Buffer :=
  match p with
  | Data chunk :: p' => chunk ++ incoming p'
  | End :: _ | [] => []
  end.

(** Everything a reader can still obtain from the world, in order. *)
Definition remaining (w : World) : Buffer :=
  concat (buffer (stream w))
  ++ (if ended (stream w) then [] else incoming (pending w)).

(** The stream has been closed or its close is among the pending arrivals. *)
Definition will_close (w : World) : Prop :=
  ended (stream w) = true ∨ End ∈ pending w.

(** Consistency of the flags of a stream: 'end' is emitted, or queued, only
    once the input has ended, and emitted only with an empty buffer. *)
Record sane (s : Readable) : Prop := mkSane {
  sane_emitted : readableEnded s = true → ended s = true ∧ buffer s = [];
  sane_scheduled : endScheduled s = true → ended s = true
}.

(** The state of the world when the program is resumed: the next-tick queue
    has run. *)
Definition quiet (w : World) : Prop :=
  sane (stream w) ∧ endScheduled (stream w) = false.

(** The first line of a byte sequence, up to and including its first 0x0a,
    and what follows it. *)
Fixpoint cut_line (bs : Buffer) : option (Buffer * Buffer) :=
  match bs with
  | [] => None
  | c :: bs' =>
      if decide (c = LF) then Some ([c], bs')
      else match cut_line bs' with
           | Some (line, rest) => Some (c :: line, rest)
           | None => None
           end
  end.

(** The first [len] bytes, once that many are there. *)
Definition cut_bytes (len : Z) (bs : Buffer) : option (Buffer * Buffer) :=
  if (len <=? Z.of_nat (length bs))%Z
  then Some (take (Z.to_nat len) bs, drop (Z.to_nat len) bs)
  else None.

(** What [FramedJSONRPC.read] makes of a body. *)
Definition decode (JSON_parse : Str -> Json + Str) (body : Buffer) : Json :=
  match JSON_parse (toString body) with
  | inl req => req
  | inr message => parse_error_sentinel message
  end.

(** Successive calls of [read], each awaited before the next. *)
Fixpoint read_many (JSON_parse : Str -> Json + Str) (n : nat) (w : World)
  : list (Promise (option Json)) * World :=
  match n with
  | O => ([], w)
  | S n' =>
      let '(r, w') := FramedJSONRPC_read JSON_parse w in
      let '(rs, w'') := read_many JSON_parse n' w' in
      (r :: rs, w'')
  end.


(** The bytes a reader has accumulated are counted by [total]. *)
Definition acc_ok (st : Acc) : Prop := total st = length (concat (chunks st)).

(** The bytes a reader has accumulated. *)
Definition rep (st : Acc) : Buffer := concat (chunks st).

(** [w'] is what a settled reader leaves of [w], with [rest] still to be
    read from it. *)
Record left_of (w w' : World) (rest : Buffer) : Prop := mkLeft {
  left_remaining : remaining w' = rest;
  left_quiet : quiet w';
  left_written : written w' = written w;
  left_objectMode : objectMode (stream w') = objectMode (stream w);
  left_close : will_close w → will_close w'
}.

(** A complete line, as the value [readLine] resolves with. *)
Definition line_complete (bs : Buffer) : option (option Buffer * Buffer) :=
  match cut_line bs with
  | Some (line, rest) => Some (Some line, rest)
  | None => None
  end.

(** [Number.MAX_SAFE_INTEGER]: up to it a JavaScript number holds every
    integer exactly, so that [parseInt] gives the integer written. *)
Definition MAX_SAFE_INTEGER : Z := (2 ^ 53 - 1)%Z.

(** The number a digit sequence denotes, continuing from [a]. *)
Definition num (ds : Str) (a : Z) : Z :=
  fold_left (fun a c => (10 * a + digit_val c)%Z) ds a.

(** The first header line of [frame]. *)
Definition header_line (n : nat) : Str :=
  lit "Content-Length" ++ ":"%char :: " "%char :: decimal n ++ CRLF.


(** The world after one more frame has been written to the output. *)
Definition wrote (resp : JSONRPCResponse) (w : World) : World :=
  mkWorld (stream w) (pending w) (timing w) (written w ++ [resp]).

(** What the loop of [run] does after a message has been answered. *)
Definition loop_on (JSON_parse : Str -> Json + Str) (Number_toString : Z -> Str)
    (primitive_member : Json -> Str -> Except Str) (now : Str) (srv : MCPServer)
    (fuel : nat) (shuttingDown : bool) : Async bool :=
  if shuttingDown then ret shuttingDown
  else match fuel with
       | O => fun w => (Forever, w)
       | S fuel' =>
           run_loop JSON_parse Number_toString primitive_member now srv
             fuel' shuttingDown
       end.

Definition parse_error_response (params : option Json) : JSONRPCResponse :=
  mkResponse JNull
    (Error (-32700) (lit "Parse error") (if truthy_opt params then params else None)).

Definition tool_not_found (name : Str) : Json :=
  JObj [ (lit "content",
           JArr [JObj [ (lit "type", JStr (lit "text"));
                        (lit "text", JStr (lit "Tool not found: " ++ name)) ]]);
         (lit "isError", JBool true) ].

(** The messages of the test suite and of the examples below. *)
Module Scenario.
Definition request (id : option Json) (method : string) (extra : list (Str * Json))
    : Json :=
    JObj ([(lit "jsonrpc", JStr (lit "2.0"))]
          ++ opt_field "id" id
          ++ [(lit "method", JStr (lit method))]
          ++ extra).

Definition message (req : Json) : Buffer := frame (Fragment.JSON_stringify req).

Definition initialize1 : Json := request (Some (JNum 1)) "initialize" [].
Definition shutdown2 : Json := request (Some (JNum 2)) "shutdown" [].
Definition tools_list3 : Json := request (Some (JNum 3)) "tools/list" [].

  (** A notification: no [id]. *)
Definition notification : Json := request None "initialize" [].

  (** A request that names the transport's internal method. *)
Definition impostor : Json := request (Some (JNum 7)) "__internal_parse_error__" [].

  (** A call whose name is an object that [String] cannot convert. *)
Definition call_object : Json :=
    request (Some (JNum 1)) "tools/call"
      [(lit "params", JObj [ (lit "name", JObj [(lit "toString", JNull)]);
                             (lit "arguments", JObj []) ])].

Definition call_nope : Json :=
    request (Some (JNum 1)) "tools/call"
      [(lit "params", JObj [ (lit "name", JStr (lit "nope"));
                             (lit "arguments", JObj []) ])].

  (** A header block with a given [Content-Length] value, and a body. *)
Definition raw (length_value : string) (body : Buffer) : Buffer :=
    lit "Content-Length: " ++ lit length_value ++ CRLF ++ CRLF ++ body.

  (** A header block without [Content-Length]. *)
Definition no_length (body : Buffer) : Buffer :=
    lit "Content-Type: application/json" ++ CRLF ++ CRLF ++ body.

  (** Everything arrives in one chunk, then the stream is closed, all before
      the program first looks at the stream. *)
Definition at_once (bytes : Buffer) : World :=
    connect false [Data bytes; End] [2].
End Scenario.

(** Two registrations under the URI [mem://], as in the registry tests. *)
Module Mem.
Definition first : ResourceDef := mkResourceDef (lit "mem://") (Some (lit "a")) None None.
Definition second : ResourceDef := mkResourceDef (lit "mem://") (Some (lit "b")) None None.
Definition reader (tag : string) : ResourceReader := fun uri =>
    Ok (mkResourceContent uri (Some (lit "text/plain")) (Some (lit tag ++ uri))).
End Mem.

(** Templates, as the specification describes them: a name is a non-empty
    run of word characters, a placeholder is a name in double braces, and a
    text is plain when no placeholder occurs in it. *)
Definition is_name (k : Str) : Prop :=
  k ≠ [] ∧ Forall (fun c => is_word c = true) k.

Definition placeholder (k : Str) : Str := lit "{{" ++ k ++ lit "}}".

Definition plain (s : Str) : Prop :=
  ∀ pre k post, is_name k → s ≠ pre ++ placeholder k ++ post.

(** A template cut at its placeholders: each part is the plain text before
    a placeholder and the placeholder's name; [last] is the plain text after
    the last placeholder. *)
Fixpoint template (parts : list (Str * Str)) (last : Str) : Str :=
  match parts with
  | [] => last
  | (text, k) :: parts' => text ++ placeholder k ++ template parts' last
  end.

(** The text that stands for the variable [k]: its string coercion, or
    nothing when it is absent or null. *)
Definition variable_text (Number_toString : Z -> Str) (fields : list (Str * Json))
    (k : Str) : Except Str :=
  match assoc k fields with
  | Some JNull | None => Ok []
  | Some v => JS_String Number_toString v
  end.

Fixpoint rendered (Number_toString : Z -> Str) (fields : list (Str * Json))
    (parts : list (Str * Str)) (last : Str) : Except Str :=
  match parts with
  | [] => Ok last
  | (text, k) :: parts' =>
      ebind (variable_text Number_toString fields k) (fun v =>
      ebind (rendered Number_toString fields parts' last) (fun r =>
      Ok (text ++ v ++ r)))
  end.

(** A check that no placeholder occurs in a text. *)
Fixpoint no_placeholder (s : Str) : bool :=
  match s with
  | [] => true
  | _ :: s' =>
      match match_placeholder s with
      | Some _ => false
      | None => no_placeholder s'
      end
  end.

(** Paths: a segment is a non-empty name other than "." and ".." without a
    separator, and a normalized absolute path is "/" followed by its
    segments joined with "/". *)
Definition is_segment (seg : Str) : Prop :=
  seg ≠ [] ∧ seg ≠ dot ∧ seg ≠ dotdot ∧ "/"%char ∉ seg.

Definition absolute_path (segs : list Str) : Str := lit "/" ++ join (lit "/") segs.

(* ===================================================================== *)
(** ** Further vocabulary: header blocks, the wire format of [write],
       registries built by registration *)
(* ===================================================================== *)

(** A header line on the wire, and a header block: its lines and the blank
    line that ends it. *)
Definition header (name value : Str) : Str := name ++ ":"%char :: value ++ CRLF.

Definition header_block (hs : list (Str * Str)) : Str :=
  concat (map (fun h => header (fst h) (snd h)) hs) ++ CRLF.

(** A 7-bit character.  On text made of such characters the decoding of a
    buffer, [trim], [toLowerCase] and [parseInt] are what the definitions
    above say. *)
Definition is_ascii (c : ascii) : bool := nat_of_ascii c <? 128.

(** An ASCII header line: a name without colon and line feed, a value
    without line feed, 7-bit characters only.  The name __proto__ is left
    aside: assigning to it does not add a property to the object
    [headers]. *)
Definition well_formed_header (h : Str * Str) : Prop :=
  Forall (fun c => c ≠ ":"%char ∧ c ≠ LF) (fst h)
  ∧ Forall (fun c => c ≠ LF) (snd h)
  ∧ toLowerCase (trim (fst h)) ≠ lit "__proto__"
  ∧ Forall (fun c => is_ascii c = true) (fst h ++ snd h).

(** Checks that concrete header lines are well formed. *)
Ltac header_lines :=
  repeat (first [apply List.Forall_nil | apply List.Forall_cons]);
  unfold well_formed_header; cbn [fst snd];
  (split_and!;
   [ repeat constructor; discriminate
   | repeat constructor; discriminate
   | let H := fresh in intros H; vm_compute in H; discriminate
   | vm_compute; repeat constructor ]).

(** The headers as a map: names in lower case and trimmed, values trimmed,
    a later line replacing an earlier one of the same name. *)
Definition headers_of (hs : list (Str * Str)) : gmap Str Str :=
  fold_left (fun m h => <[toLowerCase (trim (fst h)) := trim (snd h)]> m) hs ∅.

(** The length that [FramedJSONRPC.read] makes of a header block:
    [lenStr ? parseInt(lenStr, 10) : NaN]. *)
Definition content_length (hs : list (Str * Str)) : option Z :=
  match headers_of hs !! lit "content-length" with
  | Some (c :: s) => parseInt (c :: s)
  | _ => None
  end.

(** The object literals that [send] and [sendError] hand to
    [FramedJSONRPC.write]. *)
Definition JSONRPCResponse_json (r : JSONRPCResponse) : Json :=
  JObj ([ (lit "jsonrpc", JStr (lit "2.0")); (lit "id", id r) ]
        ++ match payload r with
           | Result result => [(lit "result", result)]
           | Error code message data =>
               [(lit "error",
                  JObj ([ (lit "code", JNum code); (lit "message", JStr message) ]
                        ++ opt_field "data" data))]
           end).

Section write_chunks.
Variable JSON_stringify : Json -> Str.

  (** The two chunks that [FramedJSONRPC.write] passes to [output.write]:
      the header [`Content-Length: ${Buffer.byteLength(s, "utf8")}\r\n\r\n`]
      and the serialized object [s]. *)
Definition FramedJSONRPC_write_chunks (obj : JSONRPCResponse) : list Buffer :=
    let s := JSON_stringify (JSONRPCResponse_json obj) in
    let h := lit "Content-Length: " ++ decimal (length s) ++ CRLF ++ CRLF in
    [h; s].
End write_chunks.

(** The methods that [handle] knows. *)
Definition methods : list string :=
  [ "initialize"; "shutdown"; "tools/list"; "tools/call";
    "resources/list"; "resources/read"; "prompts/list"; "prompts/get" ]%string.

(** The error code of a response, if it is an error. *)
Definition error_code (resp : JSONRPCResponse) : option Z :=
  match payload resp with
  | Error code _ _ => Some code
  | Result _ => None
  end.

(** The identifier of the response to a message that [run] took from
    [read]. *)
Definition answered_id (msg : Json) : Json :=
  if is_method msg "__internal_parse_error__" then JNull
  else nullish (prop "id" msg) JNull.

(** The response to a handler failure. *)
Definition server_error (id : Json) (message : Str) : JSONRPCResponse :=
  mkResponse id
    (Error (-32000) (if is_nil message then lit "Server error" else message) None).

(** A request with given [params]. *)
Definition request_with (id : Json) (method : string) (params : list (Str * Json))
  : Json :=
  Scenario.request (Some id) method [(lit "params", JObj params)].

(** The registries after a sequence of registrations, the first one first. *)
Definition tools_of (regs : list (ToolDef * ToolHandler)) : ToolRegistry.t :=
  fold_left (fun reg r => ToolRegistry.register (fst r) (snd r) reg) regs
    ToolRegistry.empty.

Definition resources_of (regs : list (ResourceDef * ResourceReader))
  : ResourceRegistry.t :=
  fold_left (fun reg r => ResourceRegistry.register (fst r) (snd r) reg) regs
    ResourceRegistry.empty.

Definition prompts_of (regs : list (PromptDef * Str)) : PromptRegistry.t :=
  fold_left (fun reg r => PromptRegistry.register (fst r) (snd r) reg) regs
    PromptRegistry.empty.

(** The result of a tool that answers with one text part. *)
Definition text_content (text : Str) : Json :=
  JObj [(lit "content",
          JArr [JObj [(lit "type", JStr (lit "text")); (lit "text", JStr text)]])].

(** The result of "prompts/get". *)
Definition prompt_content (name content : Str) : Json :=
  JObj [(lit "prompt",
          JObj [ (lit "name", JStr name);
                 (lit "messages",
                   JArr [JObj [ (lit "role", JStr (lit "system"));
                                (lit "content", JStr content) ]]) ])].

(* ===================================================================== *)
(** ** src/util/sandbox.ts: [list] *)
(* ===================================================================== *)

(** What [readdir(dir, { withFileTypes: true })] reports for the entries of
    a directory: a regular file, a directory with the entries that the
    [readdir] of it reports in turn, or something that is neither (a link, a
    socket).  [readdir] is taken to succeed. *)
Inductive Dirent : Type :=
  | File (name : Str)
  | Directory (name : Str) (items : list Dirent)
  | Other (name : Str).

Definition dirent_name (it : Dirent) : Str :=
  match it with
  | File name | Directory name _ | Other name => name
  end.

Section walk_items.
  (** The limit [max] of [list], a natural number. *)
Variable max : nat.
  (** What the body of the loop does with an item once the limit has been
      checked. *)
Variable visit_item : Dirent -> list Str -> list Str.

  (** [for (const it of items) { if (out.length >= max) return; ... }] *)
Fixpoint walk_items (items : list Dirent) (out : list Str) : list Str :=
    match items with
    | [] => out
    | it :: items' =>
        if max <=? length out then out
        else walk_items items' (visit_item it out)
    end.
End walk_items.

Section SandboxList.
Variable cwd : Str.
Variable base : Str.
Variable max : nat.

  (** The body of the loop of [walk(dir)] for the item [it]; a directory is
      walked by the recursive call [walk(full)]. *)
Fixpoint visit (dir : Str) (it : Dirent) (out : list Str) : list Str :=
    let full := resolve cwd [dir; dirent_name it] in
    let rel := slice_from (length base + 1) full in
    match it with
    | Directory _ items => walk_items max (visit full) items out
    | File _ => out ++ [rel]
    | Other _ => out
    end.

  (** The sandbox's [list(max)]: [walk(base)] on an empty [out]. *)
Definition sandbox_list_walk (root_items : list Dirent) : list Str :=
    walk_items max (visit base) root_items [].
End SandboxList.

(** The regular files of a directory tree, depth first in the order of the
    entries, each as the names that lead to it. *)
Fixpoint files_of (it : Dirent) : list (list Str) :=
  match it with
  | File name => [[name]]
  | Directory name items => map (cons name) (concat (map files_of items))
  | Other _ => []
  end.

Definition files_in (items : list Dirent) : list (list Str) :=
  concat (map files_of items).

(** Every name in the tree is an ordinary segment. *)
Fixpoint well_named (it : Dirent) : Prop :=
  is_segment (dirent_name it)
  ∧ match it with
    | Directory _ items =>
        (fix all (items : list Dirent) : Prop :=
           match items with
           | [] => True
           | it' :: items' => well_named it' ∧ all items'
           end) items
    | _ => True
    end.

(** A promise that is not rejected, or is rejected with the message [e0]. *)
Definition rejects_only_with {A} (e0 : Str) (r : Promise A) : Prop :=
  match r with
  | Rejected e => e = e0
  | _ => True
  end.
(* ===================================================================== *)
(** ** The stream operations keep the flags consistent *)
(* ===================================================================== *)

Lemma sane_endReadable s : sane s → ended s = true → sane (endReadable s).
Proof.
  intros [H1 H2] He. unfold endReadable.
  destruct (readableEnded s) eqn:E; split; simpl; auto.
Qed.

Lemma stream_read_sane s r s' :
  stream_read s = (r, s') → sane s → sane s'.
Proof.
  unfold stream_read. intros H Hs.
  destruct (buffer s) as [|c cs] eqn:Hb.
  - destruct (ended s) eqn:He; simplify_eq; auto using sane_endReadable.
  - assert (Hre : readableEnded s = false).
    { destruct (readableEnded s) eqn:E; auto.
      destruct (sane_emitted _ Hs E) as [_ ?]. congruence. }
    assert (Hs' : ∀ b, sane (set_buffer b s)).
    { intros b. destruct Hs as [H1 H2].
      split; simpl; intros; try congruence; auto. }
    destruct (objectMode s); simpl in H.
    + destruct (ended s && is_nil cs) eqn:E; simplify_eq; auto.
      apply andb_prop in E as [He Hn]. apply sane_endReadable; auto.
    + destruct (ended s) eqn:He; simpl in H; simplify_eq; auto.
      apply sane_endReadable; auto.
Qed.

Lemma unshift_sane chunk s : sane s → sane (unshift chunk s).
Proof.
  intros Hs. unfold unshift.
  destruct (readableEnded s) eqn:E; auto.
  destruct (storable s chunk); auto.
  destruct Hs as [H1 H2]. split; simpl; auto. rewrite E. discriminate.
Qed.

Lemma unshift_rest_sane rest s : sane s → sane (unshift_rest rest s).
Proof. unfold unshift_rest. destruct (is_nil rest); auto using unshift_sane. Qed.

Lemma deliver_sane a s : sane s → sane (deliver a s).
Proof.
  intros Hs. destruct a as [chunk|]; simpl.
  - destruct (ended s) eqn:He; auto.
    destruct (storable s chunk); auto.
    destruct Hs as [H1 H2]. split; simpl; intros E.
    + destruct (H1 E). congruence.
    + apply H2 in E. congruence.
  - destruct Hs as [H1 H2]. split; simpl; auto.
    intros E. destruct (H1 E). auto.
Qed.

Lemma nextTick_sane s : sane s → sane (snd (nextTick s)).
Proof.
  intros Hs. unfold nextTick.
  destruct (endScheduled s) eqn:E; auto.
  pose proof (sane_scheduled _ Hs E) as He.
  destruct (negb (readableEnded s) && is_nil (buffer s)) eqn:E2; simpl.
  - apply andb_prop in E2 as [_ Hn]. destruct (buffer s); [|discriminate].
    split; simpl; intros; try congruence; auto.
  - destruct Hs as [H1 H2]. split; simpl; intros; try congruence; auto.
Qed.

Lemma nextTick_quiet s : endScheduled (snd (nextTick s)) = false.
Proof.
  unfold nextTick. destruct (endScheduled s) eqn:E; auto.
  destruct (negb (readableEnded s) && is_nil (buffer s)); reflexivity.
Qed.

Lemma nextTick_buffer s : buffer (snd (nextTick s)) = buffer s.
Proof.
  unfold nextTick. destruct (endScheduled s); auto.
  destruct (negb (readableEnded s) && is_nil (buffer s)); reflexivity.
Qed.

Lemma nextTick_ended s : ended (snd (nextTick s)) = ended s.
Proof.
  unfold nextTick. destruct (endScheduled s); auto.
  destruct (negb (readableEnded s) && is_nil (buffer s)); reflexivity.
Qed.

Lemma nextTick_objectMode s : objectMode (snd (nextTick s)) = objectMode s.
Proof.
  unfold nextTick. destruct (endScheduled s); auto.
  destruct (negb (readableEnded s) && is_nil (buffer s)); reflexivity.
Qed.

(** Arrivals change neither what remains to be read nor whether the stream
    closes. *)
Lemma deliver_n_spec n : ∀ p s p' s',
  deliver_n n p s = (p', s') →
  sane s →
  sane s'
  ∧ objectMode s' = objectMode s
  ∧ readableEnded s' = readableEnded s
  ∧ endScheduled s' = endScheduled s
  ∧ concat (buffer s') ++ (if ended s' then [] else incoming p')
    = concat (buffer s) ++ (if ended s then [] else incoming p)
  ∧ (ended s = true ∨ End ∈ p → ended s' = true ∨ End ∈ p')
  ∧ (ended s = true → ended s' = true)
  ∧ length p' ≤ length p
  ∧ (∃ more, buffer s' = buffer s ++ more).
Proof.
  induction n as [|n IH]; intros p s p' s' H Hs.
  - simpl in H. destruct p; simplify_eq; split_and!; auto; exists []; by rewrite app_nil_r.
  - destruct p as [|a p]; simpl in H.
    { simplify_eq. split_and!; auto. exists []; by rewrite app_nil_r. }
    apply IH in H; [|by apply deliver_sane].
    destruct H as (H1 & H2 & H3 & H4 & H5 & H6 & H7 & H8 & more & H9).
    split; [done|]. rewrite H2, H3, H4, H5. clear IH H5.
    assert (Hin : ∀ x, End ∈ Data x :: p → End ∈ p).
    { intros x Hx. apply elem_of_cons in Hx as [?|?]; done. }
    destruct a as [chunk|]; simpl in *.
    + destruct (ended s) eqn:He; rewrite ?He in *.
      { split_and!; eauto. }
      destruct (storable s chunk) eqn:Est; simpl in *; rewrite ?He in *.
      * split_and!; try done; try lia.
        -- rewrite concat_app. simpl. by rewrite app_nil_r, <- app_assoc.
        -- intros [?|?]; [done|]. apply H6. right. eauto.
        -- rewrite H9, <- app_assoc. eauto.
      * unfold storable in Est. apply orb_false_elim in Est as [_ Est].
        destruct chunk; [|discriminate].
        split_and!; try done; try lia; eauto.
        intros [?|?]; [done|]. apply H6. right. eauto.
    + split_and!; try done; try lia; eauto.
      destruct (ended s); simpl; by rewrite ?app_nil_r.
Qed.

(* ===================================================================== *)
(** ** Arrivals, seen from the program *)
(* ===================================================================== *)

Lemma set_stream_same w : set_stream (stream w) w = w.
Proof. by destruct w. Qed.

Lemma deliver_n_shorter n a p s :
  length (fst (deliver_n (S n) (a :: p) s)) < length (a :: p).
Proof.
  simpl. destruct (deliver_n n p (deliver a s)) as [p' s'] eqn:E.
  revert p s a E. induction n as [|n IH]; intros p s a E; simpl in *.
  - destruct p; simplify_eq; simpl; lia.
  - destruct p as [|b p]; simplify_eq; simpl in *; [lia|].
    apply IH in E. lia.
Qed.

Lemma interleave_spec w :
  quiet w →
  quiet (interleave w)
  ∧ remaining (interleave w) = remaining w
  ∧ written (interleave w) = written w
  ∧ objectMode (stream (interleave w)) = objectMode (stream w)
  ∧ readableEnded (stream (interleave w)) = readableEnded (stream w)
  ∧ (will_close w → will_close (interleave w))
  ∧ length (pending (interleave w)) ≤ length (pending w).
Proof.
  intros [Hs Hq]. unfold interleave.
  destruct (deliver_n (hd 0 (timing w)) (pending w) (stream w)) as [p s] eqn:E.
  apply deliver_n_spec in E as (H1 & H2 & H3 & H4 & H5 & H6 & H7 & H8 & _); [|done].
  unfold quiet, remaining, will_close; simpl.
  split_and!; try done; congruence.
Qed.

Lemma arrive_none w : pending w = [] → arrive w = None.
Proof. unfold arrive. by intros ->. Qed.

Lemma arrive_spec w :
  pending w ≠ [] → sane (stream w) →
  ∃ changed w1,
    arrive w = Some (changed, w1)
    ∧ sane (stream w1)
    ∧ objectMode (stream w1) = objectMode (stream w)
    ∧ readableEnded (stream w1) = readableEnded (stream w)
    ∧ endScheduled (stream w1) = endScheduled (stream w)
    ∧ remaining w1 = remaining w
    ∧ written w1 = written w
    ∧ (will_close w → will_close w1)
    ∧ length (pending w1) < length (pending w)
    ∧ (changed = false → buffer (stream w) = [] → ended (stream w) = false →
       buffer (stream w1) = [] ∧ ended (stream w1) = false).
Proof.
  intros Hp Hs. unfold arrive.
  destruct (pending w) as [|a p] eqn:Ep; [done|].
  pose proof (deliver_n_shorter (hd 0 (timing w)) a p (stream w)) as Hlen.
  destruct (deliver_n (S (hd 0 (timing w))) (a :: p) (stream w)) as [p' s'] eqn:E.
  apply deliver_n_spec in E as (H1 & H2 & H3 & H4 & H5 & H6 & H7 & H8 & more & H9); [|done].
  eexists _, _. split; [reflexivity|].
  unfold remaining, will_close; simpl. rewrite Ep.
  split_and!; try done.
  intros Hc Hb He. rewrite Hb, He in *. simpl in *.
  apply orb_false_elim in Hc as [Hc1 Hc2].
  apply negb_false_iff, Nat.eqb_eq in Hc1.
  rewrite andb_true_r in Hc2.
  split; [by destruct (buffer s')|done].
Qed.

(* ===================================================================== *)
(** ** A promise with 'readable' and 'end' listeners *)
(* ===================================================================== *)

Lemma left_of_via w0 w1 w' rest :
  left_of w1 w' rest →
  written w1 = written w0 →
  objectMode (stream w1) = objectMode (stream w0) →
  (will_close w0 → will_close w1) →
  left_of w0 w' rest.
Proof.
  intros [H1 H2 H3 H4 H5] Hw Hom Hc. split; auto; congruence.
Qed.

Section reader.
Context {A : Type}.
Variable L : Listeners A Acc.
  (** When the accumulated bytes are enough: the value and the excess. *)
Variable complete : Buffer → option (A * Buffer).
  (** How the promise settles when the input ends too early. *)
Variable at_end : Promise A.

Hypothesis complete_nil : complete [] = None.

Hypothesis complete_app : ∀ x y a r,
    complete x = Some (a, r) → complete (x ++ y) = Some (a, r ++ y).

Hypothesis readable_spec : ∀ st s,
    acc_ok st → complete (rep st) = None →
    sane s → readableEnded s = false → endScheduled s = false →
    match complete (rep st ++ concat (buffer s)) with
    | Some (a, rest) =>
        ∃ s', on_readable L st s = Settle (Fulfilled a) s'
              ∧ concat (buffer s') = rest
              ∧ objectMode s' = objectMode s
              ∧ ended s' = ended s
              ∧ sane s'
    | None =>
        ∃ st', on_readable L st s
               = Wait st' (mkReadable (objectMode s) [] (ended s) (ended s) false)
               ∧ acc_ok st'
               ∧ rep st' = rep st ++ concat (buffer s)
    end.

Hypothesis end_spec : ∀ st s,
    acc_ok st → complete (rep st) = None → on_end L st s = Settle at_end s.

Lemma settled_left (a : Promise A) s w0 w rest :
    sane s →
    objectMode s = objectMode (stream w0) →
    written w = written w0 →
    (will_close w0 → ended s = true ∨ End ∈ pending w) →
    concat (buffer s) ++ (if ended s then [] else incoming (pending w)) = rest →
    ∃ w', settled a s w = (a, w') ∧ left_of w0 w' rest.
Proof.
    intros Hs Hom Hw Hc Hr. eexists. split; [reflexivity|].
    split; unfold remaining, quiet, will_close; simpl.
    - by rewrite nextTick_buffer, nextTick_ended.
    - split; [by apply nextTick_sane|apply nextTick_quiet].
    - done.
    - by rewrite nextTick_objectMode.
    - by rewrite nextTick_ended.
Qed.

Lemma await_events_spec fuel : ∀ st w,
    length (pending w) < fuel →
    acc_ok st → complete (rep st) = None →
    sane (stream w) → readableEnded (stream w) = false →
    buffer (stream w) = [] → endScheduled (stream w) = ended (stream w) →
    match complete (rep st ++ remaining w) with
    | Some (a, rest) =>
        ∃ w', await_events L fuel st w = (Fulfilled a, w') ∧ left_of w w' rest
    | None =>
        will_close w →
        ∃ w', await_events L fuel st w = (at_end, w') ∧ left_of w w' []
    end.
Proof.
    induction fuel as [|fuel IH]; intros st w Hfuel Hacc Hinc Hs Hre Hb Hsched; [lia|].
    simpl. unfold nextTick. rewrite Hsched, Hre, Hb. simpl.
    destruct (ended (stream w)) eqn:He.
    - (* 'end' is emitted *)
      rewrite (end_spec st _ Hacc Hinc).
      assert (Hrem : remaining w = []).
      { unfold remaining. by rewrite Hb, He. }
      rewrite Hrem, app_nil_r, Hinc. intros _.
      apply settled_left; simpl; auto.
      split; simpl; intros; try congruence; auto.
    - (* the next arrivals *)
      assert (Hsame : set_stream (stream w) w = w) by apply set_stream_same.
      destruct (pending w) as [|a p] eqn:Ep.
      { assert (Hrem : remaining w = []).
        { unfold remaining. by rewrite Hb, He, Ep. }
        rewrite Hrem, app_nil_r, Hinc.
        intros [?|Hin]; [congruence|]. rewrite Ep in Hin. by apply elem_of_nil in Hin. }
      destruct (arrive_spec w) as (changed & w1 & Ha & Hs1 & Hom1 & Hre1 & Hsc1
                                   & Hrem1 & Hw1 & Hc1 & Hlen1 & Hquiet1);
        [by rewrite Ep|done|].
      rewrite Ep in Hlen1.
      replace (mkReadable (objectMode (stream w)) [] false false false)
        with (stream w) in *.
      2:{ destruct (stream w); simpl in *; congruence. }
      rewrite Hsame, Ha. rewrite <- Hrem1.
      destruct changed.
      + (* 'readable' *)
        pose proof (readable_spec st (stream w1) Hacc Hinc Hs1) as Hr.
        rewrite Hre1, Hsc1, Hsched in Hr. specialize (Hr Hre eq_refl).
        unfold remaining. rewrite app_assoc.
        destruct (complete (rep st ++ concat (buffer (stream w1))))
          as [[a0 rest0]|] eqn:Ec.
        * destruct Hr as (s' & -> & Hbuf & Hom & Hen & Hs').
          rewrite (complete_app _ _ _ _ Ec).
          destruct (settled_left (Fulfilled a0) s' w w1
                      (rest0 ++ (if ended (stream w1) then [] else incoming (pending w1))))
            as (w' & -> & Hl); auto; try congruence.
          { intros Hc. rewrite Hen. by apply Hc1. }
          { by rewrite Hbuf, Hen. }
          eauto.
        * destruct Hr as (st' & -> & Hacc' & Hrep').
          specialize (IH st'
            (set_stream (mkReadable (objectMode (stream w1)) []
                           (ended (stream w1)) (ended (stream w1)) false) w1)).
          simpl in IH. unfold remaining in IH. simpl in IH.
          rewrite Hrep', <- app_assoc in IH. rewrite <- app_assoc.
          assert (Hinc' : complete (rep st') = None) by by rewrite Hrep'.
          rewrite Hrep' in Hinc'.
          assert (Hsane' : sane (mkReadable (objectMode (stream w1)) []
                                   (ended (stream w1)) (ended (stream w1)) false)).
          { split; simpl; intros; try congruence; auto. }
          specialize (IH ltac:(lia) Hacc' Hinc' Hsane' eq_refl eq_refl eq_refl).
          destruct (complete (rep st ++ concat (buffer (stream w1))
                              ++ (if ended (stream w1) then [] else incoming (pending w1))))
            as [[a0 rest0]|] eqn:Ec2.
          -- destruct IH as (w' & -> & Hl).
             exists w'. split; [done|].
             eapply left_of_via; [exact Hl|simpl; congruence..|exact Hc1].
          -- intros Hc. destruct IH as (w' & -> & Hl); [exact (Hc1 Hc)|].
             exists w'. split; [done|].
             eapply left_of_via; [exact Hl|simpl; congruence..|exact Hc1].
      + (* nothing changed: keep waiting *)
        destruct (Hquiet1 eq_refl Hb He) as [Hb1 He1].
        specialize (IH st w1 ltac:(lia) Hacc Hinc Hs1 ltac:(congruence) Hb1
                      ltac:(congruence)).
        destruct (complete (rep st ++ remaining w1)) as [[a0 rest0]|] eqn:Ec.
        * destruct IH as (w' & -> & Hl). exists w'. split; [done|].
          eapply left_of_via; [exact Hl|simpl; congruence..|exact Hc1].
        * intros Hc. destruct IH as (w' & -> & Hl); auto.
          exists w'. split; [done|].
          eapply left_of_via; [exact Hl|simpl; congruence..|exact Hc1].
Qed.

  (** A reader started on a resumed program: it is fulfilled with the first
      complete value of the remaining input and leaves the excess; if the
      input closes before that, it settles as [onEnd] says. *)
Hypothesis start_ended : ∀ w,
    quiet w → readableEnded (stream (interleave w)) = true →
    ∃ w', listen L (mkAcc [] 0) w = (at_end, w') ∧ left_of w w' [].

Lemma listen_spec w :
    quiet w →
    match complete (remaining w) with
    | Some (a, rest) =>
        ∃ w', listen L (mkAcc [] 0) w = (Fulfilled a, w') ∧ left_of w w' rest
    | None =>
        will_close w →
        ∃ w', listen L (mkAcc [] 0) w = (at_end, w') ∧ left_of w w' []
    end.
Proof.
    intros Hq.
    destruct (interleave_spec w Hq) as ([Hs1 Hq1] & Hrem1 & Hw1 & Hom1 & Hre1 & Hc1 & _).
    destruct (readableEnded (stream (interleave w))) eqn:Hre.
    { destruct (start_ended w Hq Hre) as (w' & Hl & Hleft).
      destruct (sane_emitted _ Hs1 Hre) as [He Hb].
      assert (Hrem : remaining w = []).
      { rewrite <- Hrem1. unfold remaining. by rewrite Hb, He. }
      rewrite Hrem, complete_nil. eauto. }
    unfold listen.
    pose proof (readable_spec (mkAcc [] 0) (stream (interleave w))
                  eq_refl complete_nil Hs1 Hre Hq1) as Hr.
    simpl in Hr. rewrite <- Hrem1. unfold remaining.
    destruct (complete (concat (buffer (stream (interleave w)))))
      as [[a0 rest0]|] eqn:Ec.
    - destruct Hr as (s' & -> & Hbuf & Hom & Hen & Hs').
      rewrite (complete_app _ _ _ _ Ec).
      destruct (settled_left (Fulfilled a0) s' w (interleave w)
                  (rest0 ++ (if ended (stream (interleave w)) then []
                             else incoming (pending (interleave w)))))
        as (w' & -> & Hl); auto; try congruence.
      { intros Hc. rewrite Hen. by apply Hc1. }
      { by rewrite Hbuf, Hen. }
      eauto.
    - destruct Hr as (st' & -> & Hacc' & Hrep'). cbn [readableEnded].
      pose proof (await_events_spec (S (length (pending (interleave w)))) st'
        (set_stream (mkReadable (objectMode (stream (interleave w))) []
                       (ended (stream (interleave w)))
                       (ended (stream (interleave w))) false) (interleave w))) as Hev.
      unfold remaining in Hev.
      cbn [stream set_stream pending buffer ended endScheduled readableEnded
           objectMode concat app] in Hev.
      rewrite Hrep' in Hev.
      assert (Hsane' : sane (mkReadable (objectMode (stream (interleave w))) []
                               (ended (stream (interleave w)))
                               (ended (stream (interleave w))) false)).
      { split; simpl; intros; try congruence; auto. }
      specialize (Hev ltac:(lia) Hacc' Ec Hsane' eq_refl eq_refl eq_refl).
      destruct (complete (concat (buffer (stream (interleave w)))
                          ++ (if ended (stream (interleave w)) then []
                              else incoming (pending (interleave w)))))
        as [[a0 rest0]|] eqn:Ec2.
      + destruct Hev as (w' & -> & Hl).
        exists w'. split; [done|].
        eapply left_of_via; [exact Hl|simpl; congruence..|exact Hc1].
      + intros Hc. destruct Hev as (w' & -> & Hl); [exact (Hc1 Hc)|].
        exists w'. split; [done|].
        eapply left_of_via; [exact Hl|simpl; congruence..|exact Hc1].
Qed.
End reader.

(* ===================================================================== *)
(** ** readLine and readBytes as instances *)
(* ===================================================================== *)

Lemma cut_line_app x y line rest :
  cut_line x = Some (line, rest) → cut_line (x ++ y) = Some (line, rest ++ y).
Proof.
  revert line rest. induction x as [|c x IH]; intros line rest H; [done|].
  simpl in *. destruct (decide (c = LF)); [by simplify_eq|].
  destruct (cut_line x) as [[l r]|]; [|done]. simplify_eq.
  by rewrite (IH _ _ eq_refl).
Qed.

Lemma cut_line_split bs line rest :
  cut_line bs = Some (line, rest) → bs = line ++ rest ∧ 0 < length line.
Proof.
  revert line rest. induction bs as [|c bs IH]; intros line rest H; [done|].
  simpl in H. destruct (decide (c = LF)).
  - simplify_eq. simpl. split; [done|lia].
  - destruct (cut_line bs) as [[l r]|]; [|done]. simplify_eq.
    destruct (IH _ _ eq_refl) as [-> _]. simpl. split; [done|lia].
Qed.

Lemma indexOf_cut_some c i y :
  indexOf LF c = Some i →
  cut_line (c ++ y) = Some (take (i + 1) c, drop (i + 1) c ++ y).
Proof.
  revert i. induction c as [|x c IH]; intros i H; [done|].
  simpl in *. destruct (decide (x = LF)).
  - simplify_eq. done.
  - destruct (indexOf LF c) as [j|]; [|done]. simpl in H. simplify_eq.
    by rewrite (IH _ eq_refl).
Qed.

Lemma indexOf_cut_none c y :
  indexOf LF c = None →
  cut_line (c ++ y)
  = match cut_line y with
    | Some (line, rest) => Some (c ++ line, rest)
    | None => None
    end.
Proof.
  induction c as [|x c IH]; intros H; simpl in *.
  - by destruct (cut_line y) as [[??]|].
  - destruct (decide (x = LF)); [done|].
    destruct (indexOf LF c); [done|]. rewrite (IH eq_refl).
    by destruct (cut_line y) as [[??]|].
Qed.

Lemma scan_newline_cut cs : ∀ offset,
  scan_newline cs offset
  = match cut_line (concat cs) with
    | Some (line, _) => Some (offset + length line)
    | None => None
    end.
Proof.
  induction cs as [|c cs IH]; intros offset; [done|].
  simpl. destruct (indexOf LF c) as [i|] eqn:E.
  - rewrite (indexOf_cut_some _ _ _ E).
    assert (i < length c).
    { clear -E. revert i E. induction c as [|x c IH]; intros i E; [done|].
      simpl in *. destruct (decide (x = LF)); simplify_eq; [lia|].
      destruct (indexOf LF c); [|done]. simpl in E. simplify_eq.
      specialize (IH _ eq_refl). lia. }
    rewrite length_take. f_equal. lia.
  - rewrite (indexOf_cut_none _ _ E), IH.
    destruct (cut_line (concat cs)) as [[l r]|]; [|done].
    rewrite length_app. f_equal. lia.
Qed.

Lemma Buffer_concat_ok st : acc_ok st → Buffer_concat (chunks st) (total st) = rep st.
Proof.
  unfold acc_ok, Buffer_concat, rep. intros ->.
  rewrite Nat.sub_diag. simpl. rewrite app_nil_r. by rewrite firstn_all.
Qed.

Lemma acc_push_ok chunk st : acc_ok st → acc_ok (acc_push chunk st).
Proof.
  unfold acc_ok, acc_push. simpl. intros ->.
  rewrite concat_app, length_app. simpl. by rewrite app_nil_r.
Qed.

Lemma rep_push chunk st : rep (acc_push chunk st) = rep st ++ chunk.
Proof. unfold rep, acc_push. simpl. rewrite concat_app. simpl. by rewrite app_nil_r. Qed.

Lemma readLine_tryResolve_cut st s :
  acc_ok st →
  readLine_tryResolve st s
  = match cut_line (rep st) with
    | Some (line, rest) => Some (line, unshift_rest rest s)
    | None => None
    end.
Proof.
  intros Hacc. unfold readLine_tryResolve.
  rewrite scan_newline_cut, (Buffer_concat_ok _ Hacc). fold (rep st).
  destruct (cut_line (rep st)) as [[line rest]|] eqn:E; [|done].
  apply cut_line_split in E as [E _]. simpl.
  unfold slice, slice_from. rewrite E, Nat.sub_0_r. simpl.
  rewrite drop_0. by rewrite take_app_length, drop_app_length.
Qed.

(** What one [stream.read()] hands out and leaves. *)
Lemma stream_read_cons s c cs :
  buffer s = c :: cs → sane s → readableEnded s = false →
  ∃ chunk s',
    stream_read s = (Some chunk, s')
    ∧ chunk ++ concat (buffer s') = concat (buffer s)
    ∧ length (buffer s') < length (buffer s)
    ∧ objectMode s' = objectMode s ∧ ended s' = ended s
    ∧ readableEnded s' = false ∧ sane s'.
Proof.
  intros Hb Hs Hre.
  destruct (stream_read s) as [r s'] eqn:E.
  pose proof (stream_read_sane _ _ _ E Hs) as Hs'.
  unfold stream_read in E. rewrite Hb in E.
  assert (Hend : ∀ x, readableEnded x = false →
            objectMode (endReadable x) = objectMode x
            ∧ buffer (endReadable x) = buffer x
            ∧ ended (endReadable x) = ended x
            ∧ readableEnded (endReadable x) = false).
  { intros x Hx. unfold endReadable. rewrite Hx. by simpl. }
  destruct (objectMode s) eqn:Hom; simpl in E.
  - destruct (ended s && is_nil cs); simplify_eq; eexists _, _;
      (split; [reflexivity|]).
    + destruct (Hend (set_buffer cs s) Hre) as (-> & -> & -> & ->).
      rewrite Hb. simpl. split_and!; auto.
    + rewrite Hb. simpl. split_and!; auto.
  - destruct (ended s) eqn:He; simpl in E; simplify_eq; eexists _, _;
      (split; [reflexivity|]).
    + destruct (Hend (set_buffer [] s) Hre) as (-> & -> & -> & ->).
      rewrite Hb. simpl. rewrite app_nil_r. split_and!; auto. lia.
    + rewrite Hb. simpl. rewrite app_nil_r. split_and!; auto. lia.
Qed.

Lemma stream_read_nil s :
  buffer s = [] → sane s → readableEnded s = false →
  stream_read s
  = (None, mkReadable (objectMode s) [] (ended s) (ended s) false).
Proof.
  intros Hb Hs Hre. unfold stream_read. rewrite Hb.
  destruct s as [om b e sc re]. simpl in *. subst.
  destruct e; unfold endReadable; simpl; [done|].
  destruct sc; [|done]. by pose proof (sane_scheduled _ Hs eq_refl).
Qed.

Lemma unshift_rest_spec rest s :
  readableEnded s = false →
  concat (buffer (unshift_rest rest s)) = rest ++ concat (buffer s)
  ∧ objectMode (unshift_rest rest s) = objectMode s
  ∧ ended (unshift_rest rest s) = ended s.
Proof.
  intros Hre. unfold unshift_rest, unshift, storable. rewrite Hre.
  destruct rest as [|c rest]; simpl; [done|].
  rewrite orb_true_r. simpl. done.
Qed.

Lemma readLine_drain_spec fuel : ∀ st s,
  length (buffer s) ≤ fuel →
  acc_ok st → line_complete (rep st) = None →
  sane s → readableEnded s = false →
  match line_complete (rep st ++ concat (buffer s)) with
  | Some (a, rest) =>
      ∃ s', readLine_drain fuel st s = Settle (Fulfilled a) s'
            ∧ concat (buffer s') = rest
            ∧ objectMode s' = objectMode s
            ∧ ended s' = ended s
            ∧ sane s'
  | None =>
      ∃ st', readLine_drain fuel st s
             = Wait st' (mkReadable (objectMode s) [] (ended s) (ended s) false)
             ∧ acc_ok st'
             ∧ rep st' = rep st ++ concat (buffer s)
  end.
Proof.
  unfold line_complete.
  induction fuel as [|fuel IH]; intros st s Hfuel Hacc Hinc Hs Hre.
  - destruct (buffer s) as [|c cs] eqn:Hb; [|simpl in Hfuel; lia].
    simpl. rewrite app_nil_r. rewrite (stream_read_nil s Hb Hs Hre).
    destruct (cut_line (rep st)) as [[??]|]; [done|]. eauto.
  - destruct (buffer s) as [|c cs] eqn:Hb.
    + simpl. rewrite app_nil_r. rewrite (stream_read_nil s Hb Hs Hre).
      destruct (cut_line (rep st)) as [[??]|]; [done|]. eauto.
    + destruct (stream_read_cons s c cs Hb Hs Hre)
        as (chunk & s1 & Hrd & Hcat & Hlen & Hom & Hen & Hre1 & Hs1).
      rewrite <- Hb, <- Hcat. simpl. rewrite Hrd.
      rewrite (readLine_tryResolve_cut _ _ (acc_push_ok chunk st Hacc)), rep_push.
      rewrite app_assoc.
      destruct (cut_line (rep st ++ chunk)) as [[line rest]|] eqn:Ec.
      * rewrite (cut_line_app _ _ _ _ Ec).
        destruct (unshift_rest_spec rest s1 Hre1) as (H1 & H2 & H3).
        eexists. split; [reflexivity|].
        split_and!; try congruence. by apply unshift_rest_sane.
      * specialize (IH (acc_push chunk st) s1).
        rewrite rep_push, Ec in IH.
        rewrite Hb in Hlen. simpl in Hlen, Hfuel.
        specialize (IH ltac:(lia) (acc_push_ok chunk st Hacc) eq_refl Hs1 Hre1).
        rewrite Hom, Hen in IH. exact IH.
Qed.

Lemma readLine_readable_spec st s :
  acc_ok st → line_complete (rep st) = None →
  sane s → readableEnded s = false → endScheduled s = false →
  match line_complete (rep st ++ concat (buffer s)) with
  | Some (a, rest) =>
      ∃ s', on_readable readLine_listeners st s = Settle (Fulfilled a) s'
            ∧ concat (buffer s') = rest
            ∧ objectMode s' = objectMode s
            ∧ ended s' = ended s
            ∧ sane s'
  | None =>
      ∃ st', on_readable readLine_listeners st s
             = Wait st' (mkReadable (objectMode s) [] (ended s) (ended s) false)
             ∧ acc_ok st'
             ∧ rep st' = rep st ++ concat (buffer s)
  end.
Proof.
  intros Hacc Hinc Hs Hre _.
  pose proof (readLine_drain_spec (length (buffer s)) st s (le_n _) Hacc Hinc Hs Hre)
    as H.
  simpl. unfold readLine_onReadable.
  destruct (line_complete (rep st ++ concat (buffer s))) as [[a rest]|].
  - destruct H as (s' & -> & H). eauto.
  - destruct H as (st' & -> & H). simpl. eauto.
Qed.

Lemma readLine_end_spec st s :
  acc_ok st → line_complete (rep st) = None →
  on_end readLine_listeners st s = Settle (Fulfilled None) s.
Proof.
  intros Hacc Hinc. simpl. unfold readLine_onEnd.
  rewrite (readLine_tryResolve_cut _ _ Hacc).
  unfold line_complete in Hinc. by destruct (cut_line (rep st)) as [[??]|].
Qed.

Lemma line_complete_app x y a r :
  line_complete x = Some (a, r) → line_complete (x ++ y) = Some (a, r ++ y).
Proof.
  unfold line_complete. intros H.
  destruct (cut_line x) as [[line rest]|] eqn:E; [|done]. simplify_eq.
  by rewrite (cut_line_app _ _ _ _ E).
Qed.

(** A reader started after 'end' has been emitted. *)
Lemma ended_world w :
  quiet w → readableEnded (stream (interleave w)) = true →
  quiet (interleave w)
  ∧ buffer (stream (interleave w)) = []
  ∧ ended (stream (interleave w)) = true
  ∧ stream_read (stream (interleave w)) = (None, stream (interleave w))
  ∧ snd (nextTick (stream (interleave w))) = stream (interleave w)
  ∧ left_of w (interleave w) [].
Proof.
  intros Hq Hre.
  destruct (interleave_spec w Hq) as ([Hs1 Hq1] & Hrem1 & Hw1 & Hom1 & Hre1 & Hc1 & _).
  destruct (sane_emitted _ Hs1 Hre) as [He Hb].
  split_and!; auto.
  - by split.
  - unfold stream_read, endReadable. by rewrite Hb, He, Hre.
  - unfold nextTick. by rewrite Hq1.
  - split; auto.
    + unfold remaining. by rewrite Hb, He.
    + by split.
Qed.

Lemma readLine_start_ended w :
  quiet w → readableEnded (stream (interleave w)) = true →
  ∃ w', listen readLine_listeners (mkAcc [] 0) w = (Fulfilled None, w')
        ∧ left_of w w' [].
Proof.
  intros Hq Hre.
  destruct (ended_world w Hq Hre) as (Hq1 & Hb & He & Hrd & Htick & Hl).
  exists (interleave w). split; [|done].
  unfold listen. simpl. unfold readLine_onReadable.
  rewrite Hb. simpl. rewrite Hrd, Hre. simpl.
  unfold settled. by rewrite Htick, set_stream_same.
Qed.

(** [readLine] resolves with the first line of the remaining input and
    leaves what follows it; without a complete line it resolves with [null]
    once the stream is closed, and the partial line is lost. *)
Lemma readLine_spec w :
  quiet w →
  match cut_line (remaining w) with
  | Some (line, rest) =>
      ∃ w', readLine w = (Fulfilled (Some line), w') ∧ left_of w w' rest
  | None =>
      will_close w →
      ∃ w', readLine w = (Fulfilled None, w') ∧ left_of w w' []
  end.
Proof.
  intros Hq.
  pose proof (listen_spec readLine_listeners line_complete (Fulfilled None)
                eq_refl line_complete_app readLine_readable_spec
                readLine_end_spec readLine_start_ended w Hq) as H.
  unfold line_complete in H.
  by destruct (cut_line (remaining w)) as [[line rest]|].
Qed.

Lemma cut_bytes_app len x y a r :
  cut_bytes len x = Some (a, r) → cut_bytes len (x ++ y) = Some (a, r ++ y).
Proof.
  unfold cut_bytes. intros H.
  destruct (len <=? Z.of_nat (length x))%Z eqn:E; [|done]. simplify_eq.
  apply Z.leb_le in E.
  assert (Z.to_nat len ≤ length x) by lia.
  rewrite length_app.
  destruct (len <=? Z.of_nat (length x + length y))%Z eqn:E2.
  - by rewrite take_app_le, drop_app_le.
  - apply Z.leb_gt in E2. lia.
Qed.

Lemma readBytes_drain_spec len fuel : ∀ st s,
  length (buffer s) ≤ fuel →
  acc_ok st → cut_bytes len (rep st) = None →
  sane s → readableEnded s = false →
  match cut_bytes len (rep st ++ concat (buffer s)) with
  | Some (a, rest) =>
      ∃ s', readBytes_drain len fuel st s = Settle (Fulfilled a) s'
            ∧ concat (buffer s') = rest
            ∧ objectMode s' = objectMode s
            ∧ ended s' = ended s
            ∧ sane s'
  | None =>
      ∃ st', readBytes_drain len fuel st s
             = Wait st' (mkReadable (objectMode s) [] (ended s) (ended s) false)
             ∧ acc_ok st'
             ∧ rep st' = rep st ++ concat (buffer s)
  end.
Proof.
  induction fuel as [|fuel IH]; intros st s Hfuel Hacc Hinc Hs Hre.
  - destruct (buffer s) as [|c cs] eqn:Hb; [|simpl in Hfuel; lia].
    simpl. rewrite app_nil_r. rewrite (stream_read_nil s Hb Hs Hre), Hinc. eauto.
  - destruct (buffer s) as [|c cs] eqn:Hb.
    + simpl. rewrite app_nil_r. rewrite (stream_read_nil s Hb Hs Hre), Hinc. eauto.
    + destruct (stream_read_cons s c cs Hb Hs Hre)
        as (chunk & s1 & Hrd & Hcat & Hlen & Hom & Hen & Hre1 & Hs1).
      rewrite <- Hb, <- Hcat. simpl. rewrite Hrd.
      pose proof (acc_push_ok chunk st Hacc) as Hacc'.
      change (chunks st ++ [chunk]) with (chunks (acc_push chunk st)).
      change (total st + length chunk) with (total (acc_push chunk st)).
      rewrite (Buffer_concat_ok _ Hacc'), rep_push.
      rewrite app_assoc.
      assert (Htot : total (acc_push chunk st) = length (rep st ++ chunk)).
      { rewrite <- rep_push. exact Hacc'. }
      rewrite Htot.
      destruct (cut_bytes len (rep st ++ chunk)) as [[a rest]|] eqn:Ec.
      * rewrite (cut_bytes_app _ _ _ _ _ Ec).
        unfold cut_bytes in Ec.
        destruct (len <=? Z.of_nat (length (rep st ++ chunk)))%Z; [|done].
        simplify_eq.
        unfold slice, slice_from. rewrite Nat.sub_0_r, drop_0.
        destruct (unshift_rest_spec (drop (Z.to_nat len) (rep st ++ chunk)) s1 Hre1)
          as (H1 & H2 & H3).
        eexists. split; [reflexivity|].
        split_and!; try congruence. by apply unshift_rest_sane.
      * assert (Hle : (len <=? Z.of_nat (length (rep st ++ chunk)))%Z = false).
        { unfold cut_bytes in Ec.
          by destruct (len <=? Z.of_nat (length (rep st ++ chunk)))%Z. }
        rewrite Hle.
        specialize (IH (acc_push chunk st) s1).
        rewrite rep_push, Ec in IH.
        rewrite Hb in Hlen. simpl in Hlen, Hfuel.
        specialize (IH ltac:(lia) Hacc' eq_refl Hs1 Hre1).
        rewrite Hom, Hen in IH. exact IH.
Qed.

Lemma readBytes_readable_spec len st s :
  acc_ok st → cut_bytes len (rep st) = None →
  sane s → readableEnded s = false → endScheduled s = false →
  match cut_bytes len (rep st ++ concat (buffer s)) with
  | Some (a, rest) =>
      ∃ s', on_readable (readBytes_listeners len) st s = Settle (Fulfilled a) s'
            ∧ concat (buffer s') = rest
            ∧ objectMode s' = objectMode s
            ∧ ended s' = ended s
            ∧ sane s'
  | None =>
      ∃ st', on_readable (readBytes_listeners len) st s
             = Wait st' (mkReadable (objectMode s) [] (ended s) (ended s) false)
             ∧ acc_ok st'
             ∧ rep st' = rep st ++ concat (buffer s)
  end.
Proof.
  intros Hacc Hinc Hs Hre _.
  exact (readBytes_drain_spec len (length (buffer s)) st s (le_n _) Hacc Hinc Hs Hre).
Qed.

Lemma readBytes_start_ended len w :
  quiet w → readableEnded (stream (interleave w)) = true →
  ∃ w', listen (readBytes_listeners len) (mkAcc [] 0) w
        = (Rejected (lit "Stream ended"), w')
        ∧ left_of w w' [].
Proof.
  intros Hq Hre.
  destruct (ended_world w Hq Hre) as (Hq1 & Hb & He & Hrd & Htick & Hl).
  exists (interleave w). split; [|done].
  unfold listen. simpl. unfold readBytes_onReadable.
  rewrite Hb. simpl. rewrite Hrd, Hre. simpl.
  unfold settled. by rewrite Htick, set_stream_same.
Qed.

(** [readBytes] resolves with the next [len] bytes of the remaining input
    and leaves what follows them; if the stream is closed before that many
    bytes have come, it rejects with "Stream ended". *)
Lemma readBytes_spec len w :
  (0 < len)%Z → quiet w →
  match cut_bytes len (remaining w) with
  | Some (body, rest) =>
      ∃ w', readBytes len w = (Fulfilled body, w') ∧ left_of w w' rest
  | None =>
      will_close w →
      ∃ w', readBytes len w = (Rejected (lit "Stream ended"), w')
            ∧ left_of w w' []
  end.
Proof.
  intros Hlen Hq.
  assert (Hnil : cut_bytes len [] = None).
  { unfold cut_bytes.
    destruct (Z.leb_spec len (Z.of_nat (length (@nil ascii)))) as [E|E];
      simpl in *; [lia|done]. }
  exact (listen_spec (readBytes_listeners len) (cut_bytes len)
           (Rejected (lit "Stream ended")) Hnil (cut_bytes_app len)
           (readBytes_readable_spec len) (fun _ _ _ _ => eq_refl)
           (readBytes_start_ended len) w Hq).
Qed.

(* ===================================================================== *)
(** ** The Content-Length header of a well-formed frame *)
(* ===================================================================== *)

Lemma nat_of_ascii_digit k :
  k < 10 → nat_of_ascii (ascii_of_nat (48 + k)) = 48 + k.
Proof. intros H. apply nat_ascii_embedding. lia. Qed.

Lemma decimal_go_spec fuel : ∀ n acc,
  n < fuel →
  ∃ ds, decimal_go fuel n acc = ds ++ acc
        ∧ ds ≠ []
        ∧ Forall (fun c => is_digit c = true) ds
        ∧ ∀ a, num ds a = (a * 10 ^ Z.of_nat (length ds) + Z.of_nat n)%Z.
Proof.
  induction fuel as [|fuel IH]; intros n acc Hn; [lia|].
  change (decimal_go (S fuel) n acc)
    with (if n <? 10 then ascii_of_nat (48 + n mod 10) :: acc
          else decimal_go fuel (n / 10) (ascii_of_nat (48 + n mod 10) :: acc)).
  set (d := ascii_of_nat (48 + n mod 10)).
  assert (Hmod : n mod 10 < 10) by (apply Nat.mod_upper_bound; lia).
  assert (Hd : nat_of_ascii d = 48 + n mod 10) by by apply nat_of_ascii_digit.
  assert (Hdig : is_digit d = true).
  { unfold is_digit. rewrite Hd. apply andb_true_intro.
    split; apply Nat.leb_le; lia. }
  assert (Hval : digit_val d = Z.of_nat (n mod 10)).
  { unfold digit_val. rewrite Hd. f_equal. lia. }
  destruct (n <? 10) eqn:E.
  - apply Nat.ltb_lt in E. exists [d]. split_and!; auto.
    intros a. unfold num. simpl. rewrite Hval, Nat.mod_small by done. lia.
  - apply Nat.ltb_ge in E.
    assert (Hdiv : n / 10 < fuel).
    { pose proof (Nat.div_lt n 10). lia. }
    destruct (IH (n / 10) (d :: acc) Hdiv) as (ds & -> & Hne & Hall & Hnum).
    exists (ds ++ [d]). split_and!.
    + by rewrite <- app_assoc.
    + by destruct ds.
    + apply Forall_app. split; auto.
    + intros a. unfold num in *. rewrite fold_left_app. cbn [fold_left].
      rewrite Hnum, Hval, length_app. change (length [d]) with 1.
      rewrite Nat2Z.inj_add, Z.pow_add_r by lia.
      pose proof (Nat.div_mod_eq n 10) as Hdm.
      change (10 ^ Z.of_nat 1)%Z with 10%Z.
      apply (f_equal Z.of_nat) in Hdm.
      rewrite Nat2Z.inj_add, Nat2Z.inj_mul in Hdm.
      change (Z.of_nat 10) with 10%Z in Hdm.
      rewrite Hdm. ring.
Qed.

Lemma decimal_spec n :
  decimal n ≠ []
  ∧ Forall (fun c => is_digit c = true) (decimal n)
  ∧ num (decimal n) 0 = Z.of_nat n.
Proof.
  unfold decimal.
  destruct (decimal_go_spec (S n) n [] ltac:(lia)) as (ds & -> & Hne & Hall & Hnum).
  rewrite app_nil_r. split_and!; auto.
Qed.

Lemma digits_prefix_app ds : ∀ acc t,
  Forall (fun c => is_digit c = true) ds → ds ≠ [] →
  digits_prefix acc (ds ++ t) = digits_prefix (Some (num ds (default 0%Z acc))) t.
Proof.
  induction ds as [|c ds IH]; intros acc t Hall Hne; [done|].
  apply Forall_cons in Hall as [Hc Hall]. simpl. rewrite Hc.
  destruct ds as [|c' ds]; [done|].
  rewrite IH; auto.
Qed.

Lemma digit_not_space c : is_digit c = true → is_space c = false.
Proof.
  unfold is_digit, is_space. intros H.
  apply andb_prop in H as [H1 H2]. apply Nat.leb_le in H1, H2.
  repeat (apply orb_false_intro); apply Nat.eqb_neq; lia.
Qed.

Lemma digit_neq c (x : ascii) :
  is_digit c = true → is_digit x = false → c ≠ x.
Proof. intros H1 H2 ->. congruence. Qed.

Lemma trimStart_digit ds t :
  Forall (fun c => is_digit c = true) ds → ds ≠ [] →
  trimStart (ds ++ t) = ds ++ t.
Proof.
  intros Hall Hne. destruct ds as [|c ds]; [done|].
  apply Forall_cons in Hall as [Hc _]. simpl. by rewrite (digit_not_space _ Hc).
Qed.

Lemma parseInt_decimal n : parseInt (decimal n) = Some (Z.of_nat n).
Proof.
  destruct (decimal_spec n) as (Hne & Hall & Hnum).
  unfold parseInt.
  rewrite <- (app_nil_r (decimal n)), trimStart_digit, app_nil_r by done.
  destruct (decimal n) as [|c ds] eqn:E; [done|].
  pose proof Hall as Hall'. apply Forall_cons in Hall' as [Hc _].
  destruct (decide (c = "-"%char)) as [->|_]; [done|].
  destruct (decide (c = "+"%char)) as [->|_]; [done|].
  rewrite <- (app_nil_r (c :: ds)), digits_prefix_app by done.
  cbn [digits_prefix default]. by rewrite Hnum.
Qed.

Lemma trim_value ds :
  Forall (fun c => is_digit c = true) ds → ds ≠ [] →
  trim (" "%char :: ds ++ CRLF) = ds.
Proof.
  intros Hall Hne. unfold trim, trimEnd.
  change (trimStart (" "%char :: ds ++ CRLF)) with (trimStart (ds ++ CRLF)).
  rewrite trimStart_digit by done.
  rewrite rev_app_distr. simpl.
  rewrite <- (app_nil_r (rev ds)), trimStart_digit.
  - by rewrite app_nil_r, rev_involutive.
  - by apply List.Forall_rev.
  - destruct ds; [done|]. simpl. by destruct (rev ds).
Qed.

Lemma cut_line_first pre r :
  Forall (fun c => c ≠ LF) pre →
  cut_line (pre ++ LF :: r) = Some (pre ++ [LF], r).
Proof.
  induction pre as [|c pre IH]; intros Hall; simpl.
  - by destruct (decide (LF = LF)).
  - apply Forall_cons in Hall as [Hc Hall].
    destruct (decide (c = LF)); [done|]. by rewrite IH.
Qed.

Lemma indexOf_first (c : ascii) pre r :
  Forall (fun x => x ≠ c) pre →
  indexOf c (pre ++ c :: r) = Some (length pre).
Proof.
  induction pre as [|x pre IH]; intros Hall; simpl.
  - by destruct (decide (c = c)).
  - apply Forall_cons in Hall as [Hx Hall].
    destruct (decide (x = c)); [done|]. by rewrite IH.
Qed.

Lemma frame_header body :
  frame body = header_line (length body) ++ CRLF ++ body.
Proof.
  unfold frame, header_line.
  change (lit "Content-Length: ") with (lit "Content-Length" ++ [":"%char; " "%char]).
  rewrite <- !app_assoc. simpl. by rewrite <- !app_assoc.
Qed.

Lemma header_line_cut n r :
  cut_line (header_line n ++ r) = Some (header_line n, r).
Proof.
  destruct (decimal_spec n) as (Hne & Hall & _).
  unfold header_line, CRLF.
  replace ((lit "Content-Length" ++ ":"%char :: " "%char :: decimal n ++ [CR; LF]) ++ r)
    with ((lit "Content-Length" ++ ":"%char :: " "%char :: decimal n ++ [CR]) ++ LF :: r).
  2:{ rewrite <- !app_assoc. simpl. rewrite <- !app_assoc. done. }
  rewrite cut_line_first.
  - f_equal. f_equal. rewrite <- !app_assoc. simpl. by rewrite <- !app_assoc.
  - apply Forall_app. split; [by repeat constructor|].
    repeat (apply Forall_cons; split; [done|]).
    apply Forall_app. split; [|by repeat constructor].
    eapply Forall_impl; [exact Hall|]. intros c Hc.
    by apply (digit_neq _ _ Hc).
Qed.

Lemma world_size_remaining w : length (remaining w) ≤ world_size w.
Proof.
  unfold remaining, world_size. rewrite length_app.
  apply Nat.add_le_mono_l.
  destruct (ended (stream w)); [simpl; lia|].
  induction (pending w) as [|[chunk|] p IH]; simpl; try lia.
  rewrite length_app. lia.
Qed.

Lemma left_of_trans w0 w1 w2 r1 r2 :
  left_of w0 w1 r1 → left_of w1 w2 r2 → left_of w0 w2 r2.
Proof.
  intros [H1 H2 H3 H4 H5] H. eapply left_of_via; eauto.
Qed.

(** [readHeaders] on the header block of a well-formed frame. *)
Lemma readHeaders_frame w n rest :
  quiet w →
  remaining w = header_line n ++ CRLF ++ rest →
  ∃ w', readHeaders w
        = (Fulfilled (Some ({[ lit "content-length" := decimal n ]} : gmap Str Str)), w')
        ∧ left_of w w' rest.
Proof.
  intros Hq Hrem.
  destruct (decimal_spec n) as (Hne & Hall & _).
  unfold readHeaders.
  pose proof (world_size_remaining w) as Hsize.
  destruct (world_size w) as [|fuel] eqn:Ef.
  { rewrite Hrem in Hsize. unfold header_line in Hsize.
    rewrite !length_app in Hsize. simpl in Hsize. lia. }
  pose proof (readLine_spec w Hq) as H1.
  rewrite Hrem, header_line_cut in H1.
  destruct H1 as (w1 & Hr1 & Hl1).
  pose proof (readLine_spec w1 (left_quiet _ _ _ Hl1)) as H2.
  rewrite (left_remaining _ _ _ Hl1) in H2.
  change (CRLF ++ rest) with ([CR] ++ LF :: rest) in H2.
  rewrite cut_line_first in H2 by by repeat constructor.
  destruct H2 as (w2 & Hr2 & Hl2).
  exists w2. split; [|by eapply left_of_trans].
  simpl. unfold bind at 1. rewrite Hr1.
  destruct (decide (toString (header_line n) = CRLF)) as [Heq|_].
  { exfalso. unfold header_line, toString in Heq. simpl in Heq. discriminate. }
  assert (Hidx : indexOf ":"%char (toString (header_line n))
                 = Some (length (lit "Content-Length"))).
  { unfold header_line, toString. apply indexOf_first. by repeat constructor. }
  rewrite Hidx.
  assert (Hkey : toLowerCase (trim (slice 0 (length (lit "Content-Length"))
                                      (toString (header_line n))))
                 = lit "content-length").
  { unfold slice, header_line, toString. rewrite Nat.sub_0_r, drop_0.
    by rewrite take_app_length. }
  assert (Hvalue : trim (slice_from (length (lit "Content-Length") + 1)
                           (toString (header_line n)))
                   = decimal n).
  { unfold slice_from, header_line, toString.
    change (":"%char :: " "%char :: decimal n ++ CRLF)
      with ([":"%char] ++ " "%char :: decimal n ++ CRLF).
    rewrite app_assoc.
    replace (length (lit "Content-Length") + 1)
      with (length (lit "Content-Length" ++ [":"%char])) by done.
    rewrite drop_app_length. by apply trim_value. }
  rewrite Hkey, Hvalue.
  destruct fuel as [|fuel]; simpl; unfold bind; rewrite Hr2;
    (destruct (decide (toString ([CR] ++ [LF]) = CRLF)); [|done]);
    by rewrite insert_empty.
Qed.

(* ===================================================================== *)
(** ** FramedJSONRPC.read on frames, at the end of input, and cut short *)
(* ===================================================================== *)

Section read_spec.
Variable JSON_parse : Str -> Json + Str.

  (** After the header block of a frame, [read] is [readBytes] followed by
      the decoding of the body. *)
Lemma read_header w n rest :
    quiet w → 0 < n →
    remaining w = header_line n ++ CRLF ++ rest →
    ∃ w1, left_of w w1 rest
          ∧ FramedJSONRPC_read JSON_parse w
            = (buf <- await readBytes (Z.of_nat n) ;;
               ret (Some (decode JSON_parse buf))) w1.
Proof.
    intros Hq Hn Hrem.
    destruct (readHeaders_frame w n rest Hq Hrem) as (w1 & Hr & Hl).
    exists w1. split; [done|].
    unfold FramedJSONRPC_read at 1. unfold bind at 1. rewrite Hr.
    rewrite lookup_singleton_eq.
    destruct (decimal_spec n) as (Hne & _ & _).
    pose proof (parseInt_decimal n) as Hp.
    destruct (decimal n) as [|c s]; [done|]. rewrite Hp.
    unfold invalid_length.
    destruct (Z.leb_spec (Z.of_nat n) 0); [lia|].
    simpl. unfold bind, decode.
    destruct (readBytes (Z.of_nat n) w1) as [[buf|e|] w2]; [|done..].
    by destruct (JSON_parse (toString buf)).
Qed.

Lemma cut_bytes_exact (body rest : Buffer) :
    cut_bytes (Z.of_nat (length body)) (body ++ rest) = Some (body, rest).
Proof.
    unfold cut_bytes. rewrite Nat2Z.id, length_app.
    destruct (Z.leb_spec (Z.of_nat (length body))
                (Z.of_nat (length body + length rest))); [|lia].
    by rewrite take_app_length, drop_app_length.
Qed.

  (** A well-formed frame is read as its decoded body, whatever follows it
      and however it arrives. *)
Lemma read_frame w body rest :
    quiet w → body ≠ [] →
    remaining w = frame body ++ rest →
    ∃ w', FramedJSONRPC_read JSON_parse w
          = (Fulfilled (Some (decode JSON_parse body)), w')
          ∧ left_of w w' rest.
Proof.
    intros Hq Hne Hrem.
    assert (Hlen : 0 < length body) by (destruct body; [done|simpl; lia]).
    rewrite frame_header, <- !app_assoc in Hrem.
    destruct (read_header w _ _ Hq Hlen Hrem) as (w1 & Hl1 & ->).
    pose proof (readBytes_spec (Z.of_nat (length body)) w1 ltac:(lia)
                  (left_quiet _ _ _ Hl1)) as H.
    rewrite (left_remaining _ _ _ Hl1), cut_bytes_exact in H.
    destruct H as (w2 & Hr & Hl2).
    exists w2. split; [|by eapply left_of_trans].
    unfold bind. by rewrite Hr.
Qed.

Lemma readHeaders_eof w :
    quiet w → will_close w → cut_line (remaining w) = None →
    ∃ w', readHeaders w = (Fulfilled None, w') ∧ left_of w w' [].
Proof.
    intros Hq Hc Hcut.
    pose proof (readLine_spec w Hq) as H. rewrite Hcut in H.
    destruct (H Hc) as (w' & Hr & Hl).
    exists w'. split; [|done].
    unfold readHeaders. destruct (world_size w); simpl; unfold bind; by rewrite Hr.
Qed.

  (** With no complete line left before the close, [read] gives the
      end-of-stream signal. *)
Lemma read_eof w :
    quiet w → will_close w → cut_line (remaining w) = None →
    ∃ w', FramedJSONRPC_read JSON_parse w = (Fulfilled None, w')
          ∧ left_of w w' [].
Proof.
    intros Hq Hc Hcut.
    destruct (readHeaders_eof w Hq Hc Hcut) as (w' & Hr & Hl).
    exists w'. split; [|done].
    unfold FramedJSONRPC_read, bind. by rewrite Hr.
Qed.

  (** The close after a complete header block but before the whole body. *)
Lemma read_truncated w n partial :
    quiet w → will_close w →
    length partial < n →
    remaining w = header_line n ++ CRLF ++ partial →
    ∃ w', FramedJSONRPC_read JSON_parse w = (Rejected (lit "Stream ended"), w')
          ∧ left_of w w' [].
Proof.
    intros Hq Hc Hlen Hrem.
    destruct (read_header w n partial Hq ltac:(lia) Hrem) as (w1 & Hl1 & ->).
    pose proof (readBytes_spec (Z.of_nat n) w1 ltac:(lia)
                  (left_quiet _ _ _ Hl1)) as H.
    rewrite (left_remaining _ _ _ Hl1) in H.
    unfold cut_bytes in H.
    destruct (Z.leb_spec (Z.of_nat n) (Z.of_nat (length partial))); [lia|].
    destruct (H (left_close _ _ _ Hl1 Hc)) as (w2 & Hr & Hl2).
    exists w2. split; [|by eapply left_of_trans].
    unfold bind. by rewrite Hr.
Qed.

Lemma read_many_frames bodies : ∀ msgs w,
    Forall2 (fun body msg => body ≠ [] ∧ JSON_parse (toString body) = inl msg)
      bodies msgs →
    quiet w → will_close w →
    remaining w = concat (map frame bodies) →
    fst (read_many JSON_parse (S (length bodies)) w)
    = map (fun msg => Fulfilled (Some msg)) msgs ++ [Fulfilled None].
Proof.
    induction bodies as [|body bodies IH]; intros msgs w Hall Hq Hc Hrem.
    - apply Forall2_nil_inv_l in Hall as ->.
      destruct (read_eof w Hq Hc) as (w' & Hr & _); [by rewrite Hrem|].
      simpl. by rewrite Hr.
    - apply Forall2_cons_inv_l in Hall as (msg & msgs' & [Hne Hp] & Hall & ->).
      destruct (read_frame w body (concat (map frame bodies)) Hq Hne Hrem)
        as (w' & Hr & Hl).
      specialize (IH msgs' w' Hall (left_quiet _ _ _ Hl) (left_close _ _ _ Hl Hc)
                    (left_remaining _ _ _ Hl)).
      change (read_many JSON_parse (S (length (body :: bodies))) w)
        with (let '(r, w') := FramedJSONRPC_read JSON_parse w in
              let '(rs, w'') := read_many JSON_parse (S (length bodies)) w' in
              (r :: rs, w'')).
      rewrite Hr.
      destruct (read_many JSON_parse (S (length bodies)) w') as [rs w''].
      simpl in *. rewrite IH. unfold decode. by rewrite Hp.
Qed.
End read_spec.

Lemma incoming_chunks chunks : incoming (map Data chunks ++ [End]) = concat chunks.
Proof. induction chunks as [|c chunks IH]; simpl; [done|]. by rewrite IH. Qed.

Lemma connect_spec objectMode chunks timing :
  quiet (connect objectMode (map Data chunks ++ [End]) timing)
  ∧ will_close (connect objectMode (map Data chunks ++ [End]) timing)
  ∧ remaining (connect objectMode (map Data chunks ++ [End]) timing) = concat chunks.
Proof.
  split_and!.
  - split; [|done]. split; simpl; intros; congruence.
  - right. simpl. apply elem_of_app. right. by apply list_elem_of_singleton.
  - unfold remaining. simpl. apply incoming_chunks.
Qed.

(** C1.  Whenever N well-formed frames are written to the input, in any
    chunking, and the input is then closed, the first N calls of [read]
    return the N decoded messages in order and call N+1 returns the
    end-of-stream signal [undefined]; this holds for every schedule of the
    arrivals relative to the calls (so wherever the close falls) and for
    byte-mode and object-mode streams alike. *)
Theorem read_frames_then_end_of_stream
    (JSON_parse : Str -> Json + Str) (objectMode : bool)
    (bodies : list Buffer) (msgs : list Json)
    (chunks : list Buffer) (timing : list nat) :
  Forall2 (fun body msg => body ≠ [] ∧ JSON_parse (toString body) = inl msg)
    bodies msgs →
  concat chunks = concat (map frame bodies) →
  fst (read_many JSON_parse (S (length bodies))
         (connect objectMode (map Data chunks ++ [End]) timing))
  = map (fun msg => Fulfilled (Some msg)) msgs ++ [Fulfilled None].
Proof.
  intros Hall Hchunks.
  destruct (connect_spec objectMode chunks timing) as (Hq & Hc & Hrem).
  apply read_many_frames; auto. congruence.
Qed.

(* ===================================================================== *)
(** ** The dispatcher and the loop *)
(* ===================================================================== *)

Section server_spec.
Variable JSON_parse : Str -> Json + Str.
Variable Number_toString : Z -> Str.
Variable primitive_member : Json -> Str -> Except Str.
Variable now : Str.
Variable srv : MCPServer.

Local Abbreviation handle := (handle Number_toString primitive_member now srv).
Local Abbreviation run_loop :=
    (run_loop JSON_parse Number_toString primitive_member now srv).
Local Abbreviation loop_on :=
    (loop_on JSON_parse Number_toString primitive_member now srv).

Lemma is_method_unique req a b :
    is_method req a = true → is_method req b = true → lit a = lit b.
Proof.
    unfold is_method. destruct (prop "method" req) as [[| | |m| |]|]; try done.
    intros Ha Hb. apply bool_decide_eq_true in Ha, Hb. congruence.
Qed.

Lemma is_method_other req a b :
    is_method req a = true → lit a ≠ lit b → is_method req b = false.
Proof.
    intros Ha Hne. destruct (is_method req b) eqn:Hb; [|done].
    by pose proof (is_method_unique _ _ _ Ha Hb).
Qed.

Lemma bind_lift {A B} (m : Except A) (k : A → Async B) w :
    bind (lift m) k w
    = match m with
      | Ok a => k a w
      | Throw e => (Rejected e, w)
      end.
Proof. by destruct m. Qed.

  (** The switch either writes one response carrying [id], or fails before
      writing anything. *)
Lemma handle_switch_cases shuttingDown id0 req w r :
    handle_switch Number_toString primitive_member now srv shuttingDown id0 req w = r →
    (∃ shuttingDown' resp,
       r = (Fulfilled shuttingDown', wrote resp w)
       ∧ id resp = id0
       ∧ (shuttingDown' = shuttingDown ∨ shuttingDown' = true))
    ∨ (∃ e, r = (Rejected e, w)).
Proof.
    intros Hr. unfold handle_switch in Hr.
    assert (Hleft : ∀ sd' resp,
              r = (Fulfilled sd', wrote resp w) → id resp = id0 →
              (sd' = shuttingDown ∨ sd' = true) →
              (∃ shuttingDown' resp,
                 r = (Fulfilled shuttingDown', wrote resp w)
                 ∧ id resp = id0
                 ∧ (shuttingDown' = shuttingDown ∨ shuttingDown' = true))
              ∨ (∃ e, r = (Rejected e, w))).
    { intros. left. eauto. }
    destruct (is_method req "initialize");
      [subst r; eapply Hleft; [reflexivity|done|by left]|].
    destruct (is_method req "shutdown");
      [subst r; eapply Hleft; [reflexivity|done|by right]|].
    destruct (is_method req "tools/list");
      [subst r; eapply Hleft; [reflexivity|done|by left]|].
    destruct (is_method req "tools/call").
    { rewrite bind_lift in Hr.
      destruct (JS_String_opt Number_toString (prop "name" (params_of req)))
        as [name|e]; [|right; by exists e].
      rewrite bind_lift in Hr.
      destruct (ToolRegistry.call now (tools srv) name
                  (prop "arguments" (params_of req))) as [res|e];
        [|right; by exists e].
      subst r; eapply Hleft; [reflexivity|done|by left]. }
    destruct (is_method req "resources/list");
      [subst r; eapply Hleft; [reflexivity|done|by left]|].
    destruct (is_method req "resources/read").
    { destruct (negb (truthy_opt (prop "uri" (params_of req))));
        [right; by eexists|].
      rewrite bind_lift in Hr.
      destruct (JS_String_opt Number_toString (prop "uri" (params_of req)))
        as [uri|e]; [|right; by exists e].
      rewrite bind_lift in Hr.
      destruct (ResourceRegistry.read (resources srv) uri) as [res|e];
        [|right; by exists e].
      subst r; eapply Hleft; [reflexivity|done|by left]. }
    destruct (is_method req "prompts/list");
      [subst r; eapply Hleft; [reflexivity|done|by left]|].
    destruct (is_method req "prompts/get").
    { destruct (negb (truthy_opt (prop "name" (params_of req))));
        [right; by eexists|].
      rewrite bind_lift in Hr.
      destruct (JS_String_opt Number_toString (prop "name" (params_of req)))
        as [name|e]; [|right; by exists e].
      rewrite bind_lift in Hr.
      destruct (PromptRegistry.get Number_toString primitive_member (prompts srv)
                  name (nullish (prop "variables" (params_of req)) (JObj [])))
        as [p|e]; [|right; by exists e].
      subst r; eapply Hleft; [reflexivity|done|by left]. }
    subst r; eapply Hleft; [reflexivity|done|by left].
Qed.

  (** Every message given to [handle] is answered by exactly one response,
      which carries [req.id ?? null]; the flag changes only on "shutdown". *)
Lemma handle_answers shuttingDown req w :
    ∃ shuttingDown' resp,
      handle shuttingDown req w = (Fulfilled shuttingDown', wrote resp w)
      ∧ id resp = nullish (prop "id" req) JNull
      ∧ (shuttingDown' = shuttingDown ∨ shuttingDown' = true).
Proof.
    unfold handle, try_catch.
    destruct (handle_switch_cases shuttingDown (nullish (prop "id" req) JNull) req w
                _ eq_refl) as [(sd' & resp & -> & Hid & Hsd)|(e & ->)].
    - eauto.
    - eexists _, _. by split_and!; eauto.
Qed.

Lemma handle_shutdown shuttingDown req w :
    is_method req "shutdown" = true →
    handle shuttingDown req w
    = (Fulfilled true,
       wrote (mkResponse (nullish (prop "id" req) JNull) (Result JNull)) w).
Proof.
    intros H. unfold handle, handle_switch, try_catch.
    rewrite (is_method_other _ _ "initialize" H) by done. by rewrite H.
Qed.

  (** One turn of the loop of [run] on a message that is not the parse-error
      sentinel. *)
Lemma run_loop_request fuel shuttingDown w msg w1 :
    FramedJSONRPC_read JSON_parse w = (Fulfilled (Some msg), w1) →
    truthy msg = true →
    is_method msg "__internal_parse_error__" = false →
    run_loop fuel shuttingDown w
    = (shuttingDown' <- await handle shuttingDown msg ;;
       loop_on fuel shuttingDown') w1.
Proof.
    intros Hr Ht Hm.
    destruct fuel; simpl; unfold bind at 1; rewrite Hr; simpl; rewrite Ht, Hm;
      simpl; unfold bind, loop_on;
      destruct (handle shuttingDown msg w1) as [[[]|?|] ?]; done.
Qed.

  (** One turn of the loop on the parse-error sentinel. *)
Lemma run_loop_sentinel fuel shuttingDown w msg w1 :
    FramedJSONRPC_read JSON_parse w = (Fulfilled (Some msg), w1) →
    truthy msg = true →
    is_method msg "__internal_parse_error__" = true →
    run_loop fuel shuttingDown w
    = match fuel with
      | O => (Forever, wrote (parse_error_response (prop "params" msg)) w1)
      | S fuel' =>
          run_loop fuel' shuttingDown
            (wrote (parse_error_response (prop "params" msg)) w1)
      end.
Proof.
    intros Hr Ht Hm.
    destruct fuel; simpl; unfold bind at 1; rewrite Hr; simpl; rewrite Ht, Hm; done.
Qed.

  (** The loop stops on an empty read... *)
Lemma run_loop_end fuel shuttingDown w w1 :
    FramedJSONRPC_read JSON_parse w = (Fulfilled None, w1) →
    run_loop fuel shuttingDown w = (Fulfilled shuttingDown, w1).
Proof. intros Hr. destruct fuel; simpl; unfold bind; by rewrite Hr. Qed.

  (** ... and a rejected read escapes it. *)
Lemma run_loop_rejected fuel shuttingDown w e w1 :
    FramedJSONRPC_read JSON_parse w = (Rejected e, w1) →
    run_loop fuel shuttingDown w = (Rejected e, w1).
Proof. intros Hr. destruct fuel; simpl; unfold bind; by rewrite Hr. Qed.
End server_spec.

(* ===================================================================== *)
(** ** The claims about the transport and the server loop *)
(* ===================================================================== *)

(** Two frames cut into three chunks, with the close delivered while the
    second call of [read] waits. *)
Lemma read_frames_then_end_of_stream_witness :
  let bodies := [Fragment.JSON_stringify Scenario.initialize1;
                 Fragment.JSON_stringify Scenario.shutdown2] in
  let wire := concat (map frame bodies) in
  let chunks := [take 7 wire; take 60 (drop 7 wire); drop 67 wire] in
  concat chunks = wire
  ∧ fst (read_many Fragment.JSON_parse 3
           (connect false (map Data chunks ++ [End]) [1; 0; 0; 0; 3]))
    = [Fulfilled (Some Scenario.initialize1);
       Fulfilled (Some Scenario.shutdown2);
       Fulfilled None].
Proof.
  split.
  - vm_compute. reflexivity.
  - apply (read_frames_then_end_of_stream Fragment.JSON_parse false
             [Fragment.JSON_stringify Scenario.initialize1;
              Fragment.JSON_stringify Scenario.shutdown2]
             [Scenario.initialize1; Scenario.shutdown2]).
    + repeat constructor; done.
    + vm_compute. reflexivity.
Defined.

Section loop_claims.
Variable JSON_parse : Str -> Json + Str.
Variable Number_toString : Z -> Str.
Variable primitive_member : Json -> Str -> Except Str.
Variable now : Str.
Variable srv : MCPServer.

Local Abbreviation handle := (handle Number_toString primitive_member now srv).
Local Abbreviation run_loop :=
    (run_loop JSON_parse Number_toString primitive_member now srv).
Local Abbreviation loop_on :=
    (loop_on JSON_parse Number_toString primitive_member now srv).

  (** When the turn of the loop reads a "shutdown" request, the loop writes
      the response [{ id, result: null }] and returns: the world is the one
      the read left, plus that one response. *)
Lemma run_loop_shutdown fuel shuttingDown w msg w1 :
    FramedJSONRPC_read JSON_parse w = (Fulfilled (Some msg), w1) →
    is_method msg "shutdown" = true →
    run_loop fuel shuttingDown w
    = (Fulfilled true,
       wrote (mkResponse (nullish (prop "id" msg) JNull) (Result JNull)) w1).
Proof.
    intros Hr Hm.
    assert (Ht : truthy msg = true).
    { unfold is_method, prop in Hm. by destruct msg. }
    rewrite (run_loop_request _ _ _ _ _ _ _ _ msg w1 Hr Ht
               (is_method_other msg "shutdown" "__internal_parse_error__" Hm ltac:(done))).
    unfold bind. by rewrite (handle_shutdown _ _ _ _ _ _ _ Hm).
Qed.

Lemma handle_initialize shuttingDown req w :
    is_method req "initialize" = true →
    handle shuttingDown req w
    = (Fulfilled shuttingDown,
       wrote (mkResponse (nullish (prop "id" req) JNull)
                (Result (initialize_result srv))) w).
Proof. intros H. unfold handle, handle_switch, try_catch. by rewrite H. Qed.

Lemma wrote_left w0 w rest resp :
    left_of w0 w rest →
    quiet (wrote resp w) ∧ will_close w = will_close (wrote resp w)
    ∧ remaining (wrote resp w) = rest.
Proof. intros [H1 H2 H3 H4 H5]. by split_and!. Qed.
End loop_claims.

(** C3.  In any turn of the loop of [run], once the request read is
    "shutdown" the server writes the response with result null and the
    request's id, and the loop returns without reading or writing anything
    more.  For the input initialize (id 1), shutdown (id 2), tools/list
    (id 3), however chunked and scheduled, [run] returns, the responses
    written have exactly the ids 1 and 2, and the third frame is still
    unread. *)
Theorem shutdown_ends_the_loop
    (JSON_parse : Str -> Json + Str) (Number_toString : Z -> Str)
    (primitive_member : Json -> Str -> Except Str) (now : Str) (srv : MCPServer)
    (fuel : nat) (shuttingDown : bool) (w : World) (msg : Json) (w1 : World)
    (objectMode : bool) (chunks : list Buffer) (timing : list nat) :
  FramedJSONRPC_read JSON_parse w = (Fulfilled (Some msg), w1) →
  is_method msg "shutdown" = true →
  concat chunks
  = Scenario.message Scenario.initialize1 ++ Scenario.message Scenario.shutdown2
    ++ Scenario.message Scenario.tools_list3 →
  run_loop JSON_parse Number_toString primitive_member now srv fuel shuttingDown w
  = (Fulfilled true,
     wrote (mkResponse (nullish (prop "id" msg) JNull) (Result JNull)) w1)
  ∧ ∃ w',
      run Fragment.JSON_parse Number_toString primitive_member now srv
        (connect objectMode (map Data chunks ++ [End]) timing)
      = (Fulfilled true, w')
      ∧ map id (written w') = [JNum 1; JNum 2]
      ∧ remaining w' = Scenario.message Scenario.tools_list3.
Proof.
  intros Hr Hm Hchunks. split; [by apply run_loop_shutdown|].
  destruct (connect_spec objectMode chunks timing) as (Hq & Hc & Hrem).
  set (w0 := connect objectMode (map Data chunks ++ [End]) timing) in *.
  rewrite Hchunks in Hrem.
  unfold run.
  pose proof (world_size_remaining w0) as Hsize. rewrite Hrem in Hsize.
  destruct (world_size w0) as [|fuel0]; [vm_compute in Hsize; lia|]. clear Hsize.
  assert (Hne : ∀ req, Fragment.JSON_stringify (Scenario.request (fst req) (snd req) [])
                 ≠ []).
  { intros [[i|] m]; unfold Scenario.request; simpl; discriminate. }
  destruct (read_frame Fragment.JSON_parse w0
              (Fragment.JSON_stringify Scenario.initialize1) _ Hq
              (Hne (Some (JNum 1), "initialize"%string)) Hrem)
    as (wa & Hra & Hla).
  change (decode Fragment.JSON_parse (Fragment.JSON_stringify Scenario.initialize1))
    with Scenario.initialize1 in Hra.
  rewrite (run_loop_request _ _ _ _ _ _ _ _ _ wa Hra eq_refl eq_refl).
  unfold bind at 1. rewrite handle_initialize by done.
  unfold loop_on.
  destruct (wrote_left w0 wa _
              (mkResponse (nullish (prop "id" Scenario.initialize1) JNull)
                 (Result (initialize_result srv))) Hla) as (Hq1 & Hc1 & Hrem1).
  destruct (read_frame Fragment.JSON_parse _
              (Fragment.JSON_stringify Scenario.shutdown2) _ Hq1
              (Hne (Some (JNum 2), "shutdown"%string)) Hrem1)
    as (wb & Hrb & Hlb).
  change (decode Fragment.JSON_parse (Fragment.JSON_stringify Scenario.shutdown2))
    with Scenario.shutdown2 in Hrb.
  rewrite (run_loop_shutdown _ _ _ _ _ _ _ _ _ wb Hrb eq_refl).
  eexists. split; [reflexivity|]. split.
  - simpl. rewrite (left_written _ _ _ Hlb). simpl.
    rewrite (left_written _ _ _ Hla). done.
  - apply (left_remaining _ _ _ Hlb).
Qed.

Lemma shutdown_ends_the_loop_witness :
  let w := Scenario.at_once (Scenario.message Scenario.shutdown2
                             ++ Scenario.message Scenario.tools_list3) in
  let wire := Scenario.message Scenario.initialize1
              ++ Scenario.message Scenario.shutdown2
              ++ Scenario.message Scenario.tools_list3 in
  let chunks := [take 30 wire; drop 30 wire] in
  is_method Scenario.shutdown2 "shutdown" = true
  ∧ concat chunks = wire
  ∧ written (snd (run_loop Fragment.JSON_parse Fragment.Number_toString
                    Fragment.primitive_member Fragment.now Fragment.server 0 false w))
    = [mkResponse (JNum 2) (Result JNull)]
  ∧ ∃ w',
      run Fragment.JSON_parse Fragment.Number_toString Fragment.primitive_member
        Fragment.now Fragment.server
        (connect true (map Data chunks ++ [End]) [0; 1])
      = (Fulfilled true, w')
      ∧ map id (written w') = [JNum 1; JNum 2]
      ∧ remaining w' = Scenario.message Scenario.tools_list3.
Proof.
  intros w wire chunks.
  destruct (FramedJSONRPC_read Fragment.JSON_parse w) as [r w1] eqn:Hr.
  assert (Hr' : r = Fulfilled (Some Scenario.shutdown2)).
  { apply (f_equal fst) in Hr. vm_compute in Hr. rewrite <- Hr. reflexivity. }
  subst r.
  assert (Hchunks : concat chunks = wire) by (vm_compute; reflexivity).
  destruct (shutdown_ends_the_loop Fragment.JSON_parse Fragment.Number_toString
              Fragment.primitive_member Fragment.now Fragment.server 0 false
              w Scenario.shutdown2 w1 true chunks [0; 1] Hr eq_refl Hchunks)
    as [H1 H2].
  split; [reflexivity|]. split; [exact Hchunks|]. split; [|exact H2].
  rewrite H1. simpl.
  apply (f_equal (fun x => written (snd x))) in Hr. simpl in Hr.
  rewrite <- Hr. vm_compute. reflexivity.
Defined.

(** C4, as the code has it.  A message without an identifier is answered
    like any other: [handle] writes exactly one response for it, and that
    response carries the identifier null.  The code has no
    notion of a notification that is left unanswered. *)
Theorem message_without_id_is_answered_with_null
    (Number_toString : Z -> Str) (primitive_member : Json -> Str -> Except Str)
    (now : Str) (srv : MCPServer)
    (shuttingDown : bool) (req : Json) (w : World) :
  prop "id" req = None →
  ∃ shuttingDown' resp,
    handle Number_toString primitive_member now srv shuttingDown req w
    = (Fulfilled shuttingDown', wrote resp w)
    ∧ id resp = JNull.
Proof.
  intros Hid.
  destruct (handle_answers Number_toString primitive_member now srv
              shuttingDown req w) as (sd' & resp & Hh & Hi & _).
  exists sd', resp. split; [done|]. by rewrite Hi, Hid.
Qed.

Lemma message_without_id_is_answered_with_null_witness :
  prop "id" Scenario.notification = None
  ∧ ∃ shuttingDown' resp,
      handle Fragment.Number_toString Fragment.primitive_member Fragment.now
        Fragment.server false Scenario.notification
        (Scenario.at_once [])
      = (Fulfilled shuttingDown', wrote resp (Scenario.at_once []))
      ∧ id resp = JNull.
Proof.
  split; [reflexivity|].
  apply (message_without_id_is_answered_with_null Fragment.Number_toString
           Fragment.primitive_member Fragment.now Fragment.server false
           Scenario.notification (Scenario.at_once [])).
  reflexivity.
Defined.

(** The notification [{ jsonrpc: "2.0", method: "initialize" }] is sent and
    the input closed: the server writes a response, with id null. *)
Lemma notification_is_answered_counterexample :
  prop "id" Scenario.notification = None
  ∧ map id (written (snd (Fragment.run
                            (Scenario.at_once (Scenario.message Scenario.notification)))))
    = [JNull].
Proof. split; vm_compute; reflexivity. Qed.




(** C7, on the code.  A frame with a negative, zero, non-numeric or absent
    Content-Length is followed by a well-formed "initialize" request (id 1)
    and the close.  [read] returns [undefined] for the bad frame, which
    [run] takes for the end of the stream: it returns having written
    nothing, and the request that follows is never read. *)
Theorem bad_length_ends_the_loop :
  Forall
    (fun bad =>
       let '(r, w') :=
         Fragment.run (Scenario.at_once (bad ++ Scenario.message Scenario.initialize1)) in
       r = Fulfilled false
       ∧ written w' = []
       ∧ ∃ skipped, remaining w' = skipped ++ Scenario.message Scenario.initialize1)
    [ Scenario.raw "-5" (lit "hello");
      Scenario.raw "0" [];
      Scenario.raw "nope" (lit "{}");
      Scenario.no_length (lit "{}") ].
Proof.
  repeat constructor.
  - by exists (lit "hello").
  - by exists [].
  - by exists (lit "{}").
  - by exists (lit "{}").
Qed.

(* ===================================================================== *)
(** ** The transport never touches the output *)
(* ===================================================================== *)

Lemma interleave_written w : written (interleave w) = written w.
Proof.
  unfold interleave.
  by destruct (deliver_n (hd 0 (timing w)) (pending w) (stream w)).
Qed.

Lemma arrive_written w c w1 : arrive w = Some (c, w1) → written w1 = written w.
Proof.
  unfold arrive. destruct (pending w); [done|].
  destruct (deliver_n _ _ _). intros. by simplify_eq.
Qed.

Lemma await_events_written {A St} (L : Listeners A St) fuel : ∀ st w,
  written (snd (await_events L fuel st w)) = written w.
Proof.
  induction fuel as [|fuel IH]; intros st w; [done|].
  simpl. destruct (nextTick (stream w)) as [[] s1].
  - by destruct (on_end L st s1).
  - destruct (arrive (set_stream s1 w)) as [[[] w1]|] eqn:Ha; [| |done].
    + apply arrive_written in Ha.
      destruct (on_readable L st (stream w1)); simpl; [done|].
      by rewrite IH.
    + apply arrive_written in Ha. by rewrite IH.
Qed.

Lemma listen_written {A St} (L : Listeners A St) st w :
  written (snd (listen L st w)) = written w.
Proof.
  unfold listen. rewrite <- (interleave_written w).
  destruct (on_readable L st (stream (interleave w))); [done|].
  destruct (readableEnded s).
  - by destruct (on_end L st0 s).
  - by rewrite await_events_written.
Qed.

Lemma bind_written {A B} (m : Async A) (k : A → Async B) w :
  (∀ w, written (snd (m w)) = written w) →
  (∀ a w, written (snd (k a w)) = written w) →
  written (snd (bind m k w)) = written w.
Proof.
  intros Hm Hk. unfold bind. specialize (Hm w).
  destruct (m w) as [[a|e|] w']; simpl in *; [|done..].
  by rewrite Hk.
Qed.

Lemma readHeaders_loop_written fuel : ∀ headers w,
  written (snd (readHeaders_loop fuel headers w)) = written w.
Proof.
  induction fuel as [|fuel IH]; intros headers w; simpl;
    (apply bind_written; [intros; apply listen_written|]);
    intros [line|] w'; try done;
    destruct (decide (toString line = CRLF)); try done; try apply IH.
Qed.

Lemma drainBody_written w : written (snd (drainBody w)) = written w.
Proof.
  unfold drainBody. rewrite <- (interleave_written w).
  destruct (readableEnded (stream (interleave w))); [done|].
  destruct (negb (is_nil (buffer (stream (interleave w))))); [done|].
  destruct (ended (stream (interleave w))); [done|].
  by rewrite await_events_written.
Qed.

Lemma read_written JSON_parse w :
  written (snd (FramedJSONRPC_read JSON_parse w)) = written w.
Proof.
  unfold FramedJSONRPC_read.
  apply bind_written; [intros; apply readHeaders_loop_written|].
  intros [headers|] w'; [|done].
  destruct (invalid_length _).
  - apply bind_written; [apply drainBody_written|done].
  - apply bind_written; [intros; apply listen_written|].
    intros buf w''. by destruct (JSON_parse (toString buf)).
Qed.

Section output.
Variable JSON_parse : Str -> Json + Str.
Variable Number_toString : Z -> Str.
Variable primitive_member : Json -> Str -> Except Str.
Variable now : Str.
Variable srv : MCPServer.

Local Abbreviation run_loop :=
    (run_loop JSON_parse Number_toString primitive_member now srv).

  (** The loop only ever appends to the output. *)
Lemma run_loop_appends fuel : ∀ shuttingDown w,
    ∃ more, written (snd (run_loop fuel shuttingDown w)) = written w ++ more.
Proof.
    induction fuel as [|fuel IH]; intros sd w.
    - pose proof (read_written JSON_parse w) as Hw.
      simpl. unfold bind at 1.
      destruct (FramedJSONRPC_read JSON_parse w) as [[msg|e|] w1]; simpl in *;
        try (exists []; by rewrite app_nil_r).
      destruct (negb (truthy_opt msg)); [exists []; by rewrite app_nil_r|].
      destruct (is_method (default JNull msg) "__internal_parse_error__").
      + simpl. rewrite Hw. eauto.
      + unfold bind.
        destruct (handle_answers Number_toString primitive_member now srv sd
                    (default JNull msg) w1) as (sd' & resp & -> & _).
        destruct sd'; simpl; rewrite Hw; eauto.
    - pose proof (read_written JSON_parse w) as Hw.
      simpl. unfold bind at 1.
      destruct (FramedJSONRPC_read JSON_parse w) as [[msg|e|] w1]; simpl in *;
        try (exists []; by rewrite app_nil_r).
      destruct (negb (truthy_opt msg)); [exists []; by rewrite app_nil_r|].
      destruct (is_method (default JNull msg) "__internal_parse_error__").
      + simpl.
        destruct (IH sd (wrote (parse_error_response (prop "params" (default JNull msg))) w1))
          as (more & Hm).
        unfold wrote, parse_error_response in Hm. simpl in Hm.
        unfold sendError, FramedJSONRPC_write, bind. simpl.
        rewrite Hm, Hw, <- app_assoc. eauto.
      + unfold bind.
        destruct (handle_answers Number_toString primitive_member now srv sd
                    (default JNull msg) w1) as (sd' & resp & -> & _).
        destruct sd'; simpl; [rewrite Hw; eauto|].
        destruct (IH false (wrote resp w1)) as (more & Hm).
        rewrite Hm. simpl. rewrite Hw, <- app_assoc. eauto.
Qed.
End output.

Lemma nullish_some v : nullish (Some v) JNull = v.
Proof. by destruct v. Qed.

(** C8, as the code has it.  In a turn of the loop whose read returned a
    message, the next frame written is the response to that message.  If the
    message's method is not the reserved name "__internal_parse_error__",
    that response carries the message's identifier.  If it is, and in
    particular if the message stands for a frame whose body did not decode,
    the response carries the identifier null, the code -32700 and the
    message "Parse error". *)
Theorem response_carries_request_id
    (JSON_parse : Str -> Json + Str) (Number_toString : Z -> Str)
    (primitive_member : Json -> Str -> Except Str) (now : Str) (srv : MCPServer)
    (fuel : nat) (shuttingDown : bool) (w : World) (msg : Json) (w1 : World) :
  FramedJSONRPC_read JSON_parse w = (Fulfilled (Some msg), w1) →
  truthy msg = true →
  let out :=
    written (snd (run_loop JSON_parse Number_toString primitive_member now srv
                    fuel shuttingDown w)) in
  (is_method msg "__internal_parse_error__" = false →
   ∃ resp more,
     out = written w ++ resp :: more
     ∧ ∀ I, prop "id" msg = Some I → id resp = I)
  ∧ (is_method msg "__internal_parse_error__" = true
     ∨ (∃ body message,
          JSON_parse (toString body) = inr message
          ∧ msg = decode JSON_parse body) →
     ∃ data more,
       out = written w ++ mkResponse JNull (Error (-32700) (lit "Parse error") data)
                          :: more).
Proof.
  intros Hr Ht out.
  pose proof (read_written JSON_parse w) as Hw. rewrite Hr in Hw. simpl in Hw.
  split.
  - intros Hm. subst out.
    rewrite (run_loop_request _ _ _ _ _ _ _ _ msg w1 Hr Ht Hm).
    unfold bind.
    destruct (handle_answers Number_toString primitive_member now srv
                shuttingDown msg w1) as (sd' & resp & -> & Hid & _).
    assert (Hmore : ∃ more,
              written (snd (loop_on JSON_parse Number_toString primitive_member
                              now srv fuel sd' (wrote resp w1)))
              = written (wrote resp w1) ++ more).
    { unfold loop_on. destruct sd'; [exists []; by rewrite app_nil_r|].
      destruct fuel; [exists []; by rewrite app_nil_r|].
      apply run_loop_appends. }
    destruct Hmore as (more & ->). simpl. rewrite Hw, <- app_assoc.
    exists resp, more. split; [done|].
    intros I HI. by rewrite Hid, HI, nullish_some.
  - intros Hs.
    assert (Hm : is_method msg "__internal_parse_error__" = true).
    { destruct Hs as [?|(body & message & Hp & ->)]; [done|].
      unfold decode. by rewrite Hp. }
    subst out.
    rewrite (run_loop_sentinel _ _ _ _ _ _ _ _ msg w1 Hr Ht Hm).
    destruct fuel.
    + simpl. rewrite Hw. eauto.
    + destruct (run_loop_appends JSON_parse Number_toString primitive_member now srv
                  fuel shuttingDown
                  (wrote (parse_error_response (prop "params" msg)) w1))
        as (more & ->).
      simpl. rewrite Hw, <- app_assoc. eauto.
Qed.

Lemma response_carries_request_id_witness :
  let w := Scenario.at_once (Scenario.message Scenario.tools_list3) in
  let out := written (snd (Fragment.run w)) in
  truthy Scenario.tools_list3 = true
  ∧ (is_method Scenario.tools_list3 "__internal_parse_error__" = false →
     ∃ resp more,
       out = written w ++ resp :: more
       ∧ ∀ I, prop "id" Scenario.tools_list3 = Some I → id resp = I).
Proof.
  intros w out. split; [reflexivity|].
  destruct (FramedJSONRPC_read Fragment.JSON_parse w) as [r w1] eqn:Hr.
  assert (Hr' : r = Fulfilled (Some Scenario.tools_list3)).
  { apply (f_equal fst) in Hr. vm_compute in Hr. rewrite <- Hr. reflexivity. }
  subst r.
  exact (proj1 (response_carries_request_id Fragment.JSON_parse
                  Fragment.Number_toString Fragment.primitive_member Fragment.now
                  Fragment.server (world_size w) false w Scenario.tools_list3 w1
                  Hr eq_refl)).
Defined.

(** The request [{ jsonrpc: "2.0", id: 7, method: "__internal_parse_error__" }]
    carries the identifier 7 and is answered with the identifier null. *)
Lemma reserved_method_loses_id_counterexample :
  prop "id" Scenario.impostor = Some (JNum 7)
  ∧ written (snd (Fragment.run (Scenario.at_once (Scenario.message Scenario.impostor))))
    = [mkResponse JNull (Error (-32700) (lit "Parse error") None)].
Proof. split; vm_compute; reflexivity. Qed.

(* ===================================================================== *)
(** ** The close in the middle of a frame *)
(* ===================================================================== *)

Lemma header_line_not_blank n : toString (header_line n) ≠ CRLF.
Proof. unfold header_line, toString. simpl. discriminate. Qed.

(** The close inside the header block: [readHeaders] gives [null]. *)
Lemma readHeaders_cut_short w n p q :
  quiet w → will_close w → q ≠ [] →
  header_line n ++ CRLF = p ++ q →
  remaining w = p →
  ∃ w', readHeaders w = (Fulfilled None, w') ∧ left_of w w' [].
Proof.
  intros Hq Hc Hne Hsplit Hrem.
  destruct (decimal_spec n) as (_ & Hall & _).
  set (h := lit "Content-Length" ++ ":"%char :: " "%char :: decimal n ++ [CR]).
  assert (Hh : header_line n = h ++ [LF]).
  { unfold header_line, h, CRLF. rewrite <- !app_assoc. simpl.
    by rewrite <- !app_assoc. }
  assert (Hfree : Forall (fun c => c ≠ LF) h).
  { unfold h. apply Forall_app. split; [by repeat constructor|].
    repeat (apply Forall_cons; split; [done|]).
    apply Forall_app. split; [|by repeat constructor].
    eapply Forall_impl; [exact Hall|]. intros c Hd. by apply (digit_neq _ _ Hd). }
  assert (Hno : ∀ x, Forall (fun c => c ≠ LF) x → cut_line x = None).
  { induction x as [|c x IH]; intros Hx; [done|].
    apply Forall_cons in Hx as [Hc' Hx]. simpl.
    destruct (decide (c = LF)); [done|]. by rewrite IH. }
  rewrite Hh, <- app_assoc in Hsplit.
  symmetry in Hsplit. apply app_eq_app in Hsplit as [k [[Hpk Hk]|[Hpk Hk]]].
  2:{ (* the close inside the first line *)
      apply readHeaders_eof; auto. rewrite Hrem. apply Hno.
      rewrite Hpk in Hfree. apply Forall_app in Hfree. tauto. }
  - destruct k as [|c1 k].
    { (* the close just before the end of the first line *)
      apply readHeaders_eof; auto. rewrite Hrem, Hpk, app_nil_r. by apply Hno. }
    (* the first line is complete; the blank line is not *)
    assert (Hk' : p = h ++ [LF] ∨ p = h ++ [LF; CR]).
    { rewrite Hpk. simpl in Hk. injection Hk as <- Hk.
      destruct k as [|c2 k]; [by left|].
      injection Hk as <- Hk.
      destruct k as [|c3 k]; [by right|].
      injection Hk as <- Hk. destruct k; [|done]. by destruct q. }
    assert (Hp : ∃ tail, remaining w = header_line n ++ tail ∧ cut_line tail = None).
    { rewrite Hrem, Hh.
      destruct Hk' as [->| ->]; [exists []|exists [CR]]; split; try done;
        by rewrite <- ?app_assoc, ?app_nil_r. }
    destruct Hp as (tail & Hrem' & Htail).
    pose proof (readLine_spec w Hq) as H1.
    rewrite Hrem', header_line_cut in H1.
    destruct H1 as (w1 & Hr1 & Hl1).
    pose proof (readLine_spec w1 (left_quiet _ _ _ Hl1)) as H2.
    rewrite (left_remaining _ _ _ Hl1), Htail in H2.
    destruct (H2 (left_close _ _ _ Hl1 Hc)) as (w2 & Hr2 & Hl2).
    exists w2. split; [|by eapply left_of_trans].
    unfold readHeaders.
    pose proof (world_size_remaining w) as Hsize.
    destruct (world_size w) as [|fuel].
    { rewrite Hrem', length_app in Hsize. unfold header_line in Hsize.
      rewrite !length_app in Hsize. simpl in Hsize. lia. }
    simpl. unfold bind at 1. rewrite Hr1.
    destruct (decide (toString (header_line n) = CRLF)) as [Heq|_];
      [by apply header_line_not_blank in Heq|].
    destruct fuel; simpl; unfold bind; by rewrite Hr2.
Qed.

(** C10.  The input carries a complete header block with a positive
    Content-Length [n], a length that a JavaScript number holds exactly, and
    fewer than [n] bytes of body, and is then closed (in any chunking and
    schedule).  [read] rejects with "Stream ended", and
    so does [run], which has written no response.  When the close falls
    inside the header block instead, [read] returns the end-of-stream signal
    and [run] returns normally. *)
Theorem close_inside_body_rejects
    (JSON_parse : Str -> Json + Str) (Number_toString : Z -> Str)
    (primitive_member : Json -> Str -> Except Str) (now : Str) (srv : MCPServer)
    (objectMode : bool) (timing : list nat) (n : nat) (partial : Buffer)
    (chunks : list Buffer) (p q : Buffer) (chunks' : list Buffer) :
  (Z.of_nat n <= MAX_SAFE_INTEGER)%Z →
  length partial < n →
  concat chunks = lit "Content-Length: " ++ decimal n ++ CRLF ++ CRLF ++ partial →
  q ≠ [] →
  lit "Content-Length: " ++ decimal n ++ CRLF ++ CRLF = p ++ q →
  concat chunks' = p →
  (∃ w1 w2,
     FramedJSONRPC_read JSON_parse
       (connect objectMode (map Data chunks ++ [End]) timing)
     = (Rejected (lit "Stream ended"), w1)
     ∧ run JSON_parse Number_toString primitive_member now srv
         (connect objectMode (map Data chunks ++ [End]) timing)
       = (Rejected (lit "Stream ended"), w2)
     ∧ written w2 = [])
  ∧ (∃ w1 w2,
       FramedJSONRPC_read JSON_parse
         (connect objectMode (map Data chunks' ++ [End]) timing)
       = (Fulfilled None, w1)
       ∧ run JSON_parse Number_toString primitive_member now srv
           (connect objectMode (map Data chunks' ++ [End]) timing)
         = (Fulfilled false, w2)
       ∧ written w2 = []).
Proof.
  intros _ Hlen Hchunks Hq Hsplit Hchunks'.
  assert (Hblock : ∀ x, lit "Content-Length: " ++ decimal n ++ CRLF ++ CRLF ++ x
                        = header_line n ++ CRLF ++ x).
  { intros x. pose proof (frame_header (replicate n zero ++ x)) as H.
    unfold frame in H. unfold header_line in *.
    change (lit "Content-Length: ") with (lit "Content-Length" ++ [":"%char; " "%char]).
    rewrite <- !app_assoc. simpl. by rewrite <- !app_assoc. }
  split.
  - destruct (connect_spec objectMode chunks timing) as (Hquiet & Hc & Hrem).
    rewrite Hchunks, Hblock in Hrem.
    destruct (read_truncated JSON_parse _ n partial Hquiet Hc Hlen Hrem)
      as (w1 & Hr & Hl).
    exists w1, w1. split; [done|]. split.
    + unfold run. by apply run_loop_rejected.
    + by rewrite (left_written _ _ _ Hl).
  - destruct (connect_spec objectMode chunks' timing) as (Hquiet & Hc & Hrem).
    rewrite Hchunks' in Hrem.
    pose proof (Hblock []) as Hb. rewrite !app_nil_r in Hb.
    rewrite Hb in Hsplit.
    destruct (readHeaders_cut_short _ n p q Hquiet Hc Hq Hsplit Hrem)
      as (w1 & Hr & Hl).
    assert (Hread : FramedJSONRPC_read JSON_parse
                      (connect objectMode (map Data chunks' ++ [End]) timing)
                    = (Fulfilled None, w1)).
    { unfold FramedJSONRPC_read, bind. by rewrite Hr. }
    exists w1, w1. split; [done|]. split.
    + unfold run. by apply run_loop_end.
    + by rewrite (left_written _ _ _ Hl).
Qed.

Lemma close_inside_body_rejects_witness :
  let block := lit "Content-Length: " ++ decimal 46 ++ CRLF ++ CRLF in
  let partial := take 20 (Fragment.JSON_stringify Scenario.initialize1) in
  let chunks := [take 10 block; drop 10 block ++ partial] in
  let p := take 19 block in
  let q := drop 19 block in
  (Z.of_nat 46 <= MAX_SAFE_INTEGER)%Z
  ∧ length partial < 46
  ∧ concat chunks = block ++ partial
  ∧ q ≠ []
  ∧ block = p ++ q
  ∧ (∃ w1 w2,
       FramedJSONRPC_read Fragment.JSON_parse
         (connect false (map Data chunks ++ [End]) [1; 1])
       = (Rejected (lit "Stream ended"), w1)
       ∧ Fragment.run (connect false (map Data chunks ++ [End]) [1; 1])
         = (Rejected (lit "Stream ended"), w2)
       ∧ written w2 = [])
  ∧ (∃ w1 w2,
       FramedJSONRPC_read Fragment.JSON_parse
         (connect false (map Data [p] ++ [End]) [1; 1])
       = (Fulfilled None, w1)
       ∧ Fragment.run (connect false (map Data [p] ++ [End]) [1; 1])
         = (Fulfilled false, w2)
       ∧ written w2 = []).
Proof.
  intros block partial chunks p q.
  assert (H0 : (Z.of_nat 46 <= MAX_SAFE_INTEGER)%Z) by (vm_compute; discriminate).
  assert (H1 : length partial < 46) by (vm_compute; lia).
  assert (H2 : concat chunks = block ++ partial) by (vm_compute; reflexivity).
  assert (H3 : q ≠ []) by (vm_compute; discriminate).
  assert (H4 : block = p ++ q) by (vm_compute; reflexivity).
  split; [exact H0|].
  split; [exact H1|]. split; [exact H2|]. split; [exact H3|]. split; [exact H4|].
  apply (close_inside_body_rejects Fragment.JSON_parse Fragment.Number_toString
           Fragment.primitive_member Fragment.now Fragment.server false [1; 1]
           46 partial chunks p q [p]).
  - exact H0.
  - exact H1.
  - rewrite H2. unfold block. by rewrite <- !app_assoc.
  - exact H3.
  - exact H4.
  - vm_compute. reflexivity.
Defined.

(* ===================================================================== *)
(** ** Registries *)
(* ===================================================================== *)

Lemma Map_get_set_eq {V} k (v : V) m : Map_get k (Map_set k v m) = Some v.
Proof.
  unfold Map_get. induction m as [|[k' v'] m IH]; simpl.
  - by destruct (decide (k = k)).
  - destruct (decide (k' = k)) as [->|Hne]; simpl.
    + by destruct (decide (k = k)).
    + by destruct (decide (k' = k)).
Qed.

Lemma Map_get_set_ne {V} k k' (v : V) m :
  k ≠ k' → Map_get k' (Map_set k v m) = Map_get k' m.
Proof.
  intros Hne. unfold Map_get. induction m as [|[k0 v0] m IH]; simpl.
  - by destruct (decide (k = k')).
  - destruct (decide (k0 = k)) as [->|Hne0]; simpl.
    + destruct (decide (k = k')); [done|done].
    + destruct (decide (k0 = k')); [done|]. apply IH.
Qed.

Lemma Map_set_keys {V} k (v : V) m :
  map fst (Map_set k v m)
  = if bool_decide (k ∈ map fst m) then map fst m else map fst m ++ [k].
Proof.
  induction m as [|[k' v'] m IH]; simpl; [done|].
  destruct (decide (k' = k)) as [->|Hne]; simpl.
  - rewrite bool_decide_eq_true_2; [done|]. apply elem_of_cons. by left.
  - rewrite IH. destruct (bool_decide (k ∈ map fst m)) eqn:E.
    + apply bool_decide_eq_true in E.
      rewrite bool_decide_eq_true_2; [done|]. apply elem_of_cons. by right.
    + apply bool_decide_eq_false in E.
      rewrite bool_decide_eq_false_2; [done|].
      intros Hin. apply elem_of_cons in Hin as [?|?]; [congruence|done].
Qed.

(** C5, on the code.  [ResourceRegistry.register] pushes every definition on
    the [resources] array and only the [readers] map replaces: after two
    registrations under one URI, [list()] holds both definitions, the
    earlier one first, while [read] of that URI calls the later reader. *)
Theorem resource_registered_twice_is_listed_twice
    (d1 d2 : ResourceDef) (r1 r2 : ResourceReader) :
  res_uri d1 = res_uri d2 →
  let reg := ResourceRegistry.register d2 r2
               (ResourceRegistry.register d1 r1 ResourceRegistry.empty) in
  ResourceRegistry.list reg = [d1; d2]
  ∧ ResourceRegistry.read reg (res_uri d2) = r2 (res_uri d2).
Proof.
  intros Huri reg. split; [done|].
  unfold ResourceRegistry.read, ResourceRegistry.find_match, reg. simpl.
  rewrite Huri. rewrite bool_decide_eq_true_2 by done. simpl.
  rewrite Huri. destruct (decide (res_uri d2 = res_uri d2)); [|done]. simpl.
  unfold Map_get. simpl. by destruct (decide (res_uri d2 = res_uri d2)).
Qed.

Lemma resource_registered_twice_is_listed_twice_witness :
  let reg := ResourceRegistry.register Mem.second (Mem.reader "second:")
               (ResourceRegistry.register Mem.first (Mem.reader "first:")
                  ResourceRegistry.empty) in
  res_uri Mem.first = res_uri Mem.second
  ∧ ResourceRegistry.list reg = [Mem.first; Mem.second]
  ∧ ResourceRegistry.read reg (lit "mem://")
    = Ok (mkResourceContent (lit "mem://") (Some (lit "text/plain"))
            (Some (lit "second:mem://"))).
Proof.
  intros reg. split; [reflexivity|].
  exact (resource_registered_twice_is_listed_twice Mem.first Mem.second
           (Mem.reader "first:") (Mem.reader "second:") eq_refl).
Defined.

Lemma Map_set_has_key {V} k (v : V) m : k ∈ map fst (Map_set k v m).
Proof.
  rewrite Map_set_keys. case_bool_decide; [done|].
  apply elem_of_app. right. by apply list_elem_of_singleton.
Qed.

(** The sibling registries do replace: a second registration under the same
    name leaves the keys as they were, and the name then maps to the later
    definition and handler. *)
Lemma tool_registered_twice (d1 d2 : ToolDef) (h1 h2 : ToolHandler) (reg : ToolRegistry.t) :
  tool_name d1 = tool_name d2 →
  let reg1 := ToolRegistry.register d1 h1 reg in
  let reg2 := ToolRegistry.register d2 h2 reg1 in
  map fst reg2 = map fst reg1
  ∧ length (ToolRegistry.list reg2) = length (ToolRegistry.list reg1)
  ∧ Map_get (tool_name d2) reg2 = Some (d2, h2).
Proof.
  intros Hn reg1 reg2.
  assert (Hk : map fst reg2 = map fst reg1).
  { unfold reg2, ToolRegistry.register. rewrite Map_set_keys.
    rewrite bool_decide_eq_true_2; [done|].
    unfold reg1, ToolRegistry.register. rewrite Hn. apply Map_set_has_key. }
  split; [done|]. split; [|apply Map_get_set_eq].
  unfold ToolRegistry.list, Map_values. rewrite !length_map.
  by rewrite <- (length_map fst reg2), Hk, length_map.
Qed.

(* ===================================================================== *)
(** ** renderTemplate *)
(* ===================================================================== *)

Lemma span_word_name k r :
  Forall (fun c => is_word c = true) k →
  match r with [] => True | c :: _ => is_word c = false end →
  span_word (k ++ r) = (k, r).
Proof.
  intros Hk Hr. induction k as [|c k IH]; simpl.
  - destruct r as [|c r]; [done|]. simpl. by rewrite Hr.
  - apply Forall_cons in Hk as [Hc Hk]. by rewrite Hc, (IH Hk).
Qed.

Lemma span_word_spec s k r :
  span_word s = (k, r) →
  s = k ++ r ∧ Forall (fun c => is_word c = true) k
  ∧ match r with [] => True | c :: _ => is_word c = false end.
Proof.
  revert k r. induction s as [|c s IH]; intros k r H; simpl in H.
  - by simplify_eq.
  - destruct (is_word c) eqn:Hc.
    + destruct (span_word s) as [k' r'] eqn:E. simplify_eq.
      destruct (IH _ _ eq_refl) as (-> & Hk & Hr).
      split_and!; auto.
    + simplify_eq. split_and!; auto.
Qed.

Lemma match_placeholder_at k post :
  is_name k → match_placeholder (placeholder k ++ post) = Some (k, post).
Proof.
  intros [Hne Hk]. unfold placeholder.
  change (lit "{{") with ["{"%char; "{"%char].
  change (lit "}}") with ["}"%char; "}"%char].
  rewrite <- !app_assoc. simpl.
  rewrite (span_word_name k ("}"%char :: "}"%char :: post) Hk eq_refl).
  by destruct k.
Qed.

Lemma match_placeholder_spec s k r :
  match_placeholder s = Some (k, r) → s = placeholder k ++ r ∧ is_name k.
Proof.
  unfold match_placeholder. intros H.
  destruct s as [|c1 [|c2 s1]]; try done.
  destruct (bool_decide (c1 = "{"%char)) eqn:E1; [|done].
  destruct (bool_decide (c2 = "{"%char)) eqn:E2; [|done].
  apply bool_decide_eq_true in E1, E2. subst. simpl in H.
  destruct (span_word s1) as [[|k1 k'] [|c3 [|c4 s2]]] eqn:E; try done.
  destruct (bool_decide (c3 = "}"%char)) eqn:E3; [|done].
  destruct (bool_decide (c4 = "}"%char)) eqn:E4; [|done].
  apply bool_decide_eq_true in E3, E4. simpl in H. simplify_eq.
  destruct (span_word_spec _ _ _ E) as (-> & Hk & _).
  split; [|by split].
  unfold placeholder. change (lit "{{") with ["{"%char; "{"%char].
  change (lit "}}") with ["}"%char; "}"%char].
  rewrite <- !app_assoc. done.
Qed.

Lemma plain_tail c s : plain (c :: s) → plain s.
Proof.
  intros H pre k post Hk ->. by apply (H (c :: pre) k post Hk).
Qed.

(** No match begins inside a plain text, also when a placeholder follows. *)
Lemma no_match_inside c l X :
  plain (c :: l) →
  (X = [] ∨ ∃ k T, is_name k ∧ X = placeholder k ++ T) →
  match_placeholder (c :: l ++ X) = None.
Proof.
  intros Hplain HX.
  destruct (match_placeholder (c :: l ++ X)) as [[k' r']|] eqn:E; [|done].
  exfalso. apply match_placeholder_spec in E as [E [Hne' Hk']].
  change (c :: l ++ X) with ((c :: l) ++ X) in E.
  apply app_eq_app in E as [m [[Hl Hr]|[Hp HXm]]].
  - apply (Hplain [] k' m (conj Hne' Hk')). by rewrite Hl.
  - destruct m as [|x m].
    { rewrite app_nil_r in Hp. apply (Hplain [] k' [] (conj Hne' Hk')).
      by rewrite Hp, app_nil_r. }
    destruct HX as [->|(k & T & [Hne Hk] & ->)]; [done|].
    unfold placeholder in *.
    change (lit "{{") with ["{"%char; "{"%char] in *.
    change (lit "}}") with ["}"%char; "}"%char] in *.
    simpl in HXm, Hp. injection HXm as <- HXm.
    injection Hp as <- Hp.
    destruct l as [|c' l].
    + (* the match would begin one character before the placeholder *)
      simpl in Hp. injection Hp as Hp.
      destruct k' as [|y k']; [done|].
      simpl in Hp. subst m. simpl in HXm. injection HXm as <- _.
      apply Forall_cons in Hk' as [Hy _]. done.
    + (* a second opening brace would sit among the name or the closing braces *)
      simpl in Hp. injection Hp as <- Hp.
      assert (Hin : "{"%char ∈ k' ++ ["}"%char; "}"%char]).
      { rewrite Hp. apply elem_of_app. right. apply elem_of_cons. by left. }
      apply elem_of_app in Hin as [Hin|Hin].
      * apply (proj1 (Forall_forall _ _) Hk') in Hin. done.
      * apply elem_of_cons in Hin as [?|Hin]; [done|].
        apply elem_of_cons in Hin as [?|Hin]; [done|].
        by apply elem_of_nil in Hin.
Qed.

Section render.
Variable Number_toString : Z -> Str.
Variable primitive_member : Json -> Str -> Except Str.
Variable vars : Json.

Local Abbreviation replace_all :=
    (replace_all Number_toString primitive_member vars).

Lemma replace_all_skip s : ∀ T,
    replace_all (length s) (s ++ T) = replace_all 0 T.
Proof. induction s as [|c s IH]; intros T; [done|]. simpl. apply IH. Qed.

Lemma replace_all_cons c tpl :
    replace_all 0 (c :: tpl)
    = match match_placeholder (c :: tpl) with
      | Some (k, _) =>
          ebind (replacement Number_toString primitive_member vars k) (fun v =>
          ebind (replace_all (length k + 3) tpl) (fun r => Ok (v ++ r)))
      | None => ebind (replace_all 0 tpl) (fun r => Ok (c :: r))
      end.
Proof. reflexivity. Qed.

Lemma replace_all_plain l : ∀ X,
    plain l →
    (X = [] ∨ ∃ k T, is_name k ∧ X = placeholder k ++ T) →
    replace_all 0 (l ++ X) = ebind (replace_all 0 X) (fun r => Ok (l ++ r)).
Proof.
    induction l as [|c l IH]; intros X Hplain HX.
    - simpl. by destruct (replace_all 0 X).
    - change ((c :: l) ++ X) with (c :: l ++ X).
      rewrite replace_all_cons, (no_match_inside c l X Hplain HX).
      rewrite (IH X (plain_tail _ _ Hplain) HX).
      by destruct (replace_all 0 X).
Qed.

Lemma replace_all_placeholder k T :
    is_name k →
    replace_all 0 (placeholder k ++ T)
    = ebind (replacement Number_toString primitive_member vars k) (fun v =>
      ebind (replace_all 0 T) (fun r => Ok (v ++ r))).
Proof.
    intros Hk.
    pose proof (match_placeholder_at k T Hk) as Hm.
    assert (Hshape : placeholder k ++ T
                     = "{"%char :: ("{"%char :: k ++ ["}"%char; "}"%char]) ++ T).
    { unfold placeholder. change (lit "{{") with ["{"%char; "{"%char].
      change (lit "}}") with ["}"%char; "}"%char].
      simpl. by rewrite <- !app_assoc. }
    rewrite Hshape in *. rewrite replace_all_cons, Hm.
    replace (length k + 3) with (length ("{"%char :: k ++ ["}"%char; "}"%char]))
      by (simpl; rewrite length_app; simpl; lia).
    by rewrite replace_all_skip.
Qed.
End render.

(** C9, as the code has it.  A template is cut at its placeholders into
    plain texts and names.  For variables given as an object, rendering
    keeps every plain text and puts, for each placeholder {{k}}, the string
    coercion of the variable k when it is present and not null, and nothing
    when it is null or absent, as long as an absent k is not the name of a
    property every object inherits; the substituted text is not scanned
    again.  [PromptRegistry.get] returns the name with that content. *)
Theorem render_replaces_every_placeholder
    (Number_toString : Z -> Str) (primitive_member : Json -> Str -> Except Str)
    (prompts : PromptRegistry.t) (name : Str) (def : PromptDef)
    (parts : list (Str * Str)) (last : Str) (fields : list (Str * Json)) :
  Map_get name prompts = Some (def, template parts last) →
  Forall (fun part =>
            plain (fst part) ∧ is_name (snd part)
            ∧ (assoc (snd part) fields = None → Object_prototype (snd part) = None))
    parts →
  plain last →
  renderTemplate Number_toString primitive_member (template parts last) (JObj fields)
  = rendered Number_toString fields parts last
  ∧ PromptRegistry.get Number_toString primitive_member prompts name (JObj fields)
    = ebind (rendered Number_toString fields parts last)
        (fun content => Ok (name, content)).
Proof.
  intros Hget Hparts Hlast.
  assert (Hrender : renderTemplate Number_toString primitive_member
                      (template parts last) (JObj fields)
                    = rendered Number_toString fields parts last).
  { unfold renderTemplate. clear Hget.
    induction parts as [|[text k] parts IH]; cbn [template rendered].
    - rewrite <- (app_nil_r last) at 1.
      rewrite (replace_all_plain _ _ _ last [] Hlast (or_introl eq_refl)).
      simpl. by rewrite app_nil_r.
    - apply Forall_cons in Hparts as [(Htext & Hk & Hproto) Hparts].
      simpl in Htext, Hk, Hproto.
      rewrite (replace_all_plain _ _ _ text _ Htext
                 (or_intror (ex_intro _ k (ex_intro _ _ (conj Hk eq_refl))))).
      rewrite (replace_all_placeholder _ _ _ k _ Hk), (IH Hparts).
      assert (Hv : replacement Number_toString primitive_member (JObj fields) k
                   = variable_text Number_toString fields k).
      { unfold replacement, variable_text.
        destruct (assoc k fields) as [v|]; [done|]. by rewrite Hproto. }
      rewrite Hv.
      destruct (variable_text Number_toString fields k) as [v|e]; [|done].
      simpl. by destruct (rendered Number_toString fields parts last). }
  split; [done|].
  unfold PromptRegistry.get. by rewrite Hget, Hrender.
Qed.

Lemma no_placeholder_cons c s :
  no_placeholder (c :: s)
  = match match_placeholder (c :: s) with
    | Some _ => false
    | None => no_placeholder s
    end.
Proof. reflexivity. Qed.

Lemma no_placeholder_plain s : no_placeholder s = true → plain s.
Proof.
  intros H pre k post Hk ->. induction pre as [|c pre IH].
  - change ([] ++ placeholder k ++ post) with (placeholder k ++ post) in H.
    pose proof (match_placeholder_at k post Hk) as Hm.
    destruct (placeholder k ++ post) as [|c s]; [done|].
    by rewrite no_placeholder_cons, Hm in H.
  - change ((c :: pre) ++ placeholder k ++ post)
      with (c :: pre ++ placeholder k ++ post) in H.
    rewrite no_placeholder_cons in H.
    destruct (match_placeholder (c :: pre ++ placeholder k ++ post)); [done|].
    by apply IH.
Qed.

Lemma render_replaces_every_placeholder_witness :
  let text := lit "You are a helpful assistant. Persona: " in
  let fields := [(lit "persona", JStr (lit "pirate"))] in
  plain text ∧ is_name (lit "persona")
  ∧ PromptRegistry.get Fragment.Number_toString Fragment.primitive_member
      (registerPrompts PromptRegistry.empty) (lit "system-instructions") (JObj fields)
    = Ok (lit "system-instructions",
          lit "You are a helpful assistant. Persona: pirate").
Proof.
  intros text fields.
  assert (Hplain : plain text) by (apply no_placeholder_plain; reflexivity).
  assert (Hname : is_name (lit "persona")) by (split; [done|by repeat constructor]).
  split; [exact Hplain|]. split; [exact Hname|].
  refine (proj2 (render_replaces_every_placeholder Fragment.Number_toString
                   Fragment.primitive_member
                   (registerPrompts PromptRegistry.empty) (lit "system-instructions")
                   (mkPromptDef (lit "system-instructions")
                      (Some (lit "System instructions with persona"))
                      (Some [mkPromptVar (lit "persona")
                               (Some (lit "assistant persona")) (Some false)]))
                   [(text, lit "persona")] [] fields eq_refl _ _)).
  - repeat constructor; try done; by apply Hname.
  - apply no_placeholder_plain. reflexivity.
Defined.

(** The built-in prompt "system-instructions" is rendered with
    [variables = { persona: null }]: the variable is present, its string
    coercion is "null", and the placeholder is replaced by nothing. *)
Lemma null_variable_counterexample :
  let fields := [(lit "persona", JNull)] in
  assoc (lit "persona") fields = Some JNull
  ∧ JS_String Fragment.Number_toString JNull = Ok (lit "null")
  ∧ PromptRegistry.get Fragment.Number_toString Fragment.primitive_member
      (registerPrompts PromptRegistry.empty) (lit "system-instructions") (JObj fields)
    = Ok (lit "system-instructions", lit "You are a helpful assistant. Persona: ").
Proof. split_and!; vm_compute; reflexivity. Qed.

(* ===================================================================== *)
(** ** path.resolve and the sandbox *)
(* ===================================================================== *)

Lemma startsWith_true s p : startsWith s p = true ↔ ∃ rest, s = p ++ rest.
Proof.
  unfold startsWith. rewrite bool_decide_eq_true. split.
  - intros H. exists (drop (length p) s). by rewrite <- H at 1; rewrite take_drop.
  - intros [rest ->]. by rewrite take_app_length.
Qed.

Lemma split_no_sep sep0 s : Forall (fun seg => sep0 ∉ seg) (split sep0 s).
Proof.
  induction s as [|c s IH]; simpl.
  - repeat constructor. apply not_elem_of_nil.
  - destruct (decide (c = sep0)) as [->|Hne].
    + constructor; [apply not_elem_of_nil|done].
    + destruct (split sep0 s) as [|x l].
      * repeat constructor. intros Hin. apply list_elem_of_singleton in Hin. done.
      * apply Forall_cons in IH as [Hx Hl]. constructor; [|done].
        intros Hin. apply elem_of_cons in Hin as [?|?]; done.
Qed.

Lemma last_app_singleton {A} (l : list A) x : last (l ++ [x]) = Some x.
Proof. induction l as [|y [|z l] IH]; simpl in *; auto. Qed.

Lemma removelast_segments (stack : list Str) :
  Forall is_segment stack → Forall is_segment (removelast stack).
Proof.
  induction stack as [|x [|y stack] IH]; intros H; simpl; auto.
  apply Forall_cons in H as [Hx H]. constructor; auto.
Qed.

Lemma normalize_step_segments stack seg :
  Forall is_segment stack → "/"%char ∉ seg →
  Forall is_segment (normalize_step false stack seg).
Proof.
  intros Hst Hseg. unfold normalize_step.
  destruct (bool_decide (seg = [])) eqn:E1; [done|].
  destruct (bool_decide (seg = dot)) eqn:E2; [done|]. simpl.
  apply bool_decide_eq_false in E1, E2.
  destruct (bool_decide (seg = dotdot)) eqn:E3.
  - destruct (last stack) as [l|] eqn:El; [|constructor].
    destruct (bool_decide (l = dotdot)) eqn:E4; [|by apply removelast_segments].
    apply bool_decide_eq_true in E4. subst l. exfalso.
    apply last_Some in El as [stack' ->].
    apply Forall_app in Hst as [_ Hl]. apply Forall_cons in Hl as [(_ & _ & Hl & _) _].
    done.
  - apply bool_decide_eq_false in E3.
    apply Forall_app. split; [done|]. by repeat constructor.
Qed.

Lemma fold_normalize_segments segs : ∀ stack,
  Forall is_segment stack → Forall (fun seg => "/"%char ∉ seg) segs →
  Forall is_segment (fold_left (normalize_step false) segs stack).
Proof.
  induction segs as [|seg segs IH]; intros stack Hst Hsegs; [done|].
  apply Forall_cons in Hsegs as [Hseg Hsegs]. simpl.
  apply IH; [|done]. by apply normalize_step_segments.
Qed.

(** An absolute result of [resolve] is "/" followed by proper segments. *)
Lemma resolve_absolute cwd args :
  snd (resolve_segments cwd args) = true →
  resolve cwd args = absolute_path (fst (resolve_segments cwd args))
  ∧ Forall is_segment (fst (resolve_segments cwd args)).
Proof.
  unfold resolve, resolve_segments.
  destruct (resolve_collect (rev args) cwd []) as [rp abs]. simpl.
  intros ->. split; [done|]. simpl.
  apply fold_normalize_segments; [constructor|apply split_no_sep].
Qed.

Lemma resolve_one_absolute cwd x :
  isAbsolute cwd = true → snd (resolve_segments cwd [x]) = true.
Proof.
  intros Hcwd. unfold resolve_segments. simpl.
  assert (Hc : is_nil cwd = false) by by destruct cwd.
  destruct (is_nil x); [by rewrite Hc|].
  destruct (isAbsolute x); [done|]. by rewrite Hc.
Qed.

Lemma resolve_under_absolute cwd base p :
  isAbsolute base = true → snd (resolve_segments cwd [base; p]) = true.
Proof.
  intros Hbase. unfold resolve_segments. simpl.
  assert (Hb : is_nil base = false) by by destruct base.
  destruct (is_nil p); [by rewrite Hb, Hbase|].
  destruct (isAbsolute p); [done|]. by rewrite Hb, Hbase.
Qed.

Lemma join_cons (x y : Str) l :
  join (lit "/") (x :: y :: l) = x ++ "/"%char :: join (lit "/") (y :: l).
Proof. reflexivity. Qed.

(** Where two texts agree, their first separator is at the same place. *)
Lemma first_separator (a b x y : Str) :
  "/"%char ∉ a → "/"%char ∉ b →
  (x = [] ∨ ∃ x', x = "/"%char :: x') →
  a ++ x = b ++ "/"%char :: y →
  a = b ∧ x = "/"%char :: y.
Proof.
  revert b. induction a as [|c a IH]; intros b Ha Hb Hx H.
  - destruct b as [|d b]; [done|]. exfalso. simpl in H.
    destruct Hx as [->|[x' ->]]; [done|]. injection H as <- _.
    apply Hb. apply elem_of_cons. by left.
  - destruct b as [|d b].
    + exfalso. simpl in H. injection H as -> _. apply Ha. apply elem_of_cons. by left.
    + simpl in H. injection H as -> H.
      destruct (IH b) as [-> ->]; auto.
      * intros Hin. apply Ha. apply elem_of_cons. by right.
      * intros Hin. apply Hb. apply elem_of_cons. by right.
Qed.

Lemma join_shape (segs : list Str) :
  Forall is_segment segs →
  match segs with
  | [] => join (lit "/") segs = []
  | s :: segs' =>
      ∃ x, join (lit "/") segs = s ++ x
           ∧ (segs' = [] ∧ x = []
              ∨ segs' ≠ [] ∧ x = "/"%char :: join (lit "/") segs')
  end.
Proof.
  intros _. destruct segs as [|s [|s' segs]]; [done| |].
  - exists []. simpl. rewrite app_nil_r. auto.
  - exists ("/"%char :: join (lit "/") (s' :: segs)). split; [apply join_cons|].
    right. done.
Qed.

(** A path that begins with a base and a separator lies under that base,
    segment by segment. *)
Lemma under_base B : ∀ segs rest,
  Forall is_segment B → Forall is_segment segs → B ≠ [] →
  join (lit "/") segs = join (lit "/") B ++ "/"%char :: rest →
  B `prefix_of` segs.
Proof.
  induction B as [|b B IH]; intros segs rest HB Hsegs Hne H; [done|].
  apply Forall_cons in HB as [(Hb0 & _ & _ & Hb) HB].
  destruct segs as [|s segs].
  { simpl in H. destruct B; simpl in H; by destruct b. }
  pose proof Hsegs as Hsegs'.
  apply Forall_cons in Hsegs' as [(_ & _ & _ & Hs) Hsegs'].
  destruct (join_shape (s :: segs) Hsegs) as (x & Hj & Hx). rewrite Hj in H.
  destruct B as [|b' B].
  - change (join (lit "/") [b]) with b in H.
    destruct (first_separator s b x rest Hs Hb) as [-> _]; auto.
    { destruct Hx as [[_ ->]|[_ ->]]; eauto. }
    by apply prefix_cons, prefix_nil.
  - rewrite join_cons, <- app_assoc in H. cbn [app] in H.
    assert (Hx0 : x = [] ∨ ∃ x', x = "/"%char :: x').
    { destruct Hx as [[_ ->]|[_ ->]]; eauto. }
    destruct (first_separator s b x _ Hs Hb Hx0 H) as [-> Hx'].
    destruct Hx as [[_ ->]|[Hsegs0 ->]]; [done|].
    injection Hx' as Hx'.
    apply prefix_cons. eapply IH; eauto.
Qed.

Lemma same_base B : ∀ segs,
  Forall is_segment B → Forall is_segment segs →
  join (lit "/") segs = join (lit "/") B → segs = B.
Proof.
  induction B as [|b B IH]; intros segs HB Hsegs H.
  - destruct segs as [|s [|s' segs]]; [done| |].
    + simpl in H. subst s. apply Forall_cons in Hsegs as [(Hs & _) _]. done.
    + rewrite join_cons in H. simpl in H.
      apply Forall_cons in Hsegs as [(Hs & _) _]. by destruct s.
  - pose proof HB as HB'. apply Forall_cons in HB' as [(Hb0 & _ & _ & Hb) HB'].
    destruct segs as [|s segs].
    { simpl in H. destruct B; simpl in H; by destruct b. }
    pose proof Hsegs as Hsegs'.
    apply Forall_cons in Hsegs' as [(Hs0 & _ & _ & Hs) Hsegs'].
    destruct (join_shape (s :: segs) Hsegs) as (x & Hj & Hx).
    destruct (join_shape (b :: B) HB) as (y & Hjb & Hy).
    rewrite Hj, Hjb in H.
    destruct Hy as [[-> ->]|[HBne ->]].
    + rewrite app_nil_r in H.
      destruct Hx as [[-> ->]|[_ ->]].
      * rewrite app_nil_r in H. by subst.
      * exfalso. apply Hb. rewrite <- H. apply elem_of_app. right.
        apply elem_of_cons. by left.
    + assert (Hx0 : x = [] ∨ ∃ x', x = "/"%char :: x').
      { destruct Hx as [[_ ->]|[_ ->]]; eauto. }
      destruct (first_separator s b x _ Hs Hb Hx0 H) as [-> Hx'].
      destruct Hx as [[_ ->]|[Hsegs0 ->]]; [done|].
      injection Hx' as Hx'. f_equal. by apply IH.
Qed.

(** C2.  The workspace root [base], made by [resolve], is "/" followed by
    proper segments.  For every path [p], [safeResolve] either returns the
    path [resolve(base, p)], which then is [base] itself or begins with
    [base] and the separator, or it fails with "Path outside workspace".  It
    fails whenever the segments of the resolved path do not begin with the
    segments of the root: the comparison is made on the resolved path, while
    the concatenation [base + sep + p] always begins with [base + sep]. *)
Theorem safeResolve_stays_inside
    (cwd : Str) (EVA_MCP_WORKSPACE root : option Str) (p : Str) :
  isAbsolute cwd = true →
  let base := createSandbox_base cwd EVA_MCP_WORKSPACE root in
  ∃ B,
    Forall is_segment B ∧ base = absolute_path B
    ∧ match safeResolve cwd base p with
      | Ok abs =>
          abs = resolve cwd [base; p]
          ∧ (abs = base ∨ ∃ rest, abs = base ++ sep ++ rest)
      | Throw e => e = lit "Path outside workspace"
      end
    ∧ (¬ B `prefix_of` fst (resolve_segments cwd [base; p]) →
       safeResolve cwd base p = Throw (lit "Path outside workspace"))
    ∧ startsWith (base ++ sep ++ p) (base ++ sep) = true.
Proof.
  intros Hcwd base.
  destruct (resolve_absolute cwd [default (default cwd EVA_MCP_WORKSPACE) root]
              (resolve_one_absolute cwd _ Hcwd)) as [Hbase HB].
  fold (createSandbox_base cwd EVA_MCP_WORKSPACE root) in Hbase. fold base in Hbase.
  set (B := fst (resolve_segments cwd [default (default cwd EVA_MCP_WORKSPACE) root]))
    in *.
  exists B. split; [done|]. split; [done|].
  assert (Habs : isAbsolute base = true) by by rewrite Hbase.
  destruct (resolve_absolute cwd [base; p] (resolve_under_absolute cwd base p Habs))
    as [Hres Hsegs].
  set (segs := fst (resolve_segments cwd [base; p])) in *.
  split_and!.
  - unfold safeResolve.
    destruct (startsWith (resolve cwd [base; p]) (base ++ sep)) eqn:E1; simpl.
    + split; [done|]. right. apply startsWith_true in E1 as [rest E1].
      exists rest. by rewrite <- app_assoc in E1.
    + destruct (bool_decide (resolve cwd [base; p] = base)) eqn:E2; simpl; [|done].
      apply bool_decide_eq_true in E2. split; [done|]. by left.
  - intros Hout. unfold safeResolve.
    destruct (startsWith (resolve cwd [base; p]) (base ++ sep)) eqn:E1; simpl.
    + exfalso. apply Hout.
      apply startsWith_true in E1 as [rest E1].
      rewrite Hres, Hbase in E1. unfold absolute_path, sep in E1.
      change (lit "/") with ["/"%char] in E1. simpl in E1. injection E1 as E1.
      rewrite <- app_assoc in E1. simpl in E1.
      destruct B as [|b B']; [apply prefix_nil|].
      eapply under_base; eauto.
    + destruct (bool_decide (resolve cwd [base; p] = base)) eqn:E2; simpl; [|done].
      exfalso. apply Hout. apply bool_decide_eq_true in E2.
      rewrite Hres, Hbase in E2. unfold absolute_path in E2.
      apply app_inv_head in E2. by rewrite (same_base B segs HB Hsegs E2).
  - apply startsWith_true. exists p. by rewrite <- app_assoc.
Qed.

Lemma safeResolve_stays_inside_witness :
  let cwd := lit "/home/u" in
  let base := createSandbox_base cwd None (Some (lit "/home/ws/")) in
  isAbsolute cwd = true
  ∧ base = lit "/home/ws"
  ∧ safeResolve cwd base (lit "../outside.txt") = Throw (lit "Path outside workspace")
  ∧ safeResolve cwd base (lit "sub/../a.txt") = Ok (lit "/home/ws/a.txt")
  ∧ ∃ B,
      Forall is_segment B ∧ base = absolute_path B
      ∧ match safeResolve cwd base (lit "../outside.txt") with
        | Ok abs =>
            abs = resolve cwd [base; lit "../outside.txt"]
            ∧ (abs = base ∨ ∃ rest, abs = base ++ sep ++ rest)
        | Throw e => e = lit "Path outside workspace"
        end
      ∧ (¬ B `prefix_of` fst (resolve_segments cwd [base; lit "../outside.txt"]) →
         safeResolve cwd base (lit "../outside.txt")
         = Throw (lit "Path outside workspace"))
      ∧ startsWith (base ++ sep ++ lit "../outside.txt") (base ++ sep) = true.
Proof.
  intros cwd base.
  split; [reflexivity|]. split; [reflexivity|]. split; [reflexivity|].
  split; [reflexivity|].
  exact (safeResolve_stays_inside (lit "/home/u") None (Some (lit "/home/ws/"))
           (lit "../outside.txt") eq_refl).
Defined.

(* ===================================================================== *)
(** ** The readers of the transport, on any connection *)
(* ===================================================================== *)

Lemma cut_line_none bs : Forall (fun c => c ≠ LF) bs → cut_line bs = None.
Proof.
  induction 1 as [|c bs Hc _ IH]; [done|].
  simpl. rewrite decide_False by done. by rewrite IH.
Qed.

(** X1.  [readLine] on a resumed program, whatever the chunks and the moments
    of their arrival: when a line feed is among the bytes still to come,
    the promise is fulfilled with the bytes up to and including the first
    line feed and exactly the bytes after it stay in the stream; when the
    stream closes without a line feed, the promise is fulfilled with null
    and the unfinished line is dropped.  Nothing is written. *)
Theorem readLine_resolves_with_the_first_line (w : World) :
  quiet w →
  (∀ pre rest,
     Forall (fun c => c ≠ LF) pre →
     remaining w = pre ++ LF :: rest →
     ∃ w', readLine w = (Fulfilled (Some (pre ++ [LF])), w')
           ∧ remaining w' = rest ∧ quiet w' ∧ written w' = written w)
  ∧ (will_close w →
     Forall (fun c => c ≠ LF) (remaining w) →
     ∃ w', readLine w = (Fulfilled None, w')
           ∧ remaining w' = [] ∧ quiet w' ∧ written w' = written w).
Proof.
  intros Hq. pose proof (readLine_spec w Hq) as H. split.
  - intros pre rest Hpre Hrem.
    rewrite Hrem, (cut_line_first pre rest Hpre) in H.
    destruct H as (w' & Hr & [Hrem' Hq' Hw' _ _]). eauto.
  - intros Hc Hno. rewrite (cut_line_none _ Hno) in H.
    destruct (H Hc) as (w' & Hr & [Hrem' Hq' Hw' _ _]). eauto.
Qed.

Lemma readLine_resolves_with_the_first_line_witness :
  let w := connect false
             [Data (lit "Content-"); Data (lit "Length: 2" ++ CRLF ++ lit "xy"); End]
             [1; 0; 1] in
  quiet w
  ∧ ∃ w', readLine w = (Fulfilled (Some (lit "Content-Length: 2" ++ CRLF)), w')
          ∧ remaining w' = lit "xy" ∧ quiet w' ∧ written w' = written w.
Proof.
  intros w.
  assert (Hq : quiet w) by (split; [split; simpl; intros; congruence|reflexivity]).
  split; [exact Hq|].
  destruct (readLine_resolves_with_the_first_line w Hq) as [H _].
  apply (H (lit "Content-Length: 2" ++ [CR]) (lit "xy")); [|reflexivity].
  repeat (constructor; [discriminate|]). constructor.
Defined.

(** X2.  [readBytes(stream, len)] on a resumed program, whatever the chunks
    and the moments of their arrival: once [len] bytes are there the promise
    is fulfilled with exactly the first [len] bytes, and the bytes read in
    excess are put back, so that exactly what follows the body stays in the
    stream. *)
Theorem readBytes_resolves_with_exactly_len_bytes (w : World) (body rest : Buffer) :
  quiet w → body ≠ [] →
  remaining w = body ++ rest →
  ∃ w', readBytes (Z.of_nat (length body)) w = (Fulfilled body, w')
        ∧ remaining w' = rest ∧ quiet w' ∧ written w' = written w.
Proof.
  intros Hq Hne Hrem.
  assert (Hlen : (0 < Z.of_nat (length body))%Z) by (destruct body; [done|simpl; lia]).
  pose proof (readBytes_spec _ w Hlen Hq) as H.
  rewrite Hrem, cut_bytes_exact in H.
  destruct H as (w' & Hr & [Hrem' Hq' Hw' _ _]). eauto.
Qed.

Lemma readBytes_resolves_with_exactly_len_bytes_witness :
  let w := connect true [Data (lit "{"); Data (lit "}Content"); End] [0; 1] in
  quiet w
  ∧ ∃ w', readBytes 2 w = (Fulfilled (lit "{}"), w')
          ∧ remaining w' = lit "Content" ∧ quiet w' ∧ written w' = written w.
Proof.
  intros w.
  assert (Hq : quiet w) by (split; [split; simpl; intros; congruence|reflexivity]).
  split; [exact Hq|].
  apply (readBytes_resolves_with_exactly_len_bytes w (lit "{}") (lit "Content") Hq);
    [discriminate|reflexivity].
Defined.

(* ===================================================================== *)
(** ** Header blocks *)
(* ===================================================================== *)

Lemma trimStart_spaces_app t s :
  Forall (fun c => is_space c = true) t → trimStart (t ++ s) = trimStart s.
Proof. induction 1 as [|c t Hc _ IH]; [done|]. simpl. by rewrite Hc. Qed.

Lemma trimStart_app_spaces s t :
  Forall (fun c => is_space c = true) t →
  trimStart (s ++ t) = if is_nil (trimStart s) then [] else trimStart s ++ t.
Proof.
  intros Ht. induction s as [|c s IH].
  - simpl. rewrite <- (app_nil_r t) at 1. by rewrite trimStart_spaces_app.
  - simpl. destruct (is_space c); [exact IH|done].
Qed.

Lemma trimEnd_app_spaces s t :
  Forall (fun c => is_space c = true) t → trimEnd (s ++ t) = trimEnd s.
Proof.
  intros Ht. unfold trimEnd. rewrite rev_app_distr, trimStart_spaces_app; [done|].
  by apply List.Forall_rev.
Qed.

Lemma trim_app_spaces s t :
  Forall (fun c => is_space c = true) t → trim (s ++ t) = trim s.
Proof.
  intros Ht. unfold trim. rewrite (trimStart_app_spaces s t Ht).
  destruct (trimStart s) as [|c s'] eqn:E; [done|].
  cbn [is_nil]. by rewrite trimEnd_app_spaces.
Qed.

Lemma header_cut name value r :
  well_formed_header (name, value) →
  cut_line (header name value ++ r) = Some (header name value, r).
Proof.
  intros (Hn & Hv & _). simpl in *. unfold header, CRLF.
  replace ((name ++ ":"%char :: value ++ [CR; LF]) ++ r)
    with ((name ++ ":"%char :: value ++ [CR]) ++ LF :: r)
    by (rewrite <- !app_assoc; simpl; by rewrite <- !app_assoc).
  replace (name ++ ":"%char :: value ++ [CR; LF])
    with ((name ++ ":"%char :: value ++ [CR]) ++ [LF])
    by (rewrite <- !app_assoc; simpl; by rewrite <- !app_assoc).
  apply cut_line_first.
  apply Forall_app. split.
  - eapply Forall_impl; [exact Hn|]. by intros c [_ ?].
  - constructor; [discriminate|]. apply Forall_app. split; [done|].
    constructor; [discriminate|constructor].
Qed.

Lemma header_entry name value :
  well_formed_header (name, value) →
  indexOf ":"%char (header name value) = Some (length name)
  ∧ slice 0 (length name) (header name value) = name
  ∧ trim (slice_from (length name + 1) (header name value)) = trim value.
Proof.
  intros [Hn _]. simpl in *. unfold header. split_and!.
  - apply indexOf_first. eapply Forall_impl; [exact Hn|]. by intros c [? _].
  - unfold slice. rewrite Nat.sub_0_r, drop_0. by rewrite take_app_length.
  - unfold slice_from.
    replace (name ++ ":"%char :: value ++ CRLF)
      with ((name ++ [":"%char]) ++ value ++ CRLF)
      by (by rewrite <- app_assoc).
    replace (length name + 1) with (length (name ++ [":"%char]))
      by (rewrite length_app; simpl; lia).
    rewrite drop_app_length. apply trim_app_spaces.
    repeat constructor.
Qed.

Lemma header_not_blank name value : toString (header name value) ≠ CRLF.
Proof.
  unfold toString, header, CRLF. intros H. apply (f_equal length) in H.
  rewrite length_app in H. simpl in H. rewrite length_app in H. simpl in H. lia.
Qed.

Lemma readHeaders_loop_block hs : ∀ fuel m w rest,
  quiet w → Forall well_formed_header hs →
  remaining w = header_block hs ++ rest →
  length hs ≤ fuel →
  ∃ w', readHeaders_loop fuel m w
        = (Fulfilled
             (Some (fold_left
                      (fun m h => <[toLowerCase (trim (fst h)) := trim (snd h)]> m)
                      hs m)), w')
        ∧ left_of w w' rest.
Proof.
  induction hs as [|[name value] hs IH]; intros fuel m w rest Hq Hwf Hrem Hfuel.
  - unfold header_block in Hrem. simpl in Hrem.
    pose proof (readLine_spec w Hq) as H.
    assert (Hc : cut_line (remaining w) = Some (CRLF, rest)).
    { rewrite Hrem. apply (cut_line_first [CR] rest).
      constructor; [discriminate|constructor]. }
    rewrite Hc in H.
    destruct H as (w' & Hr & Hl). exists w'. split; [|done].
    destruct fuel; simpl; unfold bind; rewrite Hr; simpl.
    all: reflexivity.
  - apply Forall_cons in Hwf as [Hh Hwf].
    destruct fuel as [|fuel]; [simpl in Hfuel; lia|].
    unfold header_block in Hrem. simpl in Hrem. rewrite <- !app_assoc in Hrem.
    pose proof (readLine_spec w Hq) as H.
    rewrite Hrem, (header_cut name value _ Hh) in H.
    destruct H as (w1 & Hr & Hl1).
    destruct (header_entry name value Hh) as (Hidx & Hkey & Hval).
    destruct (IH fuel (<[toLowerCase (trim name) := trim value]> m) w1 rest
                (left_quiet _ _ _ Hl1) Hwf) as (w' & Hloop & Hl2).
    { rewrite (left_remaining _ _ _ Hl1). unfold header_block.
      by rewrite <- app_assoc. }
    { simpl in Hfuel. lia. }
    exists w'. split; [|by eapply left_of_trans].
    simpl. unfold bind at 1. rewrite Hr. simpl.
    rewrite decide_False by apply header_not_blank.
    unfold toString. rewrite Hidx, Hkey, Hval. exact Hloop.
Qed.

Lemma header_block_length hs : length hs ≤ length (header_block hs).
Proof.
  unfold header_block. rewrite length_app.
  induction hs as [|h hs IH]; simpl in *; [lia|].
  rewrite length_app. unfold header at 1. rewrite length_app. simpl. lia.
Qed.

(** X3.  [readHeaders] on a resumed program, whatever the chunks and the
    moments of their arrival: a block of ASCII header lines ended by a blank
    line is read as the map from the names, trimmed and in lower case, to
    the trimmed values, where a later line replaces an earlier one of the
    same name; exactly what follows the blank line stays in the stream. *)
Theorem readHeaders_reads_the_header_block
    (w : World) (hs : list (Str * Str)) (rest : Buffer) :
  quiet w →
  Forall well_formed_header hs →
  remaining w = header_block hs ++ rest →
  ∃ w', readHeaders w = (Fulfilled (Some (headers_of hs)), w')
        ∧ remaining w' = rest ∧ quiet w' ∧ written w' = written w.
Proof.
  intros Hq Hwf Hrem.
  destruct (readHeaders_loop_block hs (world_size w) ∅ w rest Hq Hwf Hrem)
    as (w' & Hr & [Hrem' Hq' Hw' _ _]).
  { pose proof (world_size_remaining w) as Hs.
    pose proof (header_block_length hs) as Hb.
    rewrite Hrem, length_app in Hs. lia. }
  exists w'. by split_and!.
Qed.

Lemma readHeaders_reads_the_header_block_witness :
  let hs := [ (lit "content-length", lit " 9");
              (lit "Content-Type", lit " application/json");
              (lit " CONTENT-Length ", lit "   2  ") ] in
  let w := connect false
             [Data (take 20 (header_block hs)); Data (drop 20 (header_block hs) ++ lit "{}");
End] [0; 2] in
  quiet w
  ∧ headers_of hs !! lit "content-length" = Some (lit "2")
  ∧ headers_of hs !! lit "content-type" = Some (lit "application/json")
  ∧ headers_of hs !! lit "Content-Type" = None
  ∧ ∃ w', readHeaders w = (Fulfilled (Some (headers_of hs)), w')
          ∧ remaining w' = lit "{}" ∧ quiet w' ∧ written w' = written w.
Proof.
  intros hs w.
  assert (Hq : quiet w) by (split; [split; simpl; intros; congruence|reflexivity]).
  split; [exact Hq|].
  split; [vm_compute; reflexivity|].
  split; [vm_compute; reflexivity|].
  split; [vm_compute; reflexivity|].
  apply (readHeaders_reads_the_header_block w hs (lit "{}") Hq); [|reflexivity].
  header_lines.
Defined.

(** X4.  [FramedJSONRPC.read] accepts any block of ASCII header lines that
    gives a positive length (one that a JavaScript number holds exactly, as
    the length of a body in memory is): other header lines are ignored, the
    name Content-Length is recognised in any case and with blanks around
    it, the value is what [parseInt] makes of it, and when the name occurs
    twice the later line counts.  The message is the decoded body of that
    length, and exactly what follows the body stays in the stream. *)
Theorem read_accepts_any_header_block
    (JSON_parse : Str -> Json + Str) (w : World)
    (hs : list (Str * Str)) (v : Str) (body rest : Buffer) :
  quiet w →
  Forall well_formed_header hs →
  headers_of hs !! lit "content-length" = Some v →
  parseInt v = Some (Z.of_nat (length body)) →
  (Z.of_nat (length body) <= MAX_SAFE_INTEGER)%Z →
  body ≠ [] →
  remaining w = header_block hs ++ body ++ rest →
  ∃ w', FramedJSONRPC_read JSON_parse w = (Fulfilled (Some (decode JSON_parse body)), w')
        ∧ remaining w' = rest ∧ quiet w' ∧ written w' = written w.
Proof.
  intros Hq Hwf Hv Hp _ Hne Hrem.
  destruct (readHeaders_loop_block hs (world_size w) ∅ w (body ++ rest) Hq Hwf Hrem)
    as (w1 & Hr & Hl1).
  { pose proof (world_size_remaining w) as Hs.
    pose proof (header_block_length hs) as Hb.
    rewrite Hrem, length_app in Hs. lia. }
  assert (Hlen : (0 < Z.of_nat (length body))%Z) by (destruct body; [done|simpl; lia]).
  pose proof (readBytes_spec _ w1 Hlen (left_quiet _ _ _ Hl1)) as H.
  rewrite (left_remaining _ _ _ Hl1), cut_bytes_exact in H.
  destruct H as (w2 & Hb & Hl2).
  destruct (left_of_trans _ _ _ _ _ Hl1 Hl2) as [Hrem' Hq' Hw' _ _].
  exists w2. split; [|done].
  unfold FramedJSONRPC_read, bind. unfold readHeaders. rewrite Hr.
  fold (headers_of hs). rewrite Hv.
  destruct v as [|c s]; [done|]. rewrite Hp.
  unfold invalid_length. destruct (Z.leb_spec (Z.of_nat (length body)) 0); [lia|].
  simpl. rewrite Hb. unfold decode.
  by destruct (JSON_parse (toString body)).
Qed.

Lemma read_accepts_any_header_block_witness :
  let hs := [ (lit "Content-Length", lit " 40");
              (lit "Content-Type", lit " application/json; charset=utf-8");
              (lit "CONTENT-LENGTH ", lit "  2; exactly") ] in
  let w := connect true
             [Data (take 30 (header_block hs)); Data (drop 30 (header_block hs));
              Data (lit "{"); Data (lit "}Content-"); End] [0; 2; 0; 1] in
  quiet w
  ∧ headers_of hs !! lit "content-length" = Some (lit "2; exactly")
  ∧ ∃ w', FramedJSONRPC_read Fragment.JSON_parse w = (Fulfilled (Some (JObj [])), w')
          ∧ remaining w' = lit "Content-" ∧ quiet w' ∧ written w' = written w.
Proof.
  intros hs w.
  assert (Hq : quiet w) by (split; [split; simpl; intros; congruence|reflexivity]).
  split; [exact Hq|].
  split; [vm_compute; reflexivity|].
  apply (read_accepts_any_header_block Fragment.JSON_parse w hs (lit "2; exactly")
           (lit "{}") (lit "Content-") Hq).
  - header_lines.
  - vm_compute; reflexivity.
  - vm_compute; reflexivity.
  - vm_compute; discriminate.
  - discriminate.
  - vm_compute; reflexivity.
Defined.

(* ===================================================================== *)
(** ** What [write] puts on the wire is what [read] takes from it *)
(* ===================================================================== *)

Lemma write_chunks_frame (JSON_stringify : Json -> Str) obj :
  concat (FramedJSONRPC_write_chunks JSON_stringify obj)
  = frame (JSON_stringify (JSONRPCResponse_json obj)).
Proof.
  unfold FramedJSONRPC_write_chunks, frame. simpl.
  by rewrite app_nil_r, <- !app_assoc.
Qed.

(** X5.  Round trip of the transport.  The chunks that [write] hands to the
    output stream for a sequence of responses, read by [read] at the other
    end of the pipe, give back the responses in order and then the
    end-of-stream signal, whatever the moments of arrival; this holds for
    every serializer whose texts [JSON.parse] reads back. *)
Theorem written_frames_are_read_back
    (JSON_parse : Str -> Json + Str) (JSON_stringify : Json -> Str)
    (objectMode : bool) (timing : list nat) (objs : list JSONRPCResponse) :
  Forall (fun obj =>
            JSON_stringify (JSONRPCResponse_json obj) ≠ []
            ∧ JSON_parse (toString (JSON_stringify (JSONRPCResponse_json obj)))
              = inl (JSONRPCResponse_json obj)) objs →
  fst (read_many JSON_parse (S (length objs))
         (connect objectMode
            (map Data (concat (map (FramedJSONRPC_write_chunks JSON_stringify) objs))
             ++ [End]) timing))
  = map (fun obj => Fulfilled (Some (JSONRPCResponse_json obj))) objs
    ++ [Fulfilled None].
Proof.
  intros Hall.
  destruct (connect_spec objectMode
              (concat (map (FramedJSONRPC_write_chunks JSON_stringify) objs)) timing)
    as (Hq & Hc & Hrem).
  assert (HF : Forall2
            (fun body msg => body ≠ [] ∧ JSON_parse (toString body) = inl msg)
            (map (fun obj => JSON_stringify (JSONRPCResponse_json obj)) objs)
            (map JSONRPCResponse_json objs)).
  { clear -Hall. induction Hall as [|obj objs [H1 H2] _ IH]; simpl; constructor; auto. }
  assert (Hrem' : concat (concat (map (FramedJSONRPC_write_chunks JSON_stringify) objs))
                  = concat (map frame
                              (map (fun obj => JSON_stringify (JSONRPCResponse_json obj))
                                 objs))).
  { clear. induction objs as [|obj objs IH]; [done|].
    cbn [map concat]. rewrite concat_app, IH. f_equal.
    apply write_chunks_frame. }
  rewrite Hrem' in Hrem.
  pose proof (read_many_frames JSON_parse _ _ _ HF Hq Hc Hrem) as H.
  by rewrite length_map, map_map in H.
Qed.

Lemma written_frames_are_read_back_witness :
  let objs := [ mkResponse (JNum 1) (Result (JObj [(lit "tools", JArr [])]));
                mkResponse JNull (Error (-32700) (lit "Parse error") None) ] in
  fst (read_many Fragment.JSON_parse 3
         (connect false
            (map Data (concat (map (FramedJSONRPC_write_chunks Fragment.JSON_stringify)
                                 objs)) ++ [End]) [1; 0; 2]))
  = [ Fulfilled (Some (JSONRPCResponse_json
                         (mkResponse (JNum 1) (Result (JObj [(lit "tools", JArr [])])))));
      Fulfilled (Some (JSONRPCResponse_json
                         (mkResponse JNull (Error (-32700) (lit "Parse error") None))));
      Fulfilled None ].
Proof.
  intros objs.
  apply (written_frames_are_read_back Fragment.JSON_parse Fragment.JSON_stringify
           false [1; 0; 2] objs).
  repeat constructor; try discriminate; vm_compute; reflexivity.
Defined.

(* ===================================================================== *)
(** ** drainBody *)
(* ===================================================================== *)

Lemma await_drain fuel : ∀ w,
  length (pending w) < fuel →
  sane (stream w) → readableEnded (stream w) = false →
  buffer (stream w) = [] → ended (stream w) = false →
  endScheduled (stream w) = false →
  remaining w ≠ [] →
  ∃ w', await_events drainBody_listeners fuel tt w = (Fulfilled tt, w')
        ∧ left_of w w' (remaining w).
Proof.
  induction fuel as [|fuel IH]; intros w Hfuel Hs Hre Hb He Hsched Hrem; [lia|].
  simpl. unfold nextTick. rewrite Hsched. rewrite set_stream_same.
  assert (Hp : pending w ≠ []).
  { intros Hp. apply Hrem. unfold remaining. by rewrite Hb, He, Hp. }
  destruct (arrive_spec w Hp Hs) as (changed & w1 & Ha & Hs1 & Hom1 & Hre1 & Hsc1
                                     & Hrem1 & Hw1 & Hc1 & Hlen1 & Hquiet1).
  rewrite Ha. destruct changed.
  - simpl.
    destruct (settled_left (Fulfilled tt) (stream w1) w w1 (remaining w))
      as (w' & Hr & Hl); auto.
    exists w'. by split.
  - destruct (Hquiet1 eq_refl Hb He) as [Hb1 He1].
    destruct (IH w1) as (w' & Hr & Hl); try congruence; [lia|].
    exists w'. split; [done|].
    rewrite Hrem1 in Hl.
    eapply left_of_via; [exact Hl|congruence..|exact Hc1].
Qed.

Lemma drainBody_left (w : World) :
  quiet w → remaining w ≠ [] →
  ∃ w', drainBody w = (Fulfilled tt, w') ∧ left_of w w' (remaining w).
Proof.
  intros Hq Hrem.
  destruct (interleave_spec w Hq) as ([Hs1 Hq1] & Hrem1 & Hw1 & Hom1 & Hre1 & Hc1 & _).
  unfold drainBody. cbv zeta.
  destruct (readableEnded (stream (interleave w))) eqn:Hre.
  { destruct (sane_emitted _ Hs1 Hre) as [He Hb].
    exfalso. apply Hrem. rewrite <- Hrem1. unfold remaining. by rewrite Hb, He. }
  destruct (buffer (stream (interleave w))) as [|c cs] eqn:Hb.
  - cbn [is_nil negb].
    destruct (ended (stream (interleave w))) eqn:He.
    { exfalso. apply Hrem. rewrite <- Hrem1. unfold remaining. by rewrite Hb, He. }
    destruct (await_drain (S (length (pending (interleave w)))) (interleave w))
      as (w' & Hr & Hl); auto; try congruence.
    exists w'. split; [done|]. rewrite Hrem1 in Hl.
    eapply left_of_via; [exact Hl|congruence..|exact Hc1].
  - cbn [is_nil negb].
    destruct (settled_left (Fulfilled tt) (stream (interleave w)) w (interleave w)
                (remaining w)) as (w' & Hr & Hl); auto.
    exists w'. by split.
Qed.

(** X6.  [drainBody] drains nothing.  Called while bytes are still to come,
    it settles on the first 'readable' event without reading from the
    stream: every byte that was still to come, the body of the frame with
    the bad length included, is still there for the next reader. *)
Theorem drainBody_reads_nothing (w : World) :
  quiet w →
  remaining w ≠ [] →
  ∃ w', drainBody w = (Fulfilled tt, w')
        ∧ remaining w' = remaining w ∧ quiet w' ∧ written w' = written w.
Proof.
  intros Hq Hrem.
  destruct (drainBody_left w Hq Hrem) as (w' & Hr & [Hrem' Hq' Hw' _ _]). eauto.
Qed.

Lemma drainBody_reads_nothing_witness :
  let w := connect false [Data (lit "hello"); End] [0; 1] in
  quiet w ∧ remaining w ≠ []
  ∧ ∃ w', drainBody w = (Fulfilled tt, w')
          ∧ remaining w' = lit "hello" ∧ quiet w' ∧ written w' = written w.
Proof.
  intros w.
  assert (Hq : quiet w) by (split; [split; simpl; intros; congruence|reflexivity]).
  assert (Hrem : remaining w ≠ []) by discriminate.
  split; [exact Hq|]. split; [exact Hrem|].
  exact (drainBody_reads_nothing w Hq Hrem).
Defined.

(* ===================================================================== *)
(** ** The dispatcher, case by case *)
(* ===================================================================== *)

Section dispatch.
Variable Number_toString : Z -> Str.
Variable primitive_member : Json -> Str -> Except Str.
Variable now : Str.
Variable srv : MCPServer.

Local Abbreviation handle := (handle Number_toString primitive_member now srv).
Local Abbreviation handle_switch :=
  (handle_switch Number_toString primitive_member now srv).

(** The switch: for a known method a result carrying [id] is written, or
    the case fails before anything is written; for any other method the
    error -32601 is written. *)
Lemma handle_switch_outcome shuttingDown id0 req w r :
  handle_switch shuttingDown id0 req w = r →
  (Exists (fun m => is_method req m = true) methods
   ∧ ((∃ result,
         r = (Fulfilled (shuttingDown || is_method req "shutdown"),
              wrote (mkResponse id0 (Result result)) w))
      ∨ (is_method req "shutdown" = false ∧ ∃ e, r = (Rejected e, w))))
  ∨ (Forall (fun m => is_method req m = false) methods
     ∧ r = (Fulfilled shuttingDown,
            wrote (mkResponse id0
                     (Error (-32601) (lit "Method not found")
                        (Some (JObj (opt_field "method" (prop "method" req)))))) w)).
Proof.
  intros Hr. unfold handle_switch in Hr.
  destruct (is_method req "initialize") eqn:H1.
  { left. split; [unfold methods; auto 10|]. left.
    rewrite (is_method_other req "initialize" "shutdown" H1) by done.
    rewrite orb_false_r. subst r. by eexists. }
  destruct (is_method req "shutdown") eqn:H2.
  { left. split; [unfold methods; auto 10|]. left.
    rewrite orb_true_r. subst r. by eexists. }
  rewrite orb_false_r.
  destruct (is_method req "tools/list") eqn:H3.
  { left. split; [unfold methods; auto 10|]. left. subst r. by eexists. }
  destruct (is_method req "tools/call") eqn:H4.
  { left. split; [unfold methods; auto 10|].
    rewrite bind_lift in Hr.
    destruct (JS_String_opt Number_toString (prop "name" (params_of req)))
      as [name|e]; [|right; split; [done|by exists e]].
    rewrite bind_lift in Hr.
    destruct (ToolRegistry.call now (tools srv) name
                (prop "arguments" (params_of req))) as [res|e];
      [|right; split; [done|by exists e]].
    left. subst r. by eexists. }
  destruct (is_method req "resources/list") eqn:H5.
  { left. split; [unfold methods; auto 10|]. left. subst r. by eexists. }
  destruct (is_method req "resources/read") eqn:H6.
  { left. split; [unfold methods; auto 10|].
    destruct (negb (truthy_opt (prop "uri" (params_of req))));
      [right; split; [done|subst r; by eexists]|].
    rewrite bind_lift in Hr.
    destruct (JS_String_opt Number_toString (prop "uri" (params_of req)))
      as [uri|e]; [|right; split; [done|by exists e]].
    rewrite bind_lift in Hr.
    destruct (ResourceRegistry.read (resources srv) uri) as [res|e];
      [|right; split; [done|by exists e]].
    left. subst r. by eexists. }
  destruct (is_method req "prompts/list") eqn:H7.
  { left. split; [unfold methods; auto 10|]. left. subst r. by eexists. }
  destruct (is_method req "prompts/get") eqn:H8.
  { left. split; [unfold methods; auto 10|].
    destruct (negb (truthy_opt (prop "name" (params_of req))));
      [right; split; [done|subst r; by eexists]|].
    rewrite bind_lift in Hr.
    destruct (JS_String_opt Number_toString (prop "name" (params_of req)))
      as [name|e]; [|right; split; [done|by exists e]].
    rewrite bind_lift in Hr.
    destruct (PromptRegistry.get Number_toString primitive_member (prompts srv)
                name (nullish (prop "variables" (params_of req)) (JObj [])))
      as [p|e]; [|right; split; [done|by exists e]].
    left. subst r. by eexists. }
  right. split; [|by subst r].
  unfold methods. repeat constructor; assumption.
Qed.

(** A message other than "shutdown" leaves the flag as it is. *)
Lemma handle_keeps_flag shuttingDown req w :
  is_method req "shutdown" = false →
  ∃ resp, handle shuttingDown req w = (Fulfilled shuttingDown, wrote resp w)
          ∧ id resp = nullish (prop "id" req) JNull.
Proof.
  intros Hs. unfold handle, try_catch.
  destruct (handle_switch_outcome shuttingDown (nullish (prop "id" req) JNull) req w
              _ eq_refl) as [[_ [(res & ->)|(_ & e & ->)]]|[_ ->]].
  - rewrite Hs, orb_false_r. by eexists.
  - by eexists.
  - by eexists.
Qed.
End dispatch.

(* ===================================================================== *)
(** ** The loop of [run], frame after frame *)
(* ===================================================================== *)

Lemma frame_length body : 0 < length (frame body).
Proof. unfold frame. rewrite length_app. simpl. lia. Qed.

Lemma frames_length bodies : length bodies ≤ length (concat (map frame bodies)).
Proof.
  induction bodies as [|body bodies IH]; simpl; [lia|].
  rewrite length_app. pose proof (frame_length body). lia.
Qed.

Section loop.
Variable JSON_parse : Str -> Json + Str.
Variable Number_toString : Z -> Str.
Variable primitive_member : Json -> Str -> Except Str.
Variable now : Str.
Variable srv : MCPServer.

Local Abbreviation run_loop :=
  (run_loop JSON_parse Number_toString primitive_member now srv).

Lemma run_loop_frames bodies : ∀ fuel w,
  quiet w → will_close w →
  Forall (fun body =>
            body ≠ []
            ∧ truthy (decode JSON_parse body) = true
            ∧ is_method (decode JSON_parse body) "shutdown" = false) bodies →
  remaining w = concat (map frame bodies) →
  length bodies ≤ fuel →
  ∃ w', run_loop fuel false w = (Fulfilled false, w')
        ∧ map id (written w')
          = map id (written w)
            ++ map (fun body => answered_id (decode JSON_parse body)) bodies
        ∧ remaining w' = [].
Proof.
  induction bodies as [|body bodies IH]; intros fuel w Hq Hc Hall Hrem Hfuel.
  - destruct (read_eof JSON_parse w Hq Hc) as (w' & Hr & Hl); [by rewrite Hrem|].
    exists w'. rewrite (run_loop_end _ _ _ _ _ _ _ _ _ Hr).
    split_and!; [done| |apply Hl].
    simpl. by rewrite app_nil_r, (left_written _ _ _ Hl).
  - apply Forall_cons in Hall as [(Hne & Ht & Hs) Hall].
    destruct fuel as [|fuel]; [simpl in Hfuel; lia|].
    simpl in Hrem.
    destruct (read_frame JSON_parse w body _ Hq Hne Hrem) as (w1 & Hr & Hl1).
    assert (Hnext : ∀ resp,
              id resp = answered_id (decode JSON_parse body) →
              ∃ w', run_loop fuel false (wrote resp w1) = (Fulfilled false, w')
                    ∧ map id (written w')
                      = map id (written w)
                        ++ map (fun body => answered_id (decode JSON_parse body))
                             (body :: bodies)
                    ∧ remaining w' = []).
    { intros resp Hid.
      destruct (wrote_left w w1 _ resp Hl1) as (Hq2 & Hc2 & Hrem2).
      destruct (IH fuel (wrote resp w1) Hq2) as (w' & Hrun & Hids & Hrem');
        [rewrite <- Hc2; by apply (left_close _ _ _ Hl1)|done|done|simpl in Hfuel; lia|].
      exists w'. split_and!; [done| |done].
      rewrite Hids. simpl. rewrite (left_written _ _ _ Hl1), map_app. simpl.
      by rewrite <- app_assoc, Hid. }
    destruct (is_method (decode JSON_parse body) "__internal_parse_error__") eqn:Hm.
    + rewrite (run_loop_sentinel _ _ _ _ _ _ _ _ _ _ Hr Ht Hm).
      apply Hnext. unfold answered_id. by rewrite Hm.
    + rewrite (run_loop_request _ _ _ _ _ _ _ _ _ _ Hr Ht Hm).
      destruct (handle_keeps_flag Number_toString primitive_member now srv false
                  _ w1 Hs) as (resp & Hh & Hid).
      unfold bind. rewrite Hh. unfold loop_on.
      apply Hnext. unfold answered_id. by rewrite Hm.
Qed.
End loop.



(** X7.  A frame whose body does not decode does not stop the server.  In
    that turn of the loop the response with identifier null, code -32700
    and message "Parse error" is written, with the parser's message (or
    "Parse error" when it is empty) as its data, and the loop goes on with
    what follows the frame. *)
Theorem undecodable_body_is_answered_and_skipped
    (JSON_parse : Str -> Json + Str) (Number_toString : Z -> Str)
    (primitive_member : Json -> Str -> Except Str) (now : Str) (srv : MCPServer)
    (fuel : nat) (shuttingDown : bool) (w : World)
    (body rest : Buffer) (message : Str) :
  quiet w → body ≠ [] →
  remaining w = frame body ++ rest →
  JSON_parse (toString body) = inr message →
  ∃ w1,
    remaining w1 = rest ∧ written w1 = written w
    ∧ run_loop JSON_parse Number_toString primitive_member now srv
        (S fuel) shuttingDown w
      = run_loop JSON_parse Number_toString primitive_member now srv
          fuel shuttingDown
          (wrote (mkResponse JNull
                    (Error (-32700) (lit "Parse error")
                       (Some (JObj [(lit "message",
                                     JStr (if is_nil message then lit "Parse error"
                                           else message))])))) w1).
Proof.
  intros Hq Hne Hrem Hp.
  destruct (read_frame JSON_parse w body rest Hq Hne Hrem) as (w1 & Hr & Hl1).
  exists w1. split; [apply Hl1|]. split; [apply Hl1|].
  unfold decode in Hr. rewrite Hp in Hr.
  by rewrite (run_loop_sentinel _ _ _ _ _ _ _ _ _ _ Hr eq_refl eq_refl).
Qed.

Lemma undecodable_body_is_answered_and_skipped_witness :
  let w := Scenario.at_once (frame (lit "{oops") ++ Scenario.message Scenario.initialize1) in
  quiet w
  ∧ Fragment.JSON_parse (lit "{oops") = inr (lit "Unexpected token in JSON")
  ∧ ∃ w1,
      remaining w1 = Scenario.message Scenario.initialize1 ∧ written w1 = written w
      ∧ run_loop Fragment.JSON_parse Fragment.Number_toString Fragment.primitive_member
          Fragment.now Fragment.server 1 false w
        = run_loop Fragment.JSON_parse Fragment.Number_toString Fragment.primitive_member
            Fragment.now Fragment.server 0 false
            (wrote (mkResponse JNull
                      (Error (-32700) (lit "Parse error")
                         (Some (JObj [(lit "message",
                                       JStr (lit "Unexpected token in JSON"))])))) w1).
Proof.
  intros w.
  assert (Hq : quiet w) by (split; [split; simpl; intros; congruence|reflexivity]).
  split; [exact Hq|].
  split; [vm_compute; reflexivity|].
  apply (undecodable_body_is_answered_and_skipped Fragment.JSON_parse
           Fragment.Number_toString Fragment.primitive_member Fragment.now
           Fragment.server 0 false w (lit "{oops")
           (Scenario.message Scenario.initialize1) (lit "Unexpected token in JSON") Hq).
  - discriminate.
  - vm_compute; reflexivity.
  - vm_compute; reflexivity.
Defined.

(** X8.  A frame whose body decodes to a value that JavaScript takes for
    false (null, false, 0 or the empty string) ends the loop as the end of
    the stream does: the promise of [run] is fulfilled, no response is
    written for the frame, and what follows the frame is left unread. *)
Theorem falsy_message_ends_the_loop
    (JSON_parse : Str -> Json + Str) (Number_toString : Z -> Str)
    (primitive_member : Json -> Str -> Except Str) (now : Str) (srv : MCPServer)
    (fuel : nat) (shuttingDown : bool) (w : World)
    (body rest : Buffer) (v : Json) :
  quiet w → body ≠ [] →
  remaining w = frame body ++ rest →
  JSON_parse (toString body) = inl v →
  truthy v = false →
  ∃ w', run_loop JSON_parse Number_toString primitive_member now srv
          fuel shuttingDown w
        = (Fulfilled shuttingDown, w')
        ∧ remaining w' = rest ∧ written w' = written w.
Proof.
  intros Hq Hne Hrem Hp Ht.
  destruct (read_frame JSON_parse w body rest Hq Hne Hrem) as (w1 & Hr & Hl1).
  exists w1. split; [|split; apply Hl1].
  unfold decode in Hr. rewrite Hp in Hr.
  destruct fuel; simpl; unfold bind; rewrite Hr; simpl; by rewrite Ht.
Qed.

Lemma falsy_message_ends_the_loop_witness :
  let w := Scenario.at_once (frame (lit "null") ++ Scenario.message Scenario.initialize1) in
  quiet w
  ∧ ∃ w', Fragment.run w = (Fulfilled false, w')
          ∧ remaining w' = Scenario.message Scenario.initialize1
          ∧ written w' = [].
Proof.
  intros w.
  assert (Hq : quiet w) by (split; [split; simpl; intros; congruence|reflexivity]).
  split; [exact Hq|].
  apply (falsy_message_ends_the_loop Fragment.JSON_parse
           Fragment.Number_toString Fragment.primitive_member Fragment.now
           Fragment.server (world_size w) false w (lit "null")
           (Scenario.message Scenario.initialize1) JNull Hq).
  - discriminate.
  - vm_compute; reflexivity.
  - vm_compute; reflexivity.
  - reflexivity.
Defined.

(* ===================================================================== *)
(** ** Errors of the dispatcher *)
(* ===================================================================== *)

Lemma known_or_unknown req :
  Exists (fun m => is_method req m = true) methods →
  Forall (fun m => is_method req m = false) methods → False.
Proof.
  intros He Hf. apply Exists_exists in He as (m & Hin & Hm).
  rewrite Forall_forall in Hf. specialize (Hf m Hin). congruence.
Qed.


(** X11.  A "resources/read" request without a usable [uri], and a
    "prompts/get" request without a usable [name] (the parameter is absent,
    null, false, 0 or the empty string, or there are no parameters at all),
    is answered by the error -32000 with the message "uri required" or
    "name required"; no registry is consulted and the loop is not stopped. *)
Theorem missing_uri_or_name_is_a_server_error
    (Number_toString : Z -> Str) (primitive_member : Json -> Str -> Except Str)
    (now : Str) (srv : MCPServer) (shuttingDown : bool) (req : Json) (w : World)
    (method key message : string) :
  (method, key, message) ∈ [ ("resources/read", "uri", "uri required");
                             ("prompts/get", "name", "name required") ]%string →
  is_method req method = true →
  truthy_opt (prop key (params_of req)) = false →
  handle Number_toString primitive_member now srv shuttingDown req w
  = (Fulfilled shuttingDown,
     wrote (server_error (nullish (prop "id" req) JNull) (lit message)) w).
Proof.
  intros Hin Hm Ht.
  apply elem_of_cons in Hin as [Hin|Hin];
    [|apply list_elem_of_singleton in Hin]; simplify_eq.
  - unfold handle, handle_switch, try_catch.
    rewrite (is_method_other req _ "initialize" Hm) by done.
    rewrite (is_method_other req _ "shutdown" Hm) by done.
    rewrite (is_method_other req _ "tools/list" Hm) by done.
    rewrite (is_method_other req _ "tools/call" Hm) by done.
    rewrite (is_method_other req _ "resources/list" Hm) by done.
    by rewrite Hm, Ht.
  - unfold handle, handle_switch, try_catch.
    rewrite (is_method_other req _ "initialize" Hm) by done.
    rewrite (is_method_other req _ "shutdown" Hm) by done.
    rewrite (is_method_other req _ "tools/list" Hm) by done.
    rewrite (is_method_other req _ "tools/call" Hm) by done.
    rewrite (is_method_other req _ "resources/list" Hm) by done.
    rewrite (is_method_other req _ "resources/read" Hm) by done.
    rewrite (is_method_other req _ "prompts/list" Hm) by done.
    by rewrite Hm, Ht.
Qed.

Lemma missing_uri_or_name_is_a_server_error_witness :
  let req := request_with (JNum 4) "resources/read" [(lit "uri", JStr [])] in
  is_method req "resources/read" = true
  ∧ truthy_opt (prop "uri" (params_of req)) = false
  ∧ handle Fragment.Number_toString Fragment.primitive_member Fragment.now
      Fragment.server false req (Scenario.at_once [])
    = (Fulfilled false,
       wrote (mkResponse (JNum 4) (Error (-32000) (lit "uri required") None))
         (Scenario.at_once [])).
Proof.
  intros req.
  split; [reflexivity|]. split; [reflexivity|].
  apply (missing_uri_or_name_is_a_server_error Fragment.Number_toString
           Fragment.primitive_member Fragment.now Fragment.server false req
           (Scenario.at_once []) "resources/read" "uri" "uri required").
  - apply list_elem_of_here.
  - reflexivity.
  - reflexivity.
Defined.

(** X12.  A call of a registered tool.  What the handler returns is sent as
    the result of the response; when the handler throws, the response is
    the error -32000 with the message thrown, or "Server error" when that
    message is empty.  Either way the response carries the identifier of the
    request and the loop is not stopped. *)
Theorem registered_tool_is_called
    (Number_toString : Z -> Str) (primitive_member : Json -> Str -> Except Str)
    (now : Str) (srv : MCPServer) (shuttingDown : bool) (req : Json) (w : World)
    (name : Str) (def : ToolDef) (handler : ToolHandler) :
  is_method req "tools/call" = true →
  JS_String_opt Number_toString (prop "name" (params_of req)) = Ok name →
  Map_get name (tools srv) = Some (def, handler) →
  handle Number_toString primitive_member now srv shuttingDown req w
  = (Fulfilled shuttingDown,
     wrote (match handler (prop "arguments" (params_of req)) now with
            | Ok res => mkResponse (nullish (prop "id" req) JNull)
                          (Result (ToolResult_json res))
            | Throw e => server_error (nullish (prop "id" req) JNull) e
            end) w).
Proof.
  intros Hm Hname Hget.
  unfold handle, handle_switch, try_catch.
  rewrite (is_method_other req _ "initialize" Hm) by done.
  rewrite (is_method_other req _ "shutdown" Hm) by done.
  rewrite (is_method_other req _ "tools/list" Hm) by done.
  rewrite Hm, bind_lift, Hname, bind_lift.
  unfold ToolRegistry.call. rewrite Hget.
  by destruct (handler (prop "arguments" (params_of req)) now).
Qed.

Lemma registered_tool_is_called_witness :
  let req := request_with (JNum 5) "tools/call"
               [ (lit "name", JStr (lit "echo"));
                 (lit "arguments", JObj [(lit "text", JObj [(lit "toString", JNull)])]) ] in
  is_method req "tools/call" = true
  ∧ handle Fragment.Number_toString Fragment.primitive_member Fragment.now
      Fragment.server false req (Scenario.at_once [])
    = (Fulfilled false,
       wrote (mkResponse (JNum 5)
                (Error (-32000) (lit "Cannot convert object to primitive value") None))
         (Scenario.at_once [])).
Proof.
  intros req.
  split; [reflexivity|].
  apply (registered_tool_is_called Fragment.Number_toString
           Fragment.primitive_member Fragment.now Fragment.server false req
           (Scenario.at_once []) (lit "echo")
           (mkToolDef (lit "echo") (Some (lit "Echo text"))
              (Some (string_schema "text" true)))
           (echo Fragment.Number_toString)).
  - reflexivity.
  - reflexivity.
  - reflexivity.
Defined.

(** X13.  A "tools/call" request that gives no name is not refused: the
    missing name is turned into the text "undefined", and the request is
    answered as a call of the tool of that name. *)
Theorem tool_call_without_name_calls_undefined
    (Number_toString : Z -> Str) (primitive_member : Json -> Str -> Except Str)
    (now : Str) (srv : MCPServer) (shuttingDown : bool) (req : Json) (w : World) :
  is_method req "tools/call" = true →
  prop "name" (params_of req) = None →
  handle Number_toString primitive_member now srv shuttingDown req w
  = (Fulfilled shuttingDown,
     wrote (match ToolRegistry.call now (tools srv) (lit "undefined")
                    (prop "arguments" (params_of req)) with
            | Ok res => mkResponse (nullish (prop "id" req) JNull)
                          (Result (ToolResult_json res))
            | Throw e => server_error (nullish (prop "id" req) JNull) e
            end) w).
Proof.
  intros Hm Hname.
  unfold handle, handle_switch, try_catch.
  rewrite (is_method_other req _ "initialize" Hm) by done.
  rewrite (is_method_other req _ "shutdown" Hm) by done.
  rewrite (is_method_other req _ "tools/list" Hm) by done.
  rewrite Hm, Hname, bind_lift. cbn [JS_String_opt]. rewrite bind_lift.
  by destruct (ToolRegistry.call now (tools srv) (lit "undefined")
                 (prop "arguments" (params_of req))).
Qed.

Lemma tool_call_without_name_calls_undefined_witness :
  let req := Scenario.request (Some (JNum 6)) "tools/call" [] in
  is_method req "tools/call" = true
  ∧ prop "name" (params_of req) = None
  ∧ handle Fragment.Number_toString Fragment.primitive_member Fragment.now
      Fragment.server false req (Scenario.at_once [])
    = (Fulfilled false,
       wrote (mkResponse (JNum 6) (Result (tool_not_found (lit "undefined"))))
         (Scenario.at_once [])).
Proof.
  intros req.
  split; [reflexivity|]. split; [reflexivity|].
  apply (tool_call_without_name_calls_undefined Fragment.Number_toString
           Fragment.primitive_member Fragment.now Fragment.server false req
           (Scenario.at_once [])); reflexivity.
Defined.

(* ===================================================================== *)
(** ** Registries built by registration *)
(* ===================================================================== *)

Lemma assoc_elem_of {V} k (v : V) m : assoc k m = Some v → (k, v) ∈ m.
Proof.
  induction m as [|[k' v'] m IH]; [done|]. simpl.
  destruct (decide (k' = k)) as [->|Hne].
  - intros [= ->]. apply list_elem_of_here.
  - intros H. apply list_elem_of_further. by apply IH.
Qed.

Lemma Map_set_NoDup {V} k (v : V) m :
  NoDup (map fst m) → NoDup (map fst (Map_set k v m)).
Proof.
  intros Hnd. rewrite Map_set_keys. case_bool_decide as Hin; [done|].
  apply NoDup_app. split_and!; [done| |apply NoDup_singleton].
  intros x Hx Hx'. apply list_elem_of_singleton in Hx'. by subst.
Qed.

Lemma Map_set_elem_of {V} k (v : V) m e :
  e ∈ Map_set k v m → e = (k, v) ∨ e ∈ m.
Proof.
  induction m as [|[k' v'] m IH]; simpl.
  - intros H. apply list_elem_of_singleton in H. by left.
  - destruct (decide (k' = k)) as [->|Hne]; intros H.
    + apply elem_of_cons in H as [->|H]; [by left|].
      right. by apply list_elem_of_further.
    + apply elem_of_cons in H as [->|H]; [right; apply list_elem_of_here|].
      destruct (IH H) as [->|Hin]; [by left|].
      right. by apply list_elem_of_further.
Qed.

Section keyed.
Context {R V : Type} (key : R → Str) (val : R → V).

Local Abbreviation after regs m :=
  (fold_left (fun m r => Map_set (key r) (val r) m) regs m).

Lemma keyed_NoDup regs : ∀ m, NoDup (map fst m) → NoDup (map fst (after regs m)).
Proof.
  induction regs as [|r regs IH]; intros m Hnd; [done|].
  simpl. apply IH. by apply Map_set_NoDup.
Qed.

Lemma keyed_elem_of regs : ∀ m e,
  e ∈ after regs m → e ∈ m ∨ ∃ r, r ∈ regs ∧ e = (key r, val r).
Proof.
  induction regs as [|r regs IH]; intros m e He; [by left|].
  simpl in He. destruct (IH _ _ He) as [Hin|(r' & Hin & ->)].
  - destruct (Map_set_elem_of _ _ _ _ Hin) as [->|Hm]; [|by left].
    right. exists r. split; [apply list_elem_of_here|done].
  - right. exists r'. split; [by apply list_elem_of_further|done].
Qed.

Lemma keyed_get_other regs : ∀ m k,
  Forall (fun r => key r ≠ k) regs → Map_get k (after regs m) = Map_get k m.
Proof.
  induction regs as [|r regs IH]; intros m k Hall; [done|].
  apply Forall_cons in Hall as [Hr Hall]. simpl.
  rewrite (IH _ _ Hall). by apply Map_get_set_ne.
Qed.

(** The value found under a key is the one of the last registration under
    that key. *)
Lemma keyed_get_last pre r post m :
  Forall (fun r' => key r' ≠ key r) post →
  Map_get (key r) (after (pre ++ r :: post) m) = Some (val r).
Proof.
  intros Hall. rewrite fold_left_app. simpl.
  rewrite (keyed_get_other post _ _ Hall). apply Map_get_set_eq.
Qed.

Lemma last_registration (k : Str) regs :
  (∃ r, r ∈ regs ∧ key r = k) →
  ∃ pre r post, regs = pre ++ r :: post ∧ key r = k
                ∧ Forall (fun r' => key r' ≠ k) post.
Proof.
  induction regs as [|r0 regs IH]; intros (r & Hin & Hk).
  { by apply elem_of_nil in Hin. }
  destruct (decide (Exists (fun r' => key r' = k) regs)) as [He|Hn].
  - destruct IH as (pre & r' & post & -> & Hk' & Hall).
    { apply Exists_exists in He as (r' & ? & ?). eauto. }
    exists (r0 :: pre), r', post. by split_and!.
  - apply elem_of_cons in Hin as [->|Hin].
    + exists [], r0, regs. split_and!; [done..|].
      apply Forall_forall. intros r' Hr' Heq. apply Hn.
      apply Exists_exists. eauto.
    + destruct Hn. apply Exists_exists. eauto.
Qed.
End keyed.

Lemma find_some_elem_of {A} (f : A → bool) l x :
  find f l = Some x → x ∈ l ∧ f x = true.
Proof.
  intros H. apply find_some in H as [Hin Hf]. split; [|done].
  by apply list_elem_of_In.
Qed.

Lemma find_none_Forall {A} (f : A → bool) l :
  find f l = None → Forall (fun x => f x = false) l.
Proof.
  intros H. apply Forall_forall. intros x Hx.
  apply (find_none f l H). by apply list_elem_of_In.
Qed.

Lemma resources_of_shape regs : ∀ reg,
  fold_left (fun reg r => ResourceRegistry.register (fst r) (snd r) reg) regs reg
  = ResourceRegistry.mk
      (ResourceRegistry.resources reg ++ map fst regs)
      (fold_left (fun m r => Map_set (res_uri (fst r)) (snd r) m) regs
         (ResourceRegistry.readers reg)).
Proof.
  induction regs as [|r regs IH]; intros reg.
  - simpl. rewrite app_nil_r. by destruct reg.
  - simpl. rewrite IH. simpl. by rewrite <- app_assoc.
Qed.


Lemma keyed_entries {R V : Type} (key : R → Str) (val : R → V) regs e :
  e ∈ fold_left (fun m r => Map_set (key r) (val r) m) regs [] →
  ∃ r, r ∈ regs ∧ e = (key r, val r).
Proof.
  intros He. destruct (keyed_elem_of key val regs [] e He) as [Hin|H]; [|done].
  by apply elem_of_nil in Hin.
Qed.

Lemma tools_of_names regs :
  map tool_name (ToolRegistry.list (tools_of regs)) = map fst (tools_of regs).
Proof.
  unfold ToolRegistry.list, Map_values. rewrite !map_map.
  apply map_ext_in. intros e He. apply list_elem_of_In in He.
  apply (keyed_entries (fun r : ToolDef * ToolHandler => tool_name (fst r))
           (fun r => (fst r, snd r))) in He as (r & _ & ->). done.
Qed.

(** X16.  A tool registry after any sequence of registrations: the names
    listed are pairwise different; every definition listed was registered;
    and for the last registration under a name, its definition is the one
    listed and its handler is the one [call] calls.  So a later
    registration under a name replaces the earlier one. *)
Theorem tool_registry_keeps_the_last_registration
    (regs : list (ToolDef * ToolHandler)) :
  NoDup (map tool_name (ToolRegistry.list (tools_of regs)))
  ∧ (∀ d, d ∈ ToolRegistry.list (tools_of regs) → ∃ h, (d, h) ∈ regs)
  ∧ (∀ pre d h post,
       regs = pre ++ (d, h) :: post →
       Forall (fun r => tool_name (fst r) ≠ tool_name d) post →
       d ∈ ToolRegistry.list (tools_of regs)
       ∧ ∀ now args,
           ToolRegistry.call now (tools_of regs) (tool_name d) args = h args now).
Proof.
  split_and!.
  - rewrite tools_of_names.
    apply (keyed_NoDup (fun r : ToolDef * ToolHandler => tool_name (fst r))
             (fun r => (fst r, snd r)) regs []). constructor.
  - intros d Hd. unfold ToolRegistry.list, Map_values in Hd.
    apply list_elem_of_fmap in Hd as ([d' h] & -> & Hd).
    apply list_elem_of_fmap in Hd as ([k dh] & Heq & Hd). simpl in Heq. subst dh.
    apply (keyed_entries (fun r : ToolDef * ToolHandler => tool_name (fst r))
             (fun r => (fst r, snd r))) in Hd as ([d0 h0] & Hin & Heq).
    simpl in Heq. exists h. by simplify_eq.
  - intros pre d h post -> Hall.
    pose proof (keyed_get_last (fun r : ToolDef * ToolHandler => tool_name (fst r))
                  (fun r => (fst r, snd r)) pre (d, h) post [] Hall) as Hg.
    simpl in Hg. split.
    + apply assoc_elem_of in Hg.
      unfold ToolRegistry.list, Map_values.
      apply list_elem_of_fmap. exists (d, h). split; [done|].
      apply list_elem_of_fmap. by exists (tool_name d, (d, h)).
    + intros now args. unfold ToolRegistry.call, tools_of.
      unfold ToolRegistry.register, ToolRegistry.empty. by rewrite Hg.
Qed.

Lemma prompts_of_names regs :
  map prompt_name (PromptRegistry.list (prompts_of regs)) = map fst (prompts_of regs).
Proof.
  unfold PromptRegistry.list, Map_values. rewrite !map_map.
  apply map_ext_in. intros e He. apply list_elem_of_In in He.
  apply (keyed_entries (fun r : PromptDef * Str => prompt_name (fst r))
           (fun r => (fst r, snd r))) in He as (r & _ & ->). done.
Qed.

(** X17.  A prompt registry after any sequence of registrations: the names
    listed are pairwise different; [get] renders the template registered
    last under the name asked for and returns the name with the rendering;
    for a name under which nothing was registered [get] throws
    "Prompt not found". *)
Theorem prompt_registry_keeps_the_last_registration
    (Number_toString : Z -> Str) (primitive_member : Json -> Str -> Except Str)
    (regs : list (PromptDef * Str)) (variables : Json) :
  NoDup (map prompt_name (PromptRegistry.list (prompts_of regs)))
  ∧ (∀ pre d template post,
       regs = pre ++ (d, template) :: post →
       Forall (fun r => prompt_name (fst r) ≠ prompt_name d) post →
       d ∈ PromptRegistry.list (prompts_of regs)
       ∧ PromptRegistry.get Number_toString primitive_member (prompts_of regs)
           (prompt_name d) variables
         = ebind (renderTemplate Number_toString primitive_member template variables)
             (fun content => Ok (prompt_name d, content)))
  ∧ (∀ name,
       Forall (fun r => prompt_name (fst r) ≠ name) regs →
       PromptRegistry.get Number_toString primitive_member (prompts_of regs)
         name variables
       = Throw (lit "Prompt not found")).
Proof.
  split_and!.
  - rewrite prompts_of_names.
    apply (keyed_NoDup (fun r : PromptDef * Str => prompt_name (fst r))
             (fun r => (fst r, snd r)) regs []). constructor.
  - intros pre d template post -> Hall.
    pose proof (keyed_get_last (fun r : PromptDef * Str => prompt_name (fst r))
                  (fun r => (fst r, snd r)) pre (d, template) post [] Hall) as Hg.
    simpl in Hg. split.
    + apply assoc_elem_of in Hg.
      unfold PromptRegistry.list, Map_values.
      apply list_elem_of_fmap. exists (d, template). split; [done|].
      apply list_elem_of_fmap. by exists (prompt_name d, (d, template)).
    + unfold PromptRegistry.get, prompts_of.
      unfold PromptRegistry.register, PromptRegistry.empty. by rewrite Hg.
  - intros name Hall.
    pose proof (keyed_get_other (fun r : PromptDef * Str => prompt_name (fst r))
                  (fun r => (fst r, snd r)) regs [] name Hall) as Hg.
    simpl in Hg.
    unfold PromptRegistry.get, prompts_of.
    unfold PromptRegistry.register, PromptRegistry.empty. by rewrite Hg.
Qed.

(* ===================================================================== *)
(** ** The cases of the dispatcher that consult a registry *)
(* ===================================================================== *)

Section outcomes.
Variable Number_toString : Z -> Str.
Variable primitive_member : Json -> Str -> Except Str.
Variable now : Str.
Variable srv : MCPServer.

Local Abbreviation handle := (handle Number_toString primitive_member now srv).

Lemma tools_call_outcome shuttingDown req w name :
  is_method req "tools/call" = true →
  JS_String_opt Number_toString (prop "name" (params_of req)) = Ok name →
  handle shuttingDown req w
  = (Fulfilled shuttingDown,
     wrote (match ToolRegistry.call now (tools srv) name
                    (prop "arguments" (params_of req)) with
            | Ok res => mkResponse (nullish (prop "id" req) JNull)
                          (Result (ToolResult_json res))
            | Throw e => server_error (nullish (prop "id" req) JNull) e
            end) w).
Proof.
  intros Hm Hname.
  unfold handle, handle_switch, try_catch.
  rewrite (is_method_other req _ "initialize" Hm) by done.
  rewrite (is_method_other req _ "shutdown" Hm) by done.
  rewrite (is_method_other req _ "tools/list" Hm) by done.
  rewrite Hm, bind_lift, Hname, bind_lift.
  by destruct (ToolRegistry.call now (tools srv) name
                 (prop "arguments" (params_of req))).
Qed.

Lemma resources_read_outcome shuttingDown req w uri :
  is_method req "resources/read" = true →
  truthy_opt (prop "uri" (params_of req)) = true →
  JS_String_opt Number_toString (prop "uri" (params_of req)) = Ok uri →
  handle shuttingDown req w
  = (Fulfilled shuttingDown,
     wrote (match ResourceRegistry.read (resources srv) uri with
            | Ok res => mkResponse (nullish (prop "id" req) JNull)
                          (Result (ResourceContent_json res))
            | Throw e => server_error (nullish (prop "id" req) JNull) e
            end) w).
Proof.
  intros Hm Ht Huri.
  unfold handle, handle_switch, try_catch.
  rewrite (is_method_other req _ "initialize" Hm) by done.
  rewrite (is_method_other req _ "shutdown" Hm) by done.
  rewrite (is_method_other req _ "tools/list" Hm) by done.
  rewrite (is_method_other req _ "tools/call" Hm) by done.
  rewrite (is_method_other req _ "resources/list" Hm) by done.
  rewrite Hm, Ht. cbn [negb]. rewrite bind_lift, Huri, bind_lift.
  by destruct (ResourceRegistry.read (resources srv) uri).
Qed.

Lemma prompts_get_outcome shuttingDown req w name :
  is_method req "prompts/get" = true →
  truthy_opt (prop "name" (params_of req)) = true →
  JS_String_opt Number_toString (prop "name" (params_of req)) = Ok name →
  handle shuttingDown req w
  = (Fulfilled shuttingDown,
     wrote (match PromptRegistry.get Number_toString primitive_member (prompts srv)
                    name (nullish (prop "variables" (params_of req)) (JObj [])) with
            | Ok p =>
                mkResponse (nullish (prop "id" req) JNull)
                  (Result (JObj [(lit "prompt",
                     JObj [ (lit "name", JStr (fst p));
                            (lit "messages",
                              JArr [JObj [ (lit "role", JStr (lit "system"));
                                           (lit "content", JStr (snd p)) ]]) ])]))
            | Throw e => server_error (nullish (prop "id" req) JNull) e
            end) w).
Proof.
  intros Hm Ht Hname.
  unfold handle, handle_switch, try_catch.
  rewrite (is_method_other req _ "initialize" Hm) by done.
  rewrite (is_method_other req _ "shutdown" Hm) by done.
  rewrite (is_method_other req _ "tools/list" Hm) by done.
  rewrite (is_method_other req _ "tools/call" Hm) by done.
  rewrite (is_method_other req _ "resources/list" Hm) by done.
  rewrite (is_method_other req _ "resources/read" Hm) by done.
  rewrite (is_method_other req _ "prompts/list" Hm) by done.
  rewrite Hm, Ht. cbn [negb]. rewrite bind_lift, Hname, bind_lift.
  by destruct (PromptRegistry.get Number_toString primitive_member (prompts srv)
                 name (nullish (prop "variables" (params_of req)) (JObj []))).
Qed.
End outcomes.

Lemma find_none_of_Forall {A} (f : A → bool) l :
  Forall (fun x => f x = false) l → find f l = None.
Proof. induction 1 as [|x l Hx _ IH]; [done|]. simpl. by rewrite Hx. Qed.

(** X14.  Lookups that find nothing.  A "resources/read" request for a URI
    that no registered URI equals or is a prefix of, and a "prompts/get"
    request for a name under which no prompt is registered, are answered by
    the error -32000 with the message "Resource not found" or
    "Prompt not found"; the loop is not stopped. *)
Theorem unknown_resource_or_prompt_is_a_server_error
    (Number_toString : Z -> Str) (primitive_member : Json -> Str -> Except Str)
    (now : Str) (srv : MCPServer) (shuttingDown : bool) (req : Json) (w : World) :
  (∀ uri,
     is_method req "resources/read" = true →
     truthy_opt (prop "uri" (params_of req)) = true →
     JS_String_opt Number_toString (prop "uri" (params_of req)) = Ok uri →
     Forall (fun d => startsWith uri (res_uri d) = false)
       (ResourceRegistry.list (resources srv)) →
     handle Number_toString primitive_member now srv shuttingDown req w
     = (Fulfilled shuttingDown,
        wrote (server_error (nullish (prop "id" req) JNull)
                 (lit "Resource not found")) w))
  ∧ (∀ name,
       is_method req "prompts/get" = true →
       truthy_opt (prop "name" (params_of req)) = true →
       JS_String_opt Number_toString (prop "name" (params_of req)) = Ok name →
       Map_get name (prompts srv) = None →
       handle Number_toString primitive_member now srv shuttingDown req w
       = (Fulfilled shuttingDown,
          wrote (server_error (nullish (prop "id" req) JNull)
                   (lit "Prompt not found")) w)).
Proof.
  split.
  - intros uri Hm Ht Huri Hall.
    rewrite (resources_read_outcome _ _ _ _ _ _ _ uri Hm Ht Huri).
    unfold ResourceRegistry.read, ResourceRegistry.find_match.
    unfold ResourceRegistry.list in Hall.
    rewrite find_none_of_Forall, (find_none_of_Forall _ _ Hall); [done|].
    eapply Forall_impl; [exact Hall|]. intros d Hd.
    apply bool_decide_eq_false. intros Heq.
    assert (startsWith uri (res_uri d) = true); [|congruence].
    apply startsWith_true. exists []. by rewrite Heq, app_nil_r.
  - intros name Hm Ht Hname Hget.
    rewrite (prompts_get_outcome _ _ _ _ _ _ _ name Hm Ht Hname).
    unfold PromptRegistry.get. by rewrite Hget.
Qed.

Lemma unknown_resource_or_prompt_is_a_server_error_witness :
  let read := request_with (JNum 8) "resources/read"
                [(lit "uri", JStr (lit "http://example.org/"))] in
  let get := request_with (JStr (lit "g")) "prompts/get"
               [(lit "name", JStr (lit "nope"))] in
  handle Fragment.Number_toString Fragment.primitive_member Fragment.now
    Fragment.server false read (Scenario.at_once [])
  = (Fulfilled false,
     wrote (mkResponse (JNum 8) (Error (-32000) (lit "Resource not found") None))
       (Scenario.at_once []))
  ∧ handle Fragment.Number_toString Fragment.primitive_member Fragment.now
      Fragment.server false get (Scenario.at_once [])
    = (Fulfilled false,
       wrote (mkResponse (JStr (lit "g")) (Error (-32000) (lit "Prompt not found") None))
         (Scenario.at_once [])).
Proof.
  intros read get. split.
  - apply (proj1 (unknown_resource_or_prompt_is_a_server_error
                    Fragment.Number_toString Fragment.primitive_member Fragment.now
                    Fragment.server false read (Scenario.at_once []))
             (lit "http://example.org/")); try reflexivity.
    repeat constructor.
  - apply (proj2 (unknown_resource_or_prompt_is_a_server_error
                    Fragment.Number_toString Fragment.primitive_member Fragment.now
                    Fragment.server false get (Scenario.at_once []))
             (lit "nope")); reflexivity.
Defined.

(* ===================================================================== *)
(** ** The server as its constructor builds it *)
(* ===================================================================== *)

Lemma request_with_id id method params :
  nullish (prop "id" (request_with id method params)) JNull = id.
Proof. change (nullish (Some id) JNull = id). apply nullish_some. Qed.

(** X21.  The built-in tools, called through the dispatcher of a server
    whose options register no tools: "echo" answers with the text it is
    given, whatever that text is, and with the empty text when it is given
    none; "ping" answers with its message, and with "pong" when it is given
    none; "time" answers with the reading of the clock.  None of them marks
    its result as an error. *)
Theorem built_in_tools_answer
    (cwd : Str) (EVA_MCP_WORKSPACE : option Str)
    (stat_isFile : Str -> Except bool) (readFile : Str -> Except Str)
    (sandbox_list : Except (list Str))
    (Number_toString : Z -> Str) (primitive_member : Json -> Str -> Except Str)
    (now : Str)
    (opt_resources : ResourceRegistry.t -> ResourceRegistry.t)
    (opt_prompts : PromptRegistry.t -> PromptRegistry.t)
    (serverName serverVersion : option Str)
    (shuttingDown : bool) (w : World) (id : Json) (s : Str) :
  let srv := MCPServer_new cwd EVA_MCP_WORKSPACE stat_isFile readFile sandbox_list
               Number_toString (fun reg => reg) opt_resources opt_prompts
               serverName serverVersion in
  let call tool args :=
    handle Number_toString primitive_member now srv shuttingDown
      (request_with id "tools/call"
         [(lit "name", JStr (lit tool)); (lit "arguments", JObj args)]) w in
  let says text :=
    (Fulfilled shuttingDown, wrote (mkResponse id (Result (text_content text))) w) in
  call "echo" [(lit "text", JStr s)] = says s
  ∧ call "echo" [] = says []
  ∧ call "ping" [(lit "message", JStr s)] = says s
  ∧ call "ping" [] = says (lit "pong")
  ∧ call "time" [] = says now.
Proof.
  intros srv call says. unfold call, says.
  split_and!.
  - erewrite tools_call_outcome; [|reflexivity|reflexivity].
    rewrite request_with_id. reflexivity.
  - erewrite tools_call_outcome; [|reflexivity|reflexivity].
    rewrite request_with_id. reflexivity.
  - erewrite tools_call_outcome; [|reflexivity|reflexivity].
    rewrite request_with_id. reflexivity.
  - erewrite tools_call_outcome; [|reflexivity|reflexivity].
    rewrite request_with_id. reflexivity.
  - erewrite tools_call_outcome; [|reflexivity|reflexivity].
    rewrite request_with_id. reflexivity.
Qed.

Lemma tools_of_snoc regs d h :
  tools_of (regs ++ [(d, h)]) = ToolRegistry.register d h (tools_of regs).
Proof. unfold tools_of. by rewrite fold_left_app. Qed.

(** X22.  Customizing a built-in.  The constructor registers the built-in
    tools before it runs the registrations of the options.  A tool that the
    options register under the name of a built-in takes its place: the
    names listed are still ping, echo and time, in that order, and the
    definition and the handler of that name are the ones of the options.  A
    tool of another name is added after the built-ins. *)
Theorem option_tool_replaces_a_built_in
    (cwd : Str) (EVA_MCP_WORKSPACE : option Str)
    (stat_isFile : Str -> Except bool) (readFile : Str -> Except Str)
    (sandbox_list : Except (list Str)) (Number_toString : Z -> Str)
    (opt_resources : ResourceRegistry.t -> ResourceRegistry.t)
    (opt_prompts : PromptRegistry.t -> PromptRegistry.t)
    (serverName serverVersion : option Str)
    (d : ToolDef) (h : ToolHandler) :
  let srv := MCPServer_new cwd EVA_MCP_WORKSPACE stat_isFile readFile sandbox_list
               Number_toString (ToolRegistry.register d h) opt_resources opt_prompts
               serverName serverVersion in
  let built_in := [lit "ping"; lit "echo"; lit "time"] in
  map tool_name (ToolRegistry.list (tools srv))
  = (if bool_decide (tool_name d ∈ built_in) then built_in
     else built_in ++ [tool_name d])
  ∧ d ∈ ToolRegistry.list (tools srv)
  ∧ ∀ now args, ToolRegistry.call now (tools srv) (tool_name d) args = h args now.
Proof.
  intros srv built_in.
  pose (B := [ (mkToolDef (lit "ping") (Some (lit "Ping the server"))
                  (Some (string_schema "message" false)), ping Number_toString);
               (mkToolDef (lit "echo") (Some (lit "Echo text"))
                  (Some (string_schema "text" true)), echo Number_toString);
               (mkToolDef (lit "time") (Some (lit "Get server time"))
                  (Some (JObj [ (lit "type", JStr (lit "object"));
                                (lit "properties", JObj []) ])), time) ]).
  assert (Hsrv : tools srv = tools_of (B ++ [(d, h)])) by reflexivity.
  assert (HB : map fst (tools_of B) = built_in) by reflexivity.
  pose proof (keyed_get_last (fun r : ToolDef * ToolHandler => tool_name (fst r))
                (fun r => (fst r, snd r)) B (d, h) [] []
                ltac:(constructor)) as Hg.
  change (Map_get (tool_name d) (tools_of (B ++ [(d, h)])) = Some (d, h)) in Hg.
  rewrite Hsrv. split_and!.
  - rewrite tools_of_names, (tools_of_snoc B d h).
    unfold ToolRegistry.register. by rewrite Map_set_keys, HB.
  - apply assoc_elem_of in Hg.
    unfold ToolRegistry.list, Map_values.
    apply list_elem_of_fmap. exists (d, h). split; [done|].
    apply list_elem_of_fmap. by exists (tool_name d, (d, h)).
  - intros now args. unfold ToolRegistry.call. by rewrite Hg.
Qed.

(* ===================================================================== *)
(** ** Templates and the built-in prompts *)
(* ===================================================================== *)

Lemma render_plain (Number_toString : Z -> Str)
    (primitive_member : Json -> Str -> Except Str) (vars : Json) (tpl : Str) :
  plain tpl →
  replace_all Number_toString primitive_member vars 0 tpl = Ok tpl.
Proof.
  intros Hp.
  pose proof (replace_all_plain Number_toString primitive_member vars tpl []
                Hp (or_introl eq_refl)) as H.
  rewrite app_nil_r in H. rewrite H. simpl. by rewrite app_nil_r.
Qed.

Lemma render_one (Number_toString : Z -> Str)
    (primitive_member : Json -> Str -> Except Str) (vars : Json)
    (pre k post : Str) :
  plain pre → is_name k → plain post →
  renderTemplate Number_toString primitive_member (pre ++ placeholder k ++ post) vars
  = ebind (replacement Number_toString primitive_member vars k)
      (fun v => Ok (pre ++ v ++ post)).
Proof.
  intros Hpre Hk Hpost. unfold renderTemplate.
  rewrite (replace_all_plain Number_toString primitive_member vars pre
             (placeholder k ++ post) Hpre) by eauto.
  rewrite (replace_all_placeholder _ _ _ _ _ Hk), render_plain by done.
  by destruct (replacement Number_toString primitive_member vars k).
Qed.

(** X18.  A template in which no name stands in double braces is rendered
    as it is, whatever the variables are, even when they are not an object:
    braces around nothing, around blanks or around other characters than
    letters, digits and the underscore are not placeholders. *)
Theorem text_without_placeholder_is_rendered_unchanged
    (Number_toString : Z -> Str) (primitive_member : Json -> Str -> Except Str)
    (tpl : Str) (vars : Json) :
  plain tpl →
  renderTemplate Number_toString primitive_member tpl vars = Ok tpl.
Proof. intros Hp. unfold renderTemplate. by apply render_plain. Qed.

Lemma text_without_placeholder_is_rendered_unchanged_witness :
  let tpl := lit "{{}} {{ name }} {{first-name}} {name} {{name}" in
  plain tpl
  ∧ renderTemplate Fragment.Number_toString Fragment.primitive_member tpl
      (JArr [JStr (lit "name")])
    = Ok tpl.
Proof.
  intros tpl.
  assert (Hp : plain tpl) by (apply no_placeholder_plain; vm_compute; reflexivity).
  split; [exact Hp|].
  exact (text_without_placeholder_is_rendered_unchanged Fragment.Number_toString
           Fragment.primitive_member tpl (JArr [JStr (lit "name")]) Hp).
Defined.

(** X19.  A placeholder whose name is not among the variables, but is the
    name of a property that every object inherits (constructor, toString,
    __proto__ and the like), is not rendered as the empty text: the text of
    the inherited property is put in its place. *)
Theorem inherited_name_is_not_rendered_empty
    (Number_toString : Z -> Str) (primitive_member : Json -> Str -> Except Str)
    (pre k post text : Str) (fields : list (Str * Json)) :
  plain pre → is_name k → plain post →
  assoc k fields = None →
  Object_prototype k = Some text →
  renderTemplate Number_toString primitive_member (pre ++ placeholder k ++ post)
    (JObj fields)
  = Ok (pre ++ text ++ post).
Proof.
  intros Hpre Hk Hpost Hf Ho.
  rewrite (render_one _ _ _ _ _ _ Hpre Hk Hpost).
  unfold replacement. by rewrite Hf, Ho.
Qed.

Lemma inherited_name_is_not_rendered_empty_witness :
  renderTemplate Fragment.Number_toString Fragment.primitive_member
    (lit "Persona: {{constructor}}.") (JObj [(lit "persona", JStr (lit "pirate"))])
  = Ok (lit "Persona: function Object() { [native code] }.").
Proof.
  apply (inherited_name_is_not_rendered_empty Fragment.Number_toString
           Fragment.primitive_member (lit "Persona: ") (lit "constructor") (lit ".")
           (lit "function Object() { [native code] }")
           [(lit "persona", JStr (lit "pirate"))]).
  - apply no_placeholder_plain. vm_compute. reflexivity.
  - split; [discriminate|]. repeat constructor.
  - apply no_placeholder_plain. vm_compute. reflexivity.
  - reflexivity.
  - reflexivity.
Defined.

(** X20.  The built-in prompts, asked for through the dispatcher of a
    server whose options register no prompts.  "summarize" with a text
    gives the instruction with the text in the place of the placeholder,
    whatever the text is, double braces in it included, and
    "system-instructions" without variables ends with an empty persona. *)
Theorem built_in_prompts_are_rendered
    (cwd : Str) (EVA_MCP_WORKSPACE : option Str)
    (stat_isFile : Str -> Except bool) (readFile : Str -> Except Str)
    (sandbox_list : Except (list Str))
    (Number_toString : Z -> Str) (primitive_member : Json -> Str -> Except Str)
    (now : Str)
    (opt_tools : ToolRegistry.t -> ToolRegistry.t)
    (opt_resources : ResourceRegistry.t -> ResourceRegistry.t)
    (serverName serverVersion : option Str)
    (shuttingDown : bool) (w : World) (id : Json) (s : Str) :
  let srv := MCPServer_new cwd EVA_MCP_WORKSPACE stat_isFile readFile sandbox_list
               Number_toString opt_tools opt_resources (fun reg => reg)
               serverName serverVersion in
  handle Number_toString primitive_member now srv shuttingDown
    (request_with id "prompts/get"
       [ (lit "name", JStr (lit "summarize"));
         (lit "variables", JObj [(lit "text", JStr s)]) ]) w
  = (Fulfilled shuttingDown,
     wrote (mkResponse id
              (Result (prompt_content (lit "summarize")
                         (lit "Summarize the following text:" ++ [LF; LF] ++ s
                          ++ [LF; LF] ++ lit "Return a concise summary.")))) w)
  ∧ handle Number_toString primitive_member now srv shuttingDown
      (request_with id "prompts/get" [(lit "name", JStr (lit "system-instructions"))]) w
    = (Fulfilled shuttingDown,
       wrote (mkResponse id
                (Result (prompt_content (lit "system-instructions")
                           (lit "You are a helpful assistant. Persona: ")))) w).
Proof.
  intros srv. split.
  - erewrite prompts_get_outcome; [|reflexivity|reflexivity|reflexivity].
    rewrite request_with_id.
    change (PromptRegistry.get Number_toString primitive_member (prompts srv)
              (lit "summarize") _)
      with (ebind (renderTemplate Number_toString primitive_member
                     ((lit "Summarize the following text:" ++ [LF; LF])
                      ++ placeholder (lit "text")
                      ++ ([LF; LF] ++ lit "Return a concise summary."))
                     (JObj [(lit "text", JStr s)]))
              (fun content => Ok (lit "summarize", content))).
    rewrite render_one.
    + change (replacement Number_toString primitive_member
                (JObj [(lit "text", JStr s)]) (lit "text")) with (Ok s : Except Str).
      cbn [ebind fst snd]. rewrite <- app_assoc. reflexivity.
    + apply no_placeholder_plain. vm_compute. reflexivity.
    + split; [discriminate|]. repeat constructor.
    + apply no_placeholder_plain. vm_compute. reflexivity.
  - erewrite prompts_get_outcome; [|reflexivity|reflexivity|reflexivity].
    rewrite request_with_id.
    change (PromptRegistry.get Number_toString primitive_member (prompts srv)
              (lit "system-instructions") _)
      with (ebind (renderTemplate Number_toString primitive_member
                     (lit "You are a helpful assistant. Persona: "
                      ++ placeholder (lit "persona") ++ [])
                     (JObj []))
              (fun content => Ok (lit "system-instructions", content))).
    rewrite render_one.
    + reflexivity.
    + apply no_placeholder_plain. vm_compute. reflexivity.
    + split; [discriminate|]. repeat constructor.
    + apply no_placeholder_plain. reflexivity.
Qed.

(* ===================================================================== *)
(** ** File resources *)
(* ===================================================================== *)

Lemma file_uri_not_root rel : rel ≠ [] → lit "file:///" ++ rel ≠ lit "file:///".
Proof.
  intros Hne Heq. apply Hne.
  rewrite <- (app_nil_r (lit "file:///")) in Heq at 2.
  by apply app_inv_head in Heq.
Qed.

Lemma remove_first_prefix pattern s : remove_first pattern (pattern ++ s) = s.
Proof.
  assert (Hs : startsWith (pattern ++ s) pattern = true).
  { apply startsWith_true. by exists s. }
  destruct (pattern ++ s) as [|c t] eqn:E; simpl; rewrite Hs; rewrite <- E.
  - by rewrite drop_app_length.
  - by rewrite drop_app_length.
Qed.

(** X23.  The file resource of a server whose options register no
    resources.  A "resources/read" request for a URI that starts with
    file:/// is served by the sandbox: the path read is the URI without
    that prefix, character for character; the response holds the URI asked
    for, the type text/plain and the content of the file; and a failure of
    the sandbox (a path outside the workspace, no such file, not a file)
    comes back as the error -32000 with the sandbox's message.  The URI
    file:/// itself gives the listing of the workspace, one path per
    line. *)
Theorem file_uri_is_read_through_the_sandbox
    (cwd : Str) (EVA_MCP_WORKSPACE : option Str)
    (stat_isFile : Str -> Except bool) (readFile : Str -> Except Str)
    (sandbox_list : Except (list Str))
    (Number_toString : Z -> Str) (primitive_member : Json -> Str -> Except Str)
    (now : Str)
    (opt_tools : ToolRegistry.t -> ToolRegistry.t)
    (opt_prompts : PromptRegistry.t -> PromptRegistry.t)
    (serverName serverVersion : option Str)
    (shuttingDown : bool) (w : World) (id : Json) (rel : Str) :
  let srv := MCPServer_new cwd EVA_MCP_WORKSPACE stat_isFile readFile sandbox_list
               Number_toString opt_tools (fun reg => reg) opt_prompts
               serverName serverVersion in
  let base := createSandbox_base cwd EVA_MCP_WORKSPACE None in
  let content uri text :=
    mkResponse id
      (Result (JObj [ (lit "uri", JStr uri);
                      (lit "mimeType", JStr (lit "text/plain"));
                      (lit "text", JStr text) ])) in
  handle Number_toString primitive_member now srv shuttingDown
    (request_with id "resources/read" [(lit "uri", JStr (lit "file:///" ++ rel))]) w
  = (Fulfilled shuttingDown,
     wrote (if is_nil rel then
              match sandbox_list with
              | Ok items => content (lit "file:///") (join [LF] items)
              | Throw e => server_error id e
              end
            else
              match sandbox_read cwd stat_isFile readFile base rel with
              | Ok r => content (lit "file:///" ++ rel) (snd r)
              | Throw e => server_error id e
              end) w).
Proof.
  intros srv base content.
  erewrite resources_read_outcome; [|reflexivity|reflexivity|reflexivity].
  rewrite request_with_id. do 2 f_equal.
  destruct rel as [|c rel].
  - cbn [is_nil]. change (lit "file:///" ++ []) with (lit "file:///").
    change (ResourceRegistry.read (resources srv) (lit "file:///"))
      with (ebind sandbox_list (fun items =>
              Ok (mkResourceContent (lit "file:///") (Some (lit "text/plain"))
                    (Some (join [LF] items))))).
    by destruct sandbox_list.
  - cbn [is_nil].
    assert (Hne : lit "file:///" ++ c :: rel ≠ lit "file:///")
      by (by apply file_uri_not_root).
    assert (Hread : ResourceRegistry.read (resources srv) (lit "file:///" ++ c :: rel)
                    = file_reader cwd EVA_MCP_WORKSPACE stat_isFile readFile sandbox_list
                        None (lit "file:///" ++ c :: rel)).
    { unfold ResourceRegistry.read, ResourceRegistry.find_match.
      change (ResourceRegistry.resources (resources srv))
        with [mkResourceDef (lit "file:///") (Some (lit "Workspace files"))
                (Some (lit "Files under workspace root")) (Some (lit "text/plain"))].
      cbn [find res_uri]. rewrite bool_decide_eq_false_2 by done.
      reflexivity. }
    rewrite Hread. unfold file_reader.
    rewrite bool_decide_eq_false_2 by done.
    rewrite remove_first_prefix. fold base.
    by destruct (sandbox_read cwd stat_isFile readFile base (c :: rel)) as [[p text]|e].
Qed.

(* ===================================================================== *)
(** ** The sandbox on ordinary paths *)
(* ===================================================================== *)

Lemma split_segment (a b : Str) :
  "/"%char ∉ a → split "/"%char (a ++ "/"%char :: b) = a :: split "/"%char b.
Proof.
  induction a as [|c a IH]; intros Ha; simpl.
  - done.
  - rewrite decide_False by (intros ->; apply Ha; apply list_elem_of_here).
    rewrite IH; [done|]. intros Hin. apply Ha. by apply list_elem_of_further.
Qed.

Lemma split_join (l : list Str) (r : Str) :
  Forall is_segment l → l ≠ [] →
  split "/"%char (join (lit "/") l ++ "/"%char :: r) = l ++ split "/"%char r.
Proof.
  intros Hl Hne. induction Hl as [|x l Hx Hl IH]; [done|].
  destruct l as [|y l].
  - simpl. apply split_segment. apply Hx.
  - rewrite join_cons.
    replace ((x ++ "/"%char :: join (lit "/") (y :: l)) ++ "/"%char :: r)
      with (x ++ "/"%char :: (join (lit "/") (y :: l) ++ "/"%char :: r))
      by (by rewrite <- app_assoc).
    rewrite split_segment by apply Hx.
    by rewrite IH.
Qed.

Lemma normalize_ordinary l : ∀ stack,
  Forall is_segment l →
  fold_left (normalize_step false) l stack = stack ++ l.
Proof.
  induction l as [|seg l IH]; intros stack Hl; [by rewrite app_nil_r|].
  apply Forall_cons in Hl as [(H1 & H2 & H3 & _) Hl].
  simpl. unfold normalize_step at 2.
  rewrite !bool_decide_eq_false_2 by done. simpl.
  rewrite IH by done. by rewrite <- app_assoc.
Qed.

Lemma join_app (l1 l2 : list Str) :
  l1 ≠ [] → l2 ≠ [] →
  join (lit "/") (l1 ++ l2) = join (lit "/") l1 ++ "/"%char :: join (lit "/") l2.
Proof.
  intros H1 H2. induction l1 as [|x l1 IH]; [done|].
  destruct l1 as [|y l1].
  - destruct l2 as [|z l2]; [done|]. reflexivity.
  - change ((x :: y :: l1) ++ l2) with (x :: y :: (l1 ++ l2)).
    rewrite !join_cons. change (y :: l1 ++ l2) with ((y :: l1) ++ l2).
    rewrite IH by done. by rewrite <- app_assoc.
Qed.

Lemma join_not_absolute (segs : list Str) :
  Forall is_segment segs → segs ≠ [] →
  is_nil (join (lit "/") segs) = false ∧ isAbsolute (join (lit "/") segs) = false
  ∧ ∃ c t, join (lit "/") segs = c :: t ∧ c ≠ "/"%char.
Proof.
  intros Hs Hne. destruct Hs as [|x l (Hx & _ & _ & Hsl) Hl]; [done|].
  destruct x as [|c x]; [done|].
  assert (Hc : c ≠ "/"%char) by (intros ->; apply Hsl; apply list_elem_of_here).
  destruct l as [|y l].
  - simpl. rewrite bool_decide_eq_false_2 by done. split_and!; eauto.
  - rewrite join_cons. simpl. rewrite bool_decide_eq_false_2 by done.
    split_and!; eauto.
Qed.

Lemma normalize_step_empty stack : normalize_step false stack [] = stack.
Proof. reflexivity. Qed.

Lemma resolve_collect_two cwd base p :
  is_nil p = false → isAbsolute p = false →
  is_nil base = false → isAbsolute base = true →
  resolve_collect [p; base] cwd [] = (base ++ lit "/" ++ p ++ lit "/" ++ [], true).
Proof. intros H1 H2 H3 H4. simpl. by rewrite H1, H2, H3, H4. Qed.

(** [resolve] of a normalized absolute path and a path of ordinary
    segments: the segments are appended. *)
Lemma resolve_ordinary cwd (B segs : list Str) :
  Forall is_segment B → Forall is_segment segs → segs ≠ [] →
  resolve cwd [absolute_path B; join (lit "/") segs] = absolute_path (B ++ segs).
Proof.
  intros HB Hs Hne.
  destruct (join_not_absolute segs Hs Hne) as (Hnil & Habs & _).
  unfold resolve, resolve_segments.
  change (rev [absolute_path B; join (lit "/") segs])
    with [join (lit "/") segs; absolute_path B].
  rewrite (resolve_collect_two cwd (absolute_path B) (join (lit "/") segs)
             Hnil Habs eq_refl eq_refl).
  cbn iota beta. unfold absolute_path at 2. f_equal.
  unfold normalize, absolute_path. cbn [negb].
  change ((lit "/" ++ join (lit "/") B) ++ lit "/" ++ join (lit "/") segs ++ lit "/" ++ [])
    with ([] ++ "/"%char :: (join (lit "/") B ++ "/"%char
                             :: (join (lit "/") segs ++ "/"%char :: []))).
  rewrite split_segment by apply not_elem_of_nil.
  destruct B as [|b B].
  - change (join (lit "/") [] ++ "/"%char :: join (lit "/") segs ++ ["/"%char])
      with ([] ++ "/"%char :: (join (lit "/") segs ++ "/"%char :: [])).
    rewrite split_segment by apply not_elem_of_nil.
    rewrite split_join by done.
    change (split "/"%char []) with [[] : Str].
    cbn [fold_left]. rewrite !normalize_step_empty.
    rewrite fold_left_app, (normalize_ordinary segs _ Hs).
    cbn [fold_left]. by rewrite normalize_step_empty.
  - rewrite split_join by done.
    rewrite split_join by done.
    change (split "/"%char []) with [[] : Str].
    cbn [fold_left]. rewrite !normalize_step_empty.
    rewrite !fold_left_app, (normalize_ordinary (b :: B) _ HB),
      (normalize_ordinary segs _ Hs).
    cbn [fold_left]. by rewrite normalize_step_empty.
Qed.

(** X26.  The sandbox on ordinary paths.  For a path [p] made of ordinary
    segments (no empty segment, ".", ".." or separator inside), the path
    resolved is the workspace root, a separator and [p], and [read] gives
    the content of the file there under the path [p] as it was asked for,
    "Not a file" when there is something else than a regular file, and the
    failure of the file system otherwise.  When the workspace root is the
    root of the file system, every such path is refused as outside the
    workspace. *)
Theorem ordinary_path_is_read_below_the_root
    (cwd : Str) (EVA_MCP_WORKSPACE root : option Str)
    (stat_isFile : Str -> Except bool) (readFile : Str -> Except Str)
    (segs : list Str) :
  isAbsolute cwd = true →
  segs ≠ [] → Forall is_segment segs →
  let base := createSandbox_base cwd EVA_MCP_WORKSPACE root in
  let p := join (lit "/") segs in
  if bool_decide (base = lit "/") then
    safeResolve cwd base p = Throw (lit "Path outside workspace")
  else
    safeResolve cwd base p = Ok (base ++ sep ++ p)
    ∧ sandbox_read cwd stat_isFile readFile base p
      = match stat_isFile (base ++ sep ++ p) with
        | Ok true =>
            match readFile (base ++ sep ++ p) with
            | Ok content => Ok (p, content)
            | Throw e => Throw e
            end
        | Ok false => Throw (lit "Not a file")
        | Throw e => Throw e
        end.
Proof.
  intros Hcwd Hne Hs base p.
  destruct (resolve_absolute cwd [default (default cwd EVA_MCP_WORKSPACE) root]
              (resolve_one_absolute cwd _ Hcwd)) as [Hbase HB].
  fold (createSandbox_base cwd EVA_MCP_WORKSPACE root) in Hbase. fold base in Hbase.
  set (B := fst (resolve_segments cwd [default (default cwd EVA_MCP_WORKSPACE) root]))
    in *.
  assert (Habs : resolve cwd [base; p] = absolute_path (B ++ segs)).
  { rewrite Hbase. by apply resolve_ordinary. }
  destruct (join_not_absolute segs Hs Hne) as (_ & _ & c & t & Hp & Hc).
  fold p in Hp.
  destruct B as [|b B'] eqn:EB.
  - (* the workspace is the root of the file system *)
    assert (Hroot : base = lit "/") by (by rewrite Hbase).
    rewrite bool_decide_eq_true_2 by done.
    unfold safeResolve. rewrite Habs, Hroot.
    change (absolute_path ([] ++ segs)) with ("/"%char :: p).
    rewrite Hp.
    assert (H1 : startsWith ("/"%char :: c :: t) (lit "/" ++ sep) = false).
    { unfold startsWith. apply bool_decide_eq_false. simpl. unfold sep. simpl.
      intros [= ->]. done. }
    rewrite H1. by rewrite bool_decide_eq_false_2.
  - assert (Hnroot : base ≠ lit "/").
    { rewrite Hbase. unfold absolute_path.
      destruct (join_not_absolute (b :: B') HB ltac:(done)) as (_ & _ & c' & t' & -> & _).
      done. }
    rewrite bool_decide_eq_false_2 by done.
    assert (Hin : resolve cwd [base; p] = base ++ sep ++ p).
    { rewrite Habs, Hbase. unfold absolute_path.
      rewrite join_app by done. by rewrite <- app_assoc. }
    assert (Hsafe : safeResolve cwd base p = Ok (base ++ sep ++ p)).
    { unfold safeResolve. rewrite Hin.
      assert (H1 : startsWith (base ++ sep ++ p) (base ++ sep) = true).
      { apply startsWith_true. exists p. by rewrite <- app_assoc. }
      by rewrite H1. }
    split; [done|].
    unfold sandbox_read. rewrite Hsafe. cbn [ebind].
    destruct (stat_isFile (base ++ sep ++ p)) as [[|]|e]; try done.
Qed.

Lemma ordinary_path_is_read_below_the_root_witness :
  let cwd := lit "/srv/app" in
  let stat_isFile := fun abs : Str =>
    if decide (abs = lit "/srv/app/docs/a.txt") then Ok true
    else Throw (lit "ENOENT") in
  let readFile := fun abs : Str => Ok (lit "content of " ++ abs) in
  isAbsolute cwd = true
  ∧ createSandbox_base cwd None None = lit "/srv/app"
  ∧ is_segment (lit "docs") ∧ is_segment (lit "a.txt")
  ∧ safeResolve cwd (lit "/srv/app") (lit "docs/a.txt") = Ok (lit "/srv/app/docs/a.txt")
  ∧ sandbox_read cwd stat_isFile readFile (lit "/srv/app") (lit "docs/a.txt")
    = Ok (lit "docs/a.txt", lit "content of /srv/app/docs/a.txt")
  ∧ safeResolve cwd (createSandbox_base cwd (Some (lit "/")) None) (lit "etc/hosts")
    = Throw (lit "Path outside workspace").
Proof.
  intros cwd stat_isFile readFile.
  assert (Hno : ∀ s : Str, forallb (fun c => negb (bool_decide (c = "/"%char))) s = true →
                         "/"%char ∉ s).
  { clear. induction s as [|c s IH]; simpl; intros H; [apply not_elem_of_nil|].
    apply andb_true_iff in H as [Hc Hs]. apply not_elem_of_cons. split; [|by apply IH].
    apply negb_true_iff, bool_decide_eq_false in Hc. congruence. }
  assert (Hd : is_segment (lit "docs")).
  { split_and!; try discriminate. by apply Hno. }
  assert (Ha : is_segment (lit "a.txt")).
  { split_and!; try discriminate. by apply Hno. }
  assert (He : Forall is_segment [lit "etc"; lit "hosts"]).
  { repeat constructor; try discriminate; by apply Hno. }
  split; [reflexivity|]. split; [vm_compute; reflexivity|].
  split; [exact Hd|]. split; [exact Ha|].
  assert (Hs : Forall is_segment [lit "docs"; lit "a.txt"]).
  { constructor; [exact Hd|]. constructor; [exact Ha|]. constructor. }
  pose proof (ordinary_path_is_read_below_the_root cwd None None stat_isFile readFile
                [lit "docs"; lit "a.txt"] eq_refl ltac:(discriminate) Hs) as H1.
  pose proof (ordinary_path_is_read_below_the_root cwd (Some (lit "/")) None
                stat_isFile readFile
                [lit "etc"; lit "hosts"] eq_refl ltac:(discriminate) He) as H2.
  split; [exact (proj1 H1)|]. split; [exact (proj2 H1)|]. exact H2.
Defined.

(* ===================================================================== *)
(** ** The listing of the workspace *)
(* ===================================================================== *)

Lemma Dirent_tree_ind (P : Dirent → Prop) :
  (∀ name, P (File name)) →
  (∀ name, P (Other name)) →
  (∀ name items, Forall P items → P (Directory name items)) →
  ∀ it, P it.
Proof.
  intros Hf Ho Hd. fix IH 1. intros [name|name items|name].
  - apply Hf.
  - apply Hd. induction items as [|it items IHl]; constructor; [apply IH|apply IHl].
  - apply Ho.
Qed.

Lemma well_named_items name items :
  well_named (Directory name items) ↔ is_segment name ∧ Forall well_named items.
Proof.
  simpl. split; intros [Hn Hall]; (split; [done|]).
  - induction items as [|it items IH]; constructor; [apply Hall|apply IH, Hall].
  - induction Hall as [|it items Hit _ IH]; [done|]. by split.
Qed.

Lemma take_take_app {A} n (X Y : list A) :
  take n (take n X ++ Y) = take n (X ++ Y).
Proof.
  destruct (decide (n ≤ length X)) as [Hle|Hgt].
  - rewrite !take_app_le by (rewrite ?length_take; lia).
    by rewrite take_take, Nat.min_id.
  - by rewrite (take_ge X) by lia.
Qed.

Lemma relative_part (B q : list Str) :
  B ≠ [] → q ≠ [] →
  slice_from (length (absolute_path B) + 1) (absolute_path (B ++ q))
  = join (lit "/") q.
Proof.
  intros HB Hq. unfold slice_from, absolute_path.
  rewrite join_app by done.
  replace (lit "/" ++ join (lit "/") B ++ "/"%char :: join (lit "/") q)
    with ((lit "/" ++ join (lit "/") B ++ ["/"%char]) ++ join (lit "/") q)
    by (by rewrite <- !app_assoc).
  replace (length (lit "/" ++ join (lit "/") B) + 1)
    with (length (lit "/" ++ join (lit "/") B ++ ["/"%char]))
    by (rewrite !length_app; simpl; lia).
  by rewrite drop_app_length.
Qed.

Section listing.
Variable cwd : Str.
Variable B : list Str.
Variable max : nat.
Hypothesis B_segments : Forall is_segment B.
Hypothesis B_not_root : B ≠ [].

Local Abbreviation base := (absolute_path B).

(** The paths, relative to the root, of the files below the directory at
    [path]. *)
Local Abbreviation below path items :=
  (map (fun f => join (lit "/") (path ++ f)) (files_in items)).

Lemma visit_spec it : ∀ path out,
  Forall is_segment path → well_named it → length out < max →
  visit cwd base max (absolute_path (B ++ path)) it out
  = take max (out ++ below path [it]).
Proof.
  induction it as [name|name|name items IH] using Dirent_tree_ind;
    intros path out Hpath Hwn Hlen.
  - (* a file *)
    destruct Hwn as [Hn _]. simpl in Hn. cbn [visit dirent_name].
    change name with (join (lit "/") [name]) at 1.
    rewrite resolve_ordinary; [|by apply Forall_app|by constructor|done].
    rewrite <- app_assoc, relative_part by (done || by destruct path).
    unfold files_in. simpl. rewrite take_ge; [done|].
    rewrite length_app. simpl. lia.
  - (* neither a file nor a directory *)
    cbn [visit]. unfold files_in. simpl. rewrite app_nil_r, take_ge; [done|lia].
  - (* a directory *)
    apply well_named_items in Hwn as [Hn Hitems].
    cbn [visit dirent_name].
    change name with (join (lit "/") [name]) at 1.
    rewrite resolve_ordinary; [|by apply Forall_app|by constructor|done].
    rewrite <- app_assoc.
    assert (Hpath' : Forall is_segment (path ++ [name]))
      by (apply Forall_app; split; [done|by constructor]).
    assert (Hbelow : below path [Directory name items] = below (path ++ [name]) items).
    { unfold files_in. simpl. rewrite app_nil_r, map_map.
      apply map_ext. intros f. by rewrite <- app_assoc. }
    rewrite Hbelow. clear Hbelow.
    assert (Hgen : ∀ out, length out ≤ max →
              walk_items max (visit cwd base max (absolute_path (B ++ path ++ [name])))
                items out
              = take max (out ++ below (path ++ [name]) items)).
    { clear out Hlen.
      induction items as [|it items IHitems]; intros out Hlen.
      - unfold files_in. simpl. rewrite app_nil_r, take_ge; [done|lia].
      - apply Forall_cons in IH as [IHit IH].
        apply Forall_cons in Hitems as [Hit Hitems].
        cbn [walk_items].
        assert (Hsplit : below (path ++ [name]) (it :: items)
                         = below (path ++ [name]) [it] ++ below (path ++ [name]) items).
        { unfold files_in. simpl. by rewrite app_nil_r, map_app. }
        rewrite Hsplit.
        destruct (Nat.leb_spec max (length out)) as [Hfull|Hroom].
        + rewrite take_app_le by lia. rewrite take_ge; [done|lia].
        + rewrite (IHit (path ++ [name]) out Hpath' Hit Hroom).
          rewrite (IHitems IH Hitems) by (rewrite length_take; lia).
          by rewrite take_take_app, <- app_assoc. }
    apply Hgen. lia.
Qed.

Lemma walk_items_spec items : ∀ out,
  Forall well_named items → length out ≤ max →
  walk_items max (visit cwd base max base) items out
  = take max (out ++ below [] items).
Proof.
  induction items as [|it items IH]; intros out Hitems Hlen.
  - unfold files_in. simpl. rewrite app_nil_r, take_ge; [done|lia].
  - apply Forall_cons in Hitems as [Hit Hitems].
    cbn [walk_items].
    assert (Hsplit : below [] (it :: items) = below [] [it] ++ below [] items).
    { unfold files_in. simpl. by rewrite app_nil_r, map_app. }
    rewrite Hsplit.
    destruct (Nat.leb_spec max (length out)) as [Hfull|Hroom].
    + rewrite take_app_le by lia. rewrite take_ge; [done|lia].
    + pose proof (visit_spec it [] out ltac:(constructor) Hit Hroom) as Hv.
      rewrite app_nil_r in Hv. rewrite Hv.
      rewrite IH by (done || rewrite length_take; lia).
      by rewrite take_take_app, <- app_assoc.
Qed.
End listing.

(** X25.  The sandbox's [list(max)] on a directory tree whose names are
    ordinary segments, for a workspace root other than the root of the file
    system: the result is the first [max] regular files of the tree in
    depth-first order, each as its path relative to the workspace root with
    "/" between the names; entries that are neither files nor directories
    are left out, and never more than [max] paths are returned. *)
Theorem list_returns_the_first_max_files
    (cwd : Str) (B : list Str) (max : nat) (root_items : list Dirent) :
  Forall is_segment B → B ≠ [] →
  Forall well_named root_items →
  sandbox_list_walk cwd (absolute_path B) max root_items
  = take max (map (join (lit "/")) (files_in root_items))
  ∧ length (sandbox_list_walk cwd (absolute_path B) max root_items) ≤ max.
Proof.
  intros HB Hne Hitems.
  assert (H : sandbox_list_walk cwd (absolute_path B) max root_items
              = take max (map (join (lit "/")) (files_in root_items))).
  { unfold sandbox_list_walk.
    rewrite (walk_items_spec cwd B max HB Hne root_items [] Hitems) by (simpl; lia).
    reflexivity. }
  split; [exact H|]. rewrite H, length_take. lia.
Qed.

Lemma list_returns_the_first_max_files_witness :
  let tree := [ File (lit "a.txt");
                Directory (lit "src") [ File (lit "b.ts"); Other (lit "link");
                                        Directory (lit "util") [File (lit "c.ts")] ];
                File (lit "d.md") ] in
  sandbox_list_walk (lit "/") (lit "/home/ws") 3 tree
  = [lit "a.txt"; lit "src/b.ts"; lit "src/util/c.ts"]
  ∧ length (sandbox_list_walk (lit "/") (lit "/home/ws") 3 tree) ≤ 3.
Proof.
  intros tree.
  assert (Hno : ∀ s : Str, forallb (fun c => negb (bool_decide (c = "/"%char))) s = true →
                         "/"%char ∉ s).
  { clear. induction s as [|c s IH]; simpl; intros H; [apply not_elem_of_nil|].
    apply andb_true_iff in H as [Hc Hs]. apply not_elem_of_cons. split; [|by apply IH].
    apply negb_true_iff, bool_decide_eq_false in Hc. congruence. }
  apply (list_returns_the_first_max_files (lit "/") [lit "home"; lit "ws"] 3 tree).
  - repeat constructor; try discriminate; by apply Hno.
  - discriminate.
  - repeat (first [ apply List.Forall_cons | apply List.Forall_nil ]);
      simpl; repeat split; try discriminate; try (by apply Hno).
Defined.

(* ===================================================================== *)
(** ** How [run] can fail *)
(* ===================================================================== *)

Section rejections.
Context {A St : Type} (L : Listeners A St) (e0 : Str).
Hypothesis readable_only : ∀ st s r s',
  on_readable L st s = Settle r s' → rejects_only_with e0 r.
Hypothesis end_only : ∀ st s r s',
  on_end L st s = Settle r s' → rejects_only_with e0 r.

Lemma await_events_only fuel : ∀ st w,
  rejects_only_with e0 (fst (await_events L fuel st w)).
Proof.
  induction fuel as [|fuel IH]; intros st w; [done|].
  simpl. destruct (nextTick (stream w)) as [[|] s1].
  - destruct (on_end L st s1) as [r s2|st' s2] eqn:E; [|done].
    simpl. by eapply end_only.
  - destruct (arrive (set_stream s1 w)) as [[[|] w1]|]; [|apply IH|done].
    destruct (on_readable L st (stream w1)) as [r s2|st' s2] eqn:E; [|apply IH].
    simpl. by eapply readable_only.
Qed.

Lemma listen_only st w : rejects_only_with e0 (fst (listen L st w)).
Proof.
  unfold listen.
  destruct (on_readable L st (stream (interleave w))) as [r s'|st' s'] eqn:E.
  - simpl. by eapply readable_only.
  - destruct (readableEnded s'); [|apply await_events_only].
    destruct (on_end L st' s') as [r s''|st'' s''] eqn:E'; [|done].
    simpl. by eapply end_only.
Qed.
End rejections.

Lemma bind_only {A B} (e0 : Str) (m : Async A) (k : A → Async B) w :
  (∀ w, rejects_only_with e0 (fst (m w))) →
  (∀ a w, rejects_only_with e0 (fst (k a w))) →
  rejects_only_with e0 (fst (bind m k w)).
Proof.
  intros Hm Hk. unfold bind. specialize (Hm w).
  destruct (m w) as [[a|e|] w']; [apply Hk|done..].
Qed.

Lemma readLine_drain_only fuel : ∀ st s r s',
  readLine_drain fuel st s = Settle r s' → ∃ line, r = Fulfilled line.
Proof.
  induction fuel as [|fuel IH]; intros st s r s'; simpl;
    destruct (stream_read s) as [[chunk|] s1]; try done;
    destruct (readLine_tryResolve (acc_push chunk st) s1) as [[line s2]|];
    intros H; simplify_eq; eauto.
Qed.

Lemma readLine_only e0 w : rejects_only_with e0 (fst (readLine w)).
Proof.
  apply listen_only.
  - intros st s r s'. simpl. unfold readLine_onReadable.
    destruct (readLine_drain (length (buffer s)) st s) as [r0 s0|st0 s0] eqn:E.
    + intros [= <- <-]. by apply readLine_drain_only in E as (line & ->).
    + destruct (readableEnded s0 && is_nil (chunks st0)); [|done].
      by intros [= <- <-].
  - intros st s r s'. simpl. unfold readLine_onEnd.
    destruct (readLine_tryResolve st s) as [[line s0]|]; by intros [= <- <-].
Qed.

Lemma readHeaders_loop_only e0 fuel : ∀ headers w,
  rejects_only_with e0 (fst (readHeaders_loop fuel headers w)).
Proof.
  induction fuel as [|fuel IH]; intros headers w; simpl;
    (apply bind_only; [apply readLine_only|]);
    intros [line|] w'; try done;
    destruct (decide (toString line = CRLF)); try done; try apply IH.
Qed.

Lemma readBytes_drain_only len fuel : ∀ st s r s',
  readBytes_drain len fuel st s = Settle r s' → ∃ body, r = Fulfilled body.
Proof.
  induction fuel as [|fuel IH]; intros st s r s' H; simpl in H;
    destruct (stream_read s) as [[chunk|] s1]; try done;
    destruct (len <=? Z.of_nat (total st + length chunk))%Z;
    simplify_eq; eauto.
Qed.

Lemma readBytes_only len w :
  rejects_only_with (lit "Stream ended") (fst (readBytes len w)).
Proof.
  apply listen_only.
  - intros st s r s' H. simpl in H.
    by apply readBytes_drain_only in H as (body & ->).
  - intros st s r s'. simpl. unfold readBytes_onEnd. by intros [= <- <-].
Qed.

Lemma drainBody_only e0 w : rejects_only_with e0 (fst (drainBody w)).
Proof.
  unfold drainBody. cbv zeta.
  destruct (readableEnded (stream (interleave w))); [done|].
  destruct (negb (is_nil (buffer (stream (interleave w))))); [done|].
  destruct (ended (stream (interleave w))); [done|].
  apply await_events_only; simpl; intros; by simplify_eq.
Qed.

Lemma read_only JSON_parse w :
  rejects_only_with (lit "Stream ended") (fst (FramedJSONRPC_read JSON_parse w)).
Proof.
  unfold FramedJSONRPC_read.
  apply bind_only; [intros w0; apply readHeaders_loop_only|].
  intros [headers|] w1; [|done].
  destruct (invalid_length _).
  - apply bind_only; [apply drainBody_only|done].
  - apply bind_only; [apply readBytes_only|].
    intros buf w2. by destruct (JSON_parse (toString buf)).
Qed.

Lemma run_loop_only (JSON_parse : Str -> Json + Str) (Number_toString : Z -> Str)
    (primitive_member : Json -> Str -> Except Str) (now : Str) (srv : MCPServer)
    fuel : ∀ shuttingDown w,
  rejects_only_with (lit "Stream ended")
    (fst (run_loop JSON_parse Number_toString primitive_member now srv
            fuel shuttingDown w)).
Proof.
  induction fuel as [|fuel IH]; intros sd w; simpl.
  all: apply bind_only; [apply read_only|].
  all: intros msg w1.
  all: destruct (negb (truthy_opt msg)); [done|].
  all: destruct (is_method (default JNull msg) "__internal_parse_error__").
  - apply bind_only; [done|done].
  - apply bind_only.
    + intros w2.
      by destruct (handle_answers Number_toString primitive_member now srv sd
                     (default JNull msg) w2) as (sd' & resp & -> & _).
    + intros sd' w2. by destruct sd'.
  - apply bind_only; [done|]. intros _ w2. apply IH.
  - apply bind_only.
    + intros w2.
      by destruct (handle_answers Number_toString primitive_member now srv sd
                     (default JNull msg) w2) as (sd' & resp & -> & _).
    + intros sd' w2. destruct sd'; [done|apply IH].
Qed.


(* ===================================================================== *)
(** ** A frame with a bad length *)
(* ===================================================================== *)

(** X28.  A frame without a usable length.  When a block of ASCII header
    lines gives no Content-Length, or one that [parseInt] does not read as
    a positive number, and more bytes follow, [read] returns what it
    returns at the end of the stream, and not one byte after the header
    block has been taken: the body of the frame is still in the stream.
    The loop of [run] takes that value for the end of the input: its
    promise is fulfilled and nothing is written. *)
Theorem bad_length_frame_is_read_as_end_of_stream
    (JSON_parse : Str -> Json + Str) (Number_toString : Z -> Str)
    (primitive_member : Json -> Str -> Except Str) (now : Str) (srv : MCPServer)
    (fuel : nat) (shuttingDown : bool) (w : World)
    (hs : list (Str * Str)) (rest : Buffer) :
  quiet w →
  Forall well_formed_header hs →
  invalid_length (content_length hs) = true →
  rest ≠ [] →
  remaining w = header_block hs ++ rest →
  ∃ w', FramedJSONRPC_read JSON_parse w = (Fulfilled None, w')
        ∧ run_loop JSON_parse Number_toString primitive_member now srv
            fuel shuttingDown w
          = (Fulfilled shuttingDown, w')
        ∧ remaining w' = rest ∧ written w' = written w.
Proof.
  intros Hq Hwf Hbad Hne Hrem.
  destruct (readHeaders_loop_block hs (world_size w) ∅ w rest Hq Hwf Hrem)
    as (w1 & Hr & Hl1).
  { pose proof (world_size_remaining w) as Hs.
    pose proof (header_block_length hs) as Hb.
    rewrite Hrem, length_app in Hs. lia. }
  destruct (drainBody_left w1 (left_quiet _ _ _ Hl1)) as (w2 & Hd & Hl2).
  { by rewrite (left_remaining _ _ _ Hl1). }
  rewrite (left_remaining _ _ _ Hl1) in Hl2.
  destruct (left_of_trans _ _ _ _ _ Hl1 Hl2) as [Hrem' Hq' Hw' _ _].
  assert (Hread : FramedJSONRPC_read JSON_parse w = (Fulfilled None, w2)).
  { unfold FramedJSONRPC_read, bind. unfold readHeaders. rewrite Hr.
    fold (headers_of hs). fold (content_length hs). rewrite Hbad.
    by rewrite Hd. }
  exists w2. split_and!; [done| |done..].
  by rewrite (run_loop_end _ _ _ _ _ _ _ _ _ Hread).
Qed.

Lemma bad_length_frame_is_read_as_end_of_stream_witness :
  let hs := [(lit "Content-Length", lit " -5"); (lit "Content-Type", lit " text/plain")] in
  let rest := lit "hello" ++ Scenario.message Scenario.initialize1 in
  let w := connect false
             [Data (take 11 (header_block hs)); Data (drop 11 (header_block hs) ++ rest);
End] [1; 1] in
  quiet w
  ∧ content_length hs = Some (-5)%Z
  ∧ ∃ w', FramedJSONRPC_read Fragment.JSON_parse w = (Fulfilled None, w')
          ∧ Fragment.run w = (Fulfilled false, w')
          ∧ remaining w' = rest ∧ written w' = written w.
Proof.
  intros hs rest w.
  assert (Hq : quiet w) by (split; [split; simpl; intros; congruence|reflexivity]).
  split; [exact Hq|].
  split; [vm_compute; reflexivity|].
  apply (bad_length_frame_is_read_as_end_of_stream Fragment.JSON_parse
           Fragment.Number_toString Fragment.primitive_member Fragment.now
           Fragment.server (world_size w) false w hs rest Hq).
  - header_lines.
  - vm_compute; reflexivity.
  - discriminate.
  - vm_compute; reflexivity.
Defined.
